(** * readraw.go: decoding Sony ARW sensor data

    A shallow embedding of [src/readraw.go]: the parameter extraction
    [extractDetails], the tone curve [gamma] and the pixel corrector
    [process], the two reconstruction routines [readCRAW] and [readraw14]
    with their neighbour-fill loops, and the [RGB14] raster with its
    colour conversion.

    Conventions.
    - Go's [int] and the fixed-width integer types are integers in [Z];
      a conversion to a w-bit unsigned type is written out as a reduction
      modulo [2^w].
    - Go's [float64] is Rocq's primitive binary64 [float]; every operation
      is rounded on its own, as in a build that does not fuse a
      multiplication with the addition that follows it.
    - A slice or array is a [list]; an index outside it is a run-time
      panic, which the model makes an explicit result.
    - Loops keep their counters: a counter is part of the loop state, the
      body may advance it, and the loop header advances it once more. *)

From Stdlib Require Import ZArith Lia Floats.
From Stdlib Require Strings.Byte.
From stdpp Require Import base option list.

Local Open Scope Z_scope.

(** ** Machine integers *)

Definition uint8 (z : Z) : Z := z mod 2 ^ 8.
Definition uint16 (z : Z) : Z := z mod 2 ^ 16.
Definition uint32 (z : Z) : Z := z mod 2 ^ 32.

(** ** Results of running Go code

    [Val a] is normal completion, [Panic] a run-time panic (index out of
    range, nil dereference), [OutOfFuel] the loop model running out of
    steps (shown below never to happen for the loops of this file). *)

Inductive res (A : Type) : Type :=
  | Val (a : A)
  | Panic
  | OutOfFuel.
Arguments Val {A} a.
Arguments Panic {A}.
Arguments OutOfFuel {A}.

Definition res_bind {A B : Type} (f : A -> res B) (m : res A) : res B :=
  match m with
  | Val a => f a
  | Panic => Panic
  | OutOfFuel => OutOfFuel
  end.

#[global] Instance res_mbind : MBind res := @res_bind.
#[global] Instance res_mret : MRet res := @Val.

(** [for i := i0; i < bound; i += step { body }], where [body] may itself
    advance [i]: the body returns the counter it leaves behind. *)

Fixpoint for_fuel {S : Type} (fuel : nat) (bound step : Z)
    (body : Z -> S -> res (Z * S)) (i : Z) (s : S) : res S :=
  if bound <=? i then Val s
  else match fuel with
       | O => OutOfFuel
       | Datatypes.S fuel' =>
           match body i s with
           | Val (i', s') => for_fuel fuel' bound step body (i' + step) s'
           | Panic => Panic
           | OutOfFuel => OutOfFuel
           end
       end.

Definition for_by {S : Type} (step bound : Z) (body : Z -> S -> res (Z * S))
    (i0 : Z) (s : S) : res S :=
  for_fuel (Z.to_nat (bound - i0)) bound step body i0 s.

Definition for_lt {S : Type} (bound : Z) (body : Z -> S -> res (Z * S))
    (i0 : Z) (s : S) : res S :=
  for_by 1 bound body i0 s.

(** Indexing a slice with a Go [int]. *)

Definition index {A : Type} (l : list A) (i : Z) : res A :=
  if i <? 0 then Panic
  else match l !! Z.to_nat i with
       | Some a => Val a
       | None => Panic
       end.

(** [l[i] = f(l[i])]: an update in place of element [i]. *)

Definition modify {A : Type} (l : list A) (i : Z) (f : A -> A) : res (list A) :=
  a ← index l i; Val (<[Z.to_nat i := f a]> l).

(** [l[lo:hi]], the capacity of [l] taken to be its length: Go bounds
    [hi] by the capacity, so the panic of an upper bound past the length
    is that of the code only for a slice with no room beyond its
    length. *)

Definition slice {A : Type} (l : list A) (lo hi : Z) : res (list A) :=
  if (0 <=? lo) && (lo <=? hi) && (hi <=? Z.of_nat (length l))
  then Val (take (Z.to_nat (hi - lo)) (drop (Z.to_nat lo) l))
  else Panic.

(** [copy(dst, src)]: the first [min(len(dst), len(src))] elements. *)

Definition copy {A : Type} (dst src : list A) : list A :=
  take (length dst) src ++ drop (length src) dst.

(** An element of a fixed-size array at a constant index. *)

Definition elem (l : list Z) (i : nat) : Z := l !!! i.

#[global] Instance float_inhabited : Inhabited float := populate 0%float.

(** ** The raster *)

Record pixel16 : Type := mkPixel16 { R : Z; G : Z; B : Z; pad : Z }.

Record Rectangle : Type := mkRect { MinX : Z; MinY : Z; MaxX : Z; MaxY : Z }.

Record RGB14 : Type := mkRGB14 { Pix : list pixel16; Stride : Z; Rect : Rectangle }.

Definition Dx (r : Rectangle) : Z := MaxX r - MinX r.
Definition Dy (r : Rectangle) : Z := MaxY r - MinY r.

(** [image.Rect(x0, y0, x1, y1)] orders its corners. *)
Definition image_Rect (x0 y0 x1 y1 : Z) : Rectangle :=
  mkRect (Z.min x0 x1) (Z.min y0 y1) (Z.max x0 x1) (Z.max y0 y1).

Definition zero_pixel : pixel16 := mkPixel16 0 0 0 0.

(** [make([]pixel16, w*h)] panics on a negative length. The product is
    that of the integers: it is the product of the code where that does
    not wrap, and the allocation is taken to be within the limit of the
    platform. *)
Definition NewRGB14 (r : Rectangle) : res RGB14 :=
  let w := Dx r in
  let h := Dy r in
  if w * h <? 0 then Panic
  else Val (mkRGB14 (replicate (Z.to_nat (w * h)) zero_pixel) w r).

(** The methods with a pointer receiver take the raster and give it back.
    The flat index [y * Stride + x] is that of the integers: it is the
    index of the code where the product and the sum do not wrap. *)

Definition at_ (r : RGB14) (x y : Z) : res (pixel16 * RGB14) :=
  p ← index (Pix r) (y * Stride r + x); Val (p, r).

Definition set (r : RGB14) (x y : Z) (pixel : pixel16) : res RGB14 :=
  pix ← modify (Pix r) (y * Stride r + x) (fun _ => pixel);
  Val (mkRGB14 pix (Stride r) (Rect r)).

(** [c.R << 2] is a shift of a [uint16], then widened to [uint32]. *)
Definition RGBA (c : pixel16) : Z * Z * Z * Z :=
  (uint32 (uint16 (Z.shiftl (R c) 2)),
   uint32 (uint16 (Z.shiftl (G c) 2)),
   uint32 (uint16 (Z.shiftl (B c) 2)),
   0xffff).

(** [Pix[d].G = Pix[s].G] and its siblings: read cell [s], write one
    channel of cell [d]. *)

Definition setR (v : Z) (p : pixel16) : pixel16 := mkPixel16 v (G p) (B p) (pad p).
Definition setG (v : Z) (p : pixel16) : pixel16 := mkPixel16 (R p) v (B p) (pad p).
Definition setB (v : Z) (p : pixel16) : pixel16 := mkPixel16 (R p) (G p) v (pad p).

Definition copyR (pix : list pixel16) (d s : Z) : res (list pixel16) :=
  p ← index pix s; modify pix d (setR (R p)).
Definition copyG (pix : list pixel16) (d s : Z) : res (list pixel16) :=
  p ← index pix s; modify pix d (setG (G p)).
Definition copyB (pix : list pixel16) (d s : Z) : res (list pixel16) :=
  p ← index pix s; modify pix d (setB (B p)).

(** ** The record of extracted parameters *)

Module RD.
Record rawDetails : Type := mk {
  width : Z;
  height : Z;
  bitDepth : Z;
  rawType : Z;
  offset : Z;
  stride : Z;
  length : Z;
  blackLevel : list Z;
  WhiteBalance : list Z;
  gammaCurve : list Z;
  crop : Rectangle;
  cfaPattern : list Z;
  cfaPatternDim : list Z
}.

(** [var rw rawDetails]: every field at its zero value. *)
Definition zero : rawDetails :=
  mk 0 0 0 0 0 0 0 [0; 0; 0; 0] [0; 0; 0; 0] [0; 0; 0; 0; 0]
     (mkRect 0 0 0 0) [0; 0; 0; 0] [0; 0].

Definition with_width v rw := mk v (height rw) (bitDepth rw) (rawType rw) (offset rw) (stride rw) (length rw) (blackLevel rw) (WhiteBalance rw) (gammaCurve rw) (crop rw) (cfaPattern rw) (cfaPatternDim rw).
Definition with_height v rw := mk (width rw) v (bitDepth rw) (rawType rw) (offset rw) (stride rw) (length rw) (blackLevel rw) (WhiteBalance rw) (gammaCurve rw) (crop rw) (cfaPattern rw) (cfaPatternDim rw).
Definition with_bitDepth v rw := mk (width rw) (height rw) v (rawType rw) (offset rw) (stride rw) (length rw) (blackLevel rw) (WhiteBalance rw) (gammaCurve rw) (crop rw) (cfaPattern rw) (cfaPatternDim rw).
Definition with_rawType v rw := mk (width rw) (height rw) (bitDepth rw) v (offset rw) (stride rw) (length rw) (blackLevel rw) (WhiteBalance rw) (gammaCurve rw) (crop rw) (cfaPattern rw) (cfaPatternDim rw).
Definition with_offset v rw := mk (width rw) (height rw) (bitDepth rw) (rawType rw) v (stride rw) (length rw) (blackLevel rw) (WhiteBalance rw) (gammaCurve rw) (crop rw) (cfaPattern rw) (cfaPatternDim rw).
Definition with_stride v rw := mk (width rw) (height rw) (bitDepth rw) (rawType rw) (offset rw) v (length rw) (blackLevel rw) (WhiteBalance rw) (gammaCurve rw) (crop rw) (cfaPattern rw) (cfaPatternDim rw).
Definition with_length v rw := mk (width rw) (height rw) (bitDepth rw) (rawType rw) (offset rw) (stride rw) v (blackLevel rw) (WhiteBalance rw) (gammaCurve rw) (crop rw) (cfaPattern rw) (cfaPatternDim rw).
Definition with_blackLevel v rw := mk (width rw) (height rw) (bitDepth rw) (rawType rw) (offset rw) (stride rw) (length rw) v (WhiteBalance rw) (gammaCurve rw) (crop rw) (cfaPattern rw) (cfaPatternDim rw).
Definition with_WhiteBalance v rw := mk (width rw) (height rw) (bitDepth rw) (rawType rw) (offset rw) (stride rw) (length rw) (blackLevel rw) v (gammaCurve rw) (crop rw) (cfaPattern rw) (cfaPatternDim rw).
Definition with_gammaCurve v rw := mk (width rw) (height rw) (bitDepth rw) (rawType rw) (offset rw) (stride rw) (length rw) (blackLevel rw) (WhiteBalance rw) v (crop rw) (cfaPattern rw) (cfaPatternDim rw).
Definition with_cfaPattern v rw := mk (width rw) (height rw) (bitDepth rw) (rawType rw) (offset rw) (stride rw) (length rw) (blackLevel rw) (WhiteBalance rw) (gammaCurve rw) (crop rw) v (cfaPatternDim rw).
Definition with_cfaPatternDim v rw := mk (width rw) (height rw) (bitDepth rw) (rawType rw) (offset rw) (stride rw) (length rw) (blackLevel rw) (WhiteBalance rw) (gammaCurve rw) (crop rw) (cfaPattern rw) v.
End RD.

(** ** The tone curve and the pixel corrector *)

(** What is left to the platform: the result of converting a
    floating-point value to [uint32] when the truncated value is not
    representable (negative, too large, infinite or not a number), which
    the Go specification calls implementation-dependent, and the byte
    order in which [readraw14] re-reads a byte buffer as 16-bit words. *)
Class Platform : Type := {
  unrepresentable : float -> Z;
  bigEndian : bool
}.

(** [float64(n)] for an integer below [2^63]; exact below [2^53]. *)
Definition float64_of_int (n : Z) : float :=
  if n <? 0 then (- PrimFloat.of_uint63 (Uint63.of_Z (- n)))%float
  else PrimFloat.of_uint63 (Uint63.of_Z n).

(** The integer part of a finite binary64 value, fraction discarded. *)
Definition truncate (f : float) : option Z :=
  match Prim2SF f with
  | S754_zero _ => Some 0
  | S754_finite s m e =>
      let a := if 0 <=? e then Z.pos m * 2 ^ e else Z.pos m / 2 ^ (- e) in
      Some (if s then - a else a)
  | S754_infinity _ | S754_nan => None
  end.

(** [uint32(f)] *)
Definition uint32_of_float64 `{Platform} (f : float) : Z :=
  match truncate f with
  | Some z => if (0 <=? z) && (z <? 2 ^ 32) then z else uint32 (unrepresentable f)
  | None => uint32 (unrepresentable f)
  end.

(** [xfactors] is a package-level array of six coefficients, written by
    [gammacorrect] and read by [gamma]; here the reader receives it. *)
Definition coefficients : Type := nat -> float.

Definition gamma (xfactors : coefficients) (x : float) : float :=
  if (0x3fff <? x)%float then 0x3fff%float
  else
    let x := (x / 0xCCC)%float in
    let x5 := (xfactors 5%nat * x * x * x * x * x)%float in
    let x4 := (xfactors 4%nat * x * x * x * x)%float in
    let x3 := (xfactors 3%nat * x * x * x)%float in
    let x2 := (xfactors 2%nat * x * x)%float in
    let x1 := (xfactors 1%nat * x)%float in
    let x0 := (xfactors 0%nat * 1)%float in
    (x5 + x4 + x3 + x2 + x1 + x0)%float.

(** The constant [1.596472423] as the nearest binary64 value. *)
Definition gammaspace : float := 0x1.98b26aadc0399p+0%float.

Definition process `{Platform} (xfactors : coefficients)
    (cur black : Z) (whiteBalance : float) : Z :=
  if cur <=? black then cur
  else
    let cur := uint32 (cur - black) in
    let balanced := (float64_of_int cur * whiteBalance)%float in
    uint32_of_float64 (gamma xfactors balanced * gammaspace)%float.

(** The same function in the words of section 4.3 of the specification. *)
Module Spec.

(** The term of power [k]: the coefficient times [k] factors [x], taken
    one at a time; the term of power 0 is the coefficient times 1. *)
Definition term (c x : float) (k : nat) : float :=
  match k with
  | O => (c * 1)%float
  | Datatypes.S _ => Nat.iter k (fun t => (t * x)%float) c
  end.

(** The polynomial of degree 5 as the sum of its six terms. *)
Definition polynomial (c : coefficients) (x : float) : float :=
  (term (c 5%nat) x 5 + term (c 4%nat) x 4 + term (c 3%nat) x 3
   + term (c 2%nat) x 2 + term (c 1%nat) x 1 + term (c 0%nat) x 0)%float.

(** Values above the ceiling give the ceiling itself; the others are
    divided by [0xCCC] and go through the polynomial. *)
Definition curve (c : coefficients) (v : float) : float :=
  if (0x3fff <? v)%float then 0x3fff%float
  else polynomial c (v / 0xCCC)%float.

Definition correct `{Platform} (sample blackLevel : Z) (wbRatio : float)
    (c : coefficients) : Z :=
  if sample <=? blackLevel then sample
  else uint32_of_float64
         (curve c (float64_of_int (sample - blackLevel) * wbRatio) * gammaspace)%float.

End Spec.

(** The platform of the reference build: little-endian amd64, whose
    compiler converts through a signed 64-bit integer and keeps the low 32
    bits; the hardware gives the 64-bit "indefinite" value, whose low half
    is zero, when the input does not fit. *)
Definition amd64 : Platform := {|
  unrepresentable f :=
    match truncate f with
    | Some z => if (- 2 ^ 63 <=? z) && (z <? 2 ^ 63) then z else 0
    | None => 0
    end;
  bigEndian := false
|}.

(** ** The curve fit

    [gammacorrect] builds the Vandermonde matrix of the abscissas 0..5 and
    hands it to the QR solver of the matrix library, which is not part of
    this repository: the solver is a parameter. *)

Class Solver : Type :=
  SolveQR : list (list float) -> list float -> list float.

(** One row of [vandermonde]: [p] starts at 1 and is multiplied by [a[i]]
    after each of the [degree+1] stores. *)
Fixpoint powers (n : nat) (p a : float) : list float :=
  match n with
  | O => []
  | Datatypes.S n' => p :: powers n' (p * a)%float a
  end.

Definition vandermonde (a : list float) (degree : Z) : list (list float) :=
  map (fun ai => powers (Z.to_nat (degree + 1)) 1%float ai) a.

(** The value [gammacorrect] leaves in [xfactors]. *)
Definition gammacorrect `{Solver} (curve : list Z) : coefficients :=
  let x := [0; 1; 2; 3; 4; 5]%float in
  let y := [0%float; float64_of_int (elem curve 0); float64_of_int (elem curve 1);
            float64_of_int (elem curve 2); float64_of_int (elem curve 3); 0x3fff%float] in
  let degree := 5 in
  let a := vandermonde x degree in
  let c := SolveQR a y in
  fun i => c !!! i.

(** Lines 219-236 of [readCRAW] and 327-344 of [readraw14], which are the
    same text: the four white-balance levels over the largest of them. *)
Definition whiteBalanceRGGB (rw : RD.rawDetails) : list float :=
  let wb := RD.WhiteBalance rw in
  let maxBalance := if elem wb 1 <? elem wb 0 then elem wb 0 else elem wb 1 in
  let maxBalance := if maxBalance <? elem wb 2 then elem wb 2 else maxBalance in
  let maxBalance := if maxBalance <? elem wb 3 then elem wb 3 else maxBalance in
  [ (float64_of_int (elem wb 0) / float64_of_int maxBalance)%float;
    (float64_of_int (elem wb 1) / float64_of_int maxBalance)%float;
    (float64_of_int (elem wb 2) / float64_of_int maxBalance)%float;
    (float64_of_int (elem wb 3) / float64_of_int maxBalance)%float ].

Definition ratio (wb : list float) (i : nat) : float := wb !!! i.

(** ** The compressed strategy *)

(** The block codec lives in another file of the package: the size of a
    block, the block type with its reader and decompressor, and the sample
    type [pixel] with the conversion into it are parameters. *)
Class Codec : Type := {
  pixelBlockSize : Z;
  crawBlock : Type;
  readCrawBlock : list Byte.byte -> crawBlock;
  Decompress : crawBlock -> list Z;
  pixel : Z -> Z
}.

Module CRAW.
Section WithCodec.
Context `{Platform} `{Codec}.
Variable xfactors : coefficients.
Variable rw : RD.rawDetails.
Variable whiteBalanceRGGB : list float.
Variable buf : list Byte.byte.

(** Lines 260-263. *)
Definition storeRG (base : Z) (red green : list Z) (i : Z) (pix : list pixel16)
    : res (Z * list pixel16) :=
  r ← index red i;
  pix ← modify pix (base + i * 2) (setR (uint16 r));
  g ← index green i;
  pix ← modify pix (base + i * 2 + 1) (setG (uint16 g));
  Val (i, pix).

(** Lines 282-285. *)
Definition storeGB (base : Z) (green blue : list Z) (i : Z) (pix : list pixel16)
    : res (Z * list pixel16) :=
  g ← index green i;
  pix ← modify pix (base + i * 2) (setG (uint16 g));
  b ← index blue i;
  pix ← modify pix (base + i * 2 + 1) (setB (uint16 b));
  Val (i, pix).

(** Lines 242-286: the body of the loop over [x]. *)
Definition writeBlock (stride y : Z) (x : Z) (pix : list pixel16)
    : res (Z * list pixel16) :=
  if Z.rem y 2 =? 0 then
    let base := y * stride + x in
    s ← slice buf base (base + pixelBlockSize);
    let red := Decompress (readCrawBlock s) in
    s ← slice buf (base + pixelBlockSize) (base + pixelBlockSize + pixelBlockSize);
    let green := Decompress (readCrawBlock s) in
    let red :=
      map (fun v => pixel (process xfactors (uint32 v)
                             (uint32 (elem (RD.blackLevel rw) 0))
                             (ratio whiteBalanceRGGB 0))) red in
    let green :=
      map (fun v => pixel (process xfactors (uint32 v)
                             (uint32 (elem (RD.blackLevel rw) 1))
                             (ratio whiteBalanceRGGB 1))) green in
    pix ← for_lt pixelBlockSize (storeRG base red green) 0 pix;
    Val (x, pix)
  else
    let base := y * stride + x in
    s ← slice buf base (base + pixelBlockSize);
    let green := Decompress (readCrawBlock s) in
    s ← slice buf (base + pixelBlockSize) (base + pixelBlockSize + pixelBlockSize);
    let blue := Decompress (readCrawBlock s) in
    let green :=
      map (fun v => pixel (process xfactors (uint32 v)
                             (uint32 (elem (RD.blackLevel rw) 0))
                             (ratio whiteBalanceRGGB 0))) green in
    let blue :=
      map (fun v => pixel (process xfactors (uint32 v)
                             (uint32 (elem (RD.blackLevel rw) 1))
                             (ratio whiteBalanceRGGB 1))) blue in
    pix ← for_lt pixelBlockSize (storeGB base green blue) 0 pix;
    Val (x, pix).

(** Lines 240-288. *)
Definition write (img : RGB14) : res RGB14 :=
  pix ← for_lt (MaxY (Rect img))
        (fun y pix =>
           pix ← for_by 32 (MaxX (Rect img)) (writeBlock (Stride img) y) 0 pix;
           Val (y, pix))
        0 (Pix img);
  Val (mkRGB14 pix (Stride img) (Rect img)).

End WithCodec.

(** Lines 290-296: the body of the first inner loop of the fill. *)
Definition fillUpper (stride y : Z) (x : Z) (pix : list pixel16)
    : res (Z * list pixel16) :=
  pix ← copyG pix (y * stride + x) (y * stride + x + 1);
  pix ← copyB pix (y * stride + x) ((y + 1) * stride + x + 1);
  let x := x + 1 in
  pix ← copyR pix (y * stride + x) (y * stride + x - 1);
  pix ← copyB pix (y * stride + x) ((y + 1) * stride + x);
  Val (x, pix).

(** Lines 299-305: the body of the second inner loop of the fill. *)
Definition fillLower (stride y : Z) (x : Z) (pix : list pixel16)
    : res (Z * list pixel16) :=
  pix ← copyR pix (y * stride + x) ((y - 1) * stride + x);
  pix ← copyB pix (y * stride + x) (y * stride + x + 1);
  let x := x + 1 in
  pix ← copyR pix (y * stride + x) ((y - 1) * stride + x - 1);
  pix ← copyG pix (y * stride + x) (y * stride + x - 1);
  Val (x, pix).

(** Lines 289-306. *)
Definition fill (img : RGB14) : res RGB14 :=
  pix ← for_lt (MaxY (Rect img))
        (fun y pix =>
           pix ← for_lt (MaxX (Rect img)) (fillUpper (Stride img) y) 0 pix;
           let y := y + 1 in
           pix ← for_lt (MaxX (Rect img)) (fillLower (Stride img) y) 0 pix;
           Val (y, pix))
        0 (Pix img);
  Val (mkRGB14 pix (Stride img) (Rect img)).

(** [readCRAW]. The coefficients it stores in [xfactors] are the ones
    its calls of [process] read. *)
Definition readCRAW `{Platform} `{Codec} `{Solver}
    (buf : list Byte.byte) (rw : RD.rawDetails) : res RGB14 :=
  img ← NewRGB14 (image_Rect 0 0 (RD.width rw) (RD.height rw));
  let gamma := [elem (RD.gammaCurve rw) 0; elem (RD.gammaCurve rw) 1;
                elem (RD.gammaCurve rw) 2; elem (RD.gammaCurve rw) 3] in
  let xfactors := gammacorrect gamma in
  img ← write xfactors rw (whiteBalanceRGGB rw) buf img;
  fill img.

End CRAW.

(** ** The linear strategy *)

Module Raw14.

(** Lines 312-315: the buffer read again as 16-bit words in the byte
    order of the machine, an odd last byte left out. *)
Fixpoint words `{Platform} (buf : list Byte.byte) : list Z :=
  match buf with
  | b0 :: b1 :: rest =>
      let lo := Z.of_N (Byte.to_N b0) in
      let hi := Z.of_N (Byte.to_N b1) in
      (if bigEndian then lo * 256 + hi else hi * 256 + lo) :: words rest
  | _ => []
  end.

Section WithData.
Context `{Platform}.
Variable xfactors : coefficients.
Variable rw : RD.rawDetails.
Variable whiteBalanceRGGB : list float.
Variable data : list Z.

(** Lines 350-357. *)
Definition writeUpper (stride y : Z) (x : Z) (pix : list pixel16)
    : res (Z * list pixel16) :=
  d ← index data (y * stride + x);
  let cur := uint32 d in
  let cur := process xfactors cur (uint32 (elem (RD.blackLevel rw) 0)) (ratio whiteBalanceRGGB 0) in
  pix ← modify pix (y * stride + x) (setR (uint16 cur));
  let x := x + 1 in
  d ← index data (y * stride + x);
  let cur := uint32 d in
  let cur := process xfactors cur (uint32 (elem (RD.blackLevel rw) 1)) (ratio whiteBalanceRGGB 1) in
  pix ← modify pix (y * stride + x) (setG (uint16 cur));
  Val (x, pix).

(** Lines 362-369. *)
Definition writeLower (stride y : Z) (x : Z) (pix : list pixel16)
    : res (Z * list pixel16) :=
  d ← index data (y * stride + x);
  let cur := uint32 d in
  let cur := process xfactors cur (uint32 (elem (RD.blackLevel rw) 2)) (ratio whiteBalanceRGGB 2) in
  pix ← modify pix (y * stride + x) (setG (uint16 cur));
  let x := x + 1 in
  d ← index data (y * stride + x);
  let cur := uint32 d in
  let cur := process xfactors cur (uint32 (elem (RD.blackLevel rw) 3)) (ratio whiteBalanceRGGB 3) in
  pix ← modify pix (y * stride + x) (setB (uint16 cur));
  Val (x, pix).

(** Lines 348-371. *)
Definition write (img : RGB14) : res RGB14 :=
  pix ← for_lt (MaxY (Rect img))
        (fun y pix =>
           pix ← for_lt (MaxX (Rect img)) (writeUpper (Stride img) y) 0 pix;
           let y := y + 1 in
           pix ← for_lt (MaxX (Rect img)) (writeLower (Stride img) y) 0 pix;
           Val (y, pix))
        0 (Pix img);
  Val (mkRGB14 pix (Stride img) (Rect img)).

End WithData.

(** Lines 374-380. *)
Definition fillUpper (stride y : Z) (x : Z) (pix : list pixel16)
    : res (Z * list pixel16) :=
  pix ← copyG pix (y * stride + x) (y * stride + x + 1);
  pix ← copyB pix (y * stride + x) ((y + 1) * stride + x + 1);
  let x := x + 1 in
  pix ← copyR pix (y * stride + x) (y * stride + x - 1);
  pix ← copyB pix (y * stride + x) ((y + 1) * stride + x);
  Val (x, pix).

(** Lines 383-389. *)
Definition fillLower (stride y : Z) (x : Z) (pix : list pixel16)
    : res (Z * list pixel16) :=
  pix ← copyR pix (y * stride + x) ((y - 1) * stride + x);
  pix ← copyB pix (y * stride + x) (y * stride + x + 1);
  let x := x + 1 in
  pix ← copyR pix (y * stride + x) ((y - 1) * stride + x - 1);
  pix ← copyG pix (y * stride + x) (y * stride + x - 1);
  Val (x, pix).

(** Lines 373-390. *)
Definition fill (img : RGB14) : res RGB14 :=
  pix ← for_lt (MaxY (Rect img))
        (fun y pix =>
           pix ← for_lt (MaxX (Rect img)) (fillUpper (Stride img) y) 0 pix;
           let y := y + 1 in
           pix ← for_lt (MaxX (Rect img)) (fillLower (Stride img) y) 0 pix;
           Val (y, pix))
        0 (Pix img);
  Val (mkRGB14 pix (Stride img) (Rect img)).

Definition readraw14 `{Platform} `{Solver}
    (buf : list Byte.byte) (rw : RD.rawDetails) : res RGB14 :=
  let data := words buf in
  img ← NewRGB14 (image_Rect 0 0 (RD.width rw) (RD.height rw));
  let gamma := [elem (RD.gammaCurve rw) 0; elem (RD.gammaCurve rw) 1;
                elem (RD.gammaCurve rw) 2; elem (RD.gammaCurve rw) 3] in
  let xfactors := gammacorrect gamma in
  img ← write xfactors rw (whiteBalanceRGGB rw) data img;
  fill img.

End Raw14.

(** ** Parameter extraction *)

(** Modelled from the spec: the tag records of the tag-tree reader
    (section 2, "Tag Record"), whose declarations are in another file of
    the package. Only what [extractDetails] reads is kept: the offset of
    the header, the tag and the inline value or offset of an entry, and
    the typed values of an entry, which are pointers and may be nil. *)
Record TIFFHeader : Type := mkHeader { header_Offset : Z }.
Record IFDentry : Type := mkEntry { Tag : Z; Offset : Z }.
Record IFDvalue : Type := mkValue { short : option (list Z); sshort : option (list Z) }.
Record TIFFmeta : Type := mkMeta { FIA : list IFDentry; FIAvals : list IFDvalue }.

(** The tag identifiers, constants of the package declared elsewhere. *)
Class TagIds : Type := {
  SubIFDs : Z;
  DNGPrivateData : Z;
  ImageWidth : Z;
  ImageHeight : Z;
  BitsPerSample : Z;
  SonyRawFileType : Z;
  StripOffsets : Z;
  RowsPerStrip : Z;
  StripByteCounts : Z;
  SonyCurve : Z;
  BlackLevel2 : Z;
  WB_RGGBLevels : Z;
  DefaultCropSize : Z;
  CFAPattern2 : Z;
  CFARepeatPatternDim : Z;
  SR2SubIFDOffset : Z;
  SR2SubIFDLength : Z;
  SR2SubIFDKey : Z
}.

(** The collaborators of [extractDetails]: the byte source with its
    state, the header and tag-tree readers and the decryption, each taking
    the state of the source and giving it back, the reader over a buffer,
    and the conversion to the raw-file kind. A Go function returns its
    value and its error side by side. *)
Class TagReader : Type := {
  error : Type;
  ReadSeeker : Type;
  ParseHeader : ReadSeeker -> (TIFFHeader * option error) * ReadSeeker;
  ExtractMetaData : ReadSeeker -> Z -> Z -> (TIFFmeta * option error) * ReadSeeker;
  DecryptSR2 : ReadSeeker -> Z -> Z -> list Byte.byte * ReadSeeker;
  bytes_NewReader : list Byte.byte -> ReadSeeker;
  sonyRawFile : Z -> Z
}.

(** How a call of [extractDetails] ends: it returns the record and an
    error that may be nil, or [log.Fatal] ends the process, or a run-time
    panic does. *)
Inductive outcome `{TagReader} : Type :=
  | Returns (rw : RD.rawDetails) (err : option error) (rs : ReadSeeker)
  | Exits (err : error)
  | Panics.

(** A step of the loop over the top-level tags: go on, or leave. *)
Inductive step `{TagReader} : Type :=
  | Continue (rw : RD.rawDetails) (rs : ReadSeeker)
  | Stop (o : outcome).

Section Extract.
Context `{TagIds} `{TagReader}.

(** [*m.FIAvals[i].short] *)
Definition shorts (m : TIFFmeta) (i : Z) : res (list Z) :=
  v ← index (FIAvals m) i;
  match short v with Some l => Val l | None => Panic end.

(** [*m.FIAvals[i].sshort] *)
Definition sshorts (m : TIFFmeta) (i : Z) : res (list Z) :=
  v ← index (FIAvals m) i;
  match sshort v with Some l => Val l | None => Panic end.

(** Lines 47-81: the switch on the tag of entry [i] of the sensor
    sub-tree. The cases are tried in the order of the source. *)
Definition sensorTag (rawIFD : TIFFmeta) (i : Z) (v : IFDentry) (rw : RD.rawDetails)
    : res RD.rawDetails :=
  if Tag v =? ImageWidth then Val (RD.with_width (uint16 (Offset v)) rw)
  else if Tag v =? ImageHeight then Val (RD.with_height (uint16 (Offset v)) rw)
  else if Tag v =? BitsPerSample then Val (RD.with_bitDepth (uint16 (Offset v)) rw)
  else if Tag v =? SonyRawFileType then Val (RD.with_rawType (sonyRawFile (Offset v)) rw)
  else if Tag v =? StripOffsets then Val (RD.with_offset (Offset v) rw)
  else if Tag v =? RowsPerStrip then Val (RD.with_stride (Offset v) rw)
  else if Tag v =? StripByteCounts then Val (RD.with_length (Offset v) rw)
  else if Tag v =? SonyCurve then
    curve ← shorts rawIFD i;
    let g := copy (take 4 (RD.gammaCurve rw)) curve ++ drop 4 (RD.gammaCurve rw) in
    Val (RD.with_gammaCurve (<[4%nat := 0x3fff]> g) rw)
  else if Tag v =? BlackLevel2 then
    black ← shorts rawIFD i;
    Val (RD.with_blackLevel (copy (RD.blackLevel rw) black) rw)
  else if Tag v =? WB_RGGBLevels then
    balance ← sshorts rawIFD i;
    Val (RD.with_WhiteBalance (copy (RD.WhiteBalance rw) balance) rw)
  else if Tag v =? DefaultCropSize then Val rw
  else if Tag v =? CFAPattern2 then
    let p := RD.cfaPattern rw in
    let p := <[0%nat := uint8 (Z.shiftr (Z.land (Offset v) 0x000000ff) 0)]> p in
    let p := <[1%nat := uint8 (Z.shiftr (Z.land (Offset v) 0x0000ff00) 8)]> p in
    let p := <[2%nat := uint8 (Z.shiftr (Z.land (Offset v) 0x00ff0000) 16)]> p in
    let p := <[3%nat := uint8 (Z.shiftr (Z.land (Offset v) 0xff000000) 24)]> p in
    Val (RD.with_cfaPattern p rw)
  else if Tag v =? CFARepeatPatternDim then
    let d := RD.cfaPatternDim rw in
    let d := <[0%nat := uint16 (Z.shiftr (uint32 (Offset v * 0x0000ffff)) 0)]> d in
    let d := <[1%nat := uint16 (Z.shiftr (uint32 (Offset v * 0xffff0000)) 16)]> d in
    Val (RD.with_cfaPatternDim d rw)
  else Val rw.

(** Lines 46-82: [for i, v := range rawIFD.FIA]. *)
Fixpoint sensorTags (rawIFD : TIFFmeta) (i : Z) (l : list IFDentry) (rw : RD.rawDetails)
    : res RD.rawDetails :=
  match l with
  | [] => Val rw
  | v :: l' => rw ← sensorTag rawIFD i v rw; sensorTags rawIFD (i + 1) l' rw
  end.

(** Lines 40-83: the sub-IFD pointer. *)
Definition subIFD (fia : IFDentry) (rw : RD.rawDetails) (rs : ReadSeeker) : step :=
  let '((rawIFD, err), rs) := ExtractMetaData rs (Offset fia) 0 in
  match err with
  | Some e => Stop (Returns rw (Some e) rs)
  | None =>
      match sensorTags rawIFD 0 (FIA rawIFD) rw with
      | Val rw => Continue rw rs
      | _ => Stop Panics
      end
  end.

(** Lines 91-110: offset, length and key of the encrypted block. The
    three tests of an entry are made one after the other. *)
Definition sr2Entry (e : IFDentry) (acc : Z * Z * list Z) : Z * Z * list Z :=
  let '(sr2offset, sr2length, sr2key) := acc in
  let sr2offset := if Tag e =? SR2SubIFDOffset then Offset e else sr2offset in
  let sr2length := if Tag e =? SR2SubIFDLength then Offset e else sr2length in
  let sr2key :=
    if Tag e =? SR2SubIFDKey then
      let key := uint32 (Offset e * 0x0edd + 1) in
      let k := <[3%nat := uint8 (Z.land (Z.shiftr key 24) 0xff)]> sr2key in
      let k := <[2%nat := uint8 (Z.land (Z.shiftr key 16) 0xff)]> k in
      let k := <[1%nat := uint8 (Z.land (Z.shiftr key 8) 0xff)]> k in
      <[0%nat := uint8 (Z.land key 0xff)]> k
    else sr2key in
  (sr2offset, sr2length, sr2key).

Definition sr2Params (dng : TIFFmeta) : Z * Z * list Z :=
  fold_left (fun acc e => sr2Entry e acc) (FIA dng) (0, 0, [0; 0; 0; 0]).

(** Lines 121-128: the switch on the tag of entry [i] of the decrypted
    tree. *)
Definition sr2Tag (sr2 : TIFFmeta) (i : Z) (v : IFDentry) (rw : RD.rawDetails)
    : res RD.rawDetails :=
  if Tag v =? BlackLevel2 then
    black ← shorts sr2 i;
    Val (RD.with_blackLevel (copy (RD.blackLevel rw) black) rw)
  else if Tag v =? WB_RGGBLevels then
    balance ← sshorts sr2 i;
    Val (RD.with_WhiteBalance (copy (RD.WhiteBalance rw) balance) rw)
  else Val rw.

(** Lines 120-129. *)
Fixpoint sr2Tags (sr2 : TIFFmeta) (i : Z) (l : list IFDentry) (rw : RD.rawDetails)
    : res RD.rawDetails :=
  match l with
  | [] => Val rw
  | v :: l' => rw ← sr2Tag sr2 i v rw; sr2Tags sr2 (i + 1) l' rw
  end.

(** Lines 85-130: the private data. The key is computed and not handed
    to [DecryptSR2]; the reader [br] over the decrypted buffer is a
    second byte source, dropped at the end of the block. *)
Definition privateData (fia : IFDentry) (rw : RD.rawDetails) (rs : ReadSeeker) : step :=
  let '((dng, err), rs) := ExtractMetaData rs (Offset fia) 0 in
  match err with
  | Some e => Stop (Returns rw (Some e) rs)
  | None =>
      let '(sr2offset, sr2length, sr2key) := sr2Params dng in
      let '(buf, rs) := DecryptSR2 rs sr2offset sr2length in
      let br := bytes_NewReader buf in
      let '((sr2, err), br) := ExtractMetaData br 0 0 in
      match err with
      | Some e => Stop (Exits e)
      | None =>
          match sr2Tags sr2 0 (FIA sr2) rw with
          | Val rw => Continue rw rs
          | _ => Stop Panics
          end
      end
  end.

(** Lines 39-131: the body of the loop over the top-level tags; the two
    tests are made one after the other. *)
Definition visit (fia : IFDentry) (rw : RD.rawDetails) (rs : ReadSeeker) : step :=
  match (if Tag fia =? SubIFDs then subIFD fia rw rs else Continue rw rs) with
  | Stop o => Stop o
  | Continue rw rs =>
      if Tag fia =? DNGPrivateData then privateData fia rw rs else Continue rw rs
  end.

(** [for _, fia := range meta.FIA], then [return rw, nil]. *)
Fixpoint walk (l : list IFDentry) (rw : RD.rawDetails) (rs : ReadSeeker) : outcome :=
  match l with
  | [] => Returns rw None rs
  | fia :: l' =>
      match visit fia rw rs with
      | Continue rw rs => walk l' rw rs
      | Stop o => o
      end
  end.

(** Lines 30-134. The second [:=] assigns to the [err] the first one
    declared. *)
Definition extractDetails (rs : ReadSeeker) : outcome :=
  let rw := RD.zero in
  let '((header, err), rs) := ParseHeader rs in
  let '((meta, err), rs) := ExtractMetaData rs (header_Offset header) 0 in
  match err with
  | Some e => Returns rw (Some e) rs
  | None => walk (FIA meta) rw rs
  end.

End Extract.

(** ** A tag table and a byte source for the examples *)

(** The identifiers as the TIFF, DNG and Sony tag tables give them. *)
Definition tiff_tags : TagIds := {|
  SubIFDs := 0x014a;
  DNGPrivateData := 0xc634;
  ImageWidth := 0x0100;
  ImageHeight := 0x0101;
  BitsPerSample := 0x0102;
  SonyRawFileType := 0x7000;
  StripOffsets := 0x0111;
  RowsPerStrip := 0x0116;
  StripByteCounts := 0x0117;
  SonyCurve := 0x7010;
  BlackLevel2 := 0x7310;
  WB_RGGBLevels := 0x7313;
  DefaultCropSize := 0xc620;
  CFAPattern2 := 0x828e;
  CFARepeatPatternDim := 0x828d;
  SR2SubIFDOffset := 0x7200;
  SR2SubIFDLength := 0x7201;
  SR2SubIFDKey := 0x7221
|}.

(** A byte source for the examples: a table from offsets to tag lists, an
    offset outside the table being a read error; the position of the
    source is the last offset read. The header is at offset 8 unless the
    source is marked as having a bad header. The decrypted buffer of a
    source is a fixed list of bytes, and a reader over a buffer parses an
    empty buffer as an empty tag list and fails on any other. *)
Inductive table_source : Type :=
  | File (bad_header : bool) (ifds : list (Z * TIFFmeta)) (sr2 : list Byte.byte) (pos : Z)
  | Buffer (bytes : list Byte.byte).

Fixpoint table_lookup (ifds : list (Z * TIFFmeta)) (off : Z) : option TIFFmeta :=
  match ifds with
  | [] => None
  | (o, m) :: rest => if o =? off then Some m else table_lookup rest off
  end.

Definition table_reader : TagReader := {|
  error := Z;
  ReadSeeker := table_source;
  ParseHeader rs :=
    match rs with
    | File bad ifds sr2 _ =>
        ((mkHeader 8, if bad then Some 1 else None), File bad ifds sr2 8)
    | Buffer _ => ((mkHeader 0, Some 1), rs)
    end;
  ExtractMetaData rs off whence :=
    match rs with
    | File bad ifds sr2 _ =>
        match table_lookup ifds off with
        | Some m => ((m, None), File bad ifds sr2 off)
        | None => ((mkMeta [] [], Some 2), File bad ifds sr2 off)
        end
    | Buffer [] => ((mkMeta [] [], None), rs)
    | Buffer _ => ((mkMeta [] [], Some 3), rs)
    end;
  DecryptSR2 rs off len :=
    match rs with
    | File bad ifds sr2 _ => (sr2, File bad ifds sr2 (off + len))
    | Buffer b => (b, rs)
    end;
  bytes_NewReader b := Buffer b;
  sonyRawFile z := uint16 z
|}.

(** ** Vocabulary of the statements *)

#[global] Instance pixel16_inhabited : Inhabited pixel16 := populate zero_pixel.

(** The cell at a flat index, for statements about cells in range. *)
Definition cell (pix : list pixel16) (i : Z) : pixel16 := pix !!! Z.to_nat i.

(** The cell at column [x] of row [y] of an array of stride [w]. *)
Definition pixel_at (pix : list pixel16) (w x y : Z) : pixel16 := cell pix (y * w + x).

(** One channel copied from cell [s] to cell [d]: [copyR], [copyG] and
    [copyB] are its three instances. *)
Definition copy_with (set_ : Z -> pixel16 -> pixel16) (get : pixel16 -> Z)
    (pix : list pixel16) (d s : Z) : res (list pixel16) :=
  p ← index pix s; modify pix d (set_ (get p)).

(** The body of the loop over the rows, as both fills have it. *)
Definition fill_row_pair (w : Z) (y : Z) (pix : list pixel16) : res (Z * list pixel16) :=
  pix ← for_lt w (CRAW.fillUpper w y) 0 pix;
  let y := y + 1 in
  pix ← for_lt w (CRAW.fillLower w y) 0 pix;
  Val (y, pix).

(** The cell at column [x] of row [y] once filled: red from the
    upper-left cell of its tile, green from the green cell of its own row
    of the tile, blue from the lower-right cell of the tile. *)
Definition filled (pix0 : list pixel16) (w x y : Z) : pixel16 :=
  let xe := x - x mod 2 in
  let ye := y - y mod 2 in
  mkPixel16
    (R (cell pix0 (ye * w + xe)))
    (G (cell pix0 (if y mod 2 =? 0 then ye * w + xe + 1 else (ye + 1) * w + xe)))
    (B (cell pix0 ((ye + 1) * w + xe + 1)))
    (pad (cell pix0 (y * w + x))).

(** The state of the array when the cells before flat index [k] are done. *)
Definition fill_inv (pix0 : list pixel16) (w h k : Z) (pix : list pixel16) : Prop :=
  length pix = length pix0
  /\ forall x y, 0 <= x < w -> 0 <= y < h ->
       cell pix (y * w + x)
       = if y * w + x <? k then filled pix0 w x y else cell pix0 (y * w + x).

(** The store loops of [readCRAW], for any two channels: channel [a] of
    cell [base + 2i] from the first group, channel [b] of the next cell
    from the second. [CRAW.storeRG] and [CRAW.storeGB] are its instances. *)
Definition store_with (set_a set_b : Z -> pixel16 -> pixel16)
    (base : Z) (first second : list Z) (i : Z) (pix : list pixel16)
    : res (Z * list pixel16) :=
  a ← index first i;
  pix ← modify pix (base + i * 2) (set_a (uint16 a));
  b ← index second i;
  pix ← modify pix (base + i * 2 + 1) (set_b (uint16 b));
  Val (i, pix).

(** The state of the array when the store loop has done the samples
    before [i]. *)
Definition stored (get_a get_b : pixel16 -> Z) (base : Z) (first second : list Z)
    (pix0 : list pixel16) (i : Z) (pix : list pixel16) : Prop :=
  length pix = length pix0
  /\ forall j, 0 <= j < i ->
       get_a (cell pix (base + j * 2)) = uint16 (first !!! Z.to_nat j)
       /\ get_b (cell pix (base + j * 2 + 1)) = uint16 (second !!! Z.to_nat j).

(** The corrected sample as [readCRAW] stores it. *)
Definition craw_sample `{Platform} `{Codec} (xfactors : coefficients)
    (rw : RD.rawDetails) (wb : list float) (channel : nat) (v : Z) : Z :=
  uint16 (pixel (process xfactors (uint32 v)
                   (uint32 (elem (RD.blackLevel rw) channel)) (ratio wb channel))).

(** The corrected sample as [readraw14] stores it. *)
Definition raw14_sample `{Platform} (xfactors : coefficients)
    (rw : RD.rawDetails) (wb : list float) (channel : nat) (v : Z) : Z :=
  uint16 (process xfactors (uint32 v)
            (uint32 (elem (RD.blackLevel rw) channel)) (ratio wb channel)).

(** The block of [n] bytes of [buf] from offset [lo]. *)
Definition block (buf : list Byte.byte) (lo n : Z) : list Byte.byte :=
  take (Z.to_nat n) (drop (Z.to_nat lo) buf).

(** The magnitude that [truncate] computes for mantissa [m] and exponent
    [e]. *)
Definition magnitude (m : positive) (e : Z) : Z :=
  if 0 <=? e then Z.pos m * 2 ^ e else Z.pos m / 2 ^ (- e).

(** The white-balanced sample and the scaled value of the curve that
    [process] converts to an integer. *)
Definition balanced (black : Z) (wb : float) (sample : Z) : float :=
  (float64_of_int (sample - black) * wb)%float.

Definition scaled_curve (xfactors : coefficients) (black : Z) (wb : float)
    (sample : Z) : float :=
  (gamma xfactors (balanced black wb sample) * gammaspace)%float.

(** The values whose integer part fits [uint32]. *)
Definition representable (f : float) : bool :=
  match truncate f with
  | Some z => (0 <=? z) && (z <? 2 ^ 32)
  | None => false
  end.

(** The fields of the record that only the sensor sub-tree writes. *)
Definition sensor_part (rw : RD.rawDetails) :=
  (RD.width rw, RD.height rw, RD.bitDepth rw, RD.rawType rw, RD.offset rw,
   RD.stride rw, RD.length rw, RD.gammaCurve rw, RD.crop rw,
   RD.cfaPattern rw, RD.cfaPatternDim rw).


(** ** Inputs of the examples *)

(** A file whose top-level tags are a width and a height and no sub-IFD
    pointer. *)
Definition file_without_subIFD : table_source :=
  File false
    [(8, mkMeta [mkEntry 0x0100 6000; mkEntry 0x0101 4000]
                [mkValue None None; mkValue None None])]
    [] 0.

(** A file whose private data decrypts to four bytes that are no tag
    list. *)
Definition file_with_bad_sr2 : table_source :=
  File false
    [(8, mkMeta [mkEntry 0x0100 6000; mkEntry 0xc634 100]
                [mkValue None None; mkValue None None]);
     (100, mkMeta [mkEntry 0x7200 200; mkEntry 0x7201 4; mkEntry 0x7221 7]
                  [mkValue None None; mkValue None None; mkValue None None])]
    [Byte.x01; Byte.x02; Byte.x03; Byte.x04] 0.

(** A file with a bad header and an empty top-level tag list. *)
Definition file_with_bad_header : table_source :=
  File true [(8, mkMeta [] [])] [] 0.

(** A file whose sensor sub-tree gives a 2 by 2 repeat pattern. *)
Definition file_with_cfa_dim : table_source :=
  File false
    [(8, mkMeta [mkEntry 0x014a 64] [mkValue None None]);
     (64, mkMeta [mkEntry 0x828e 0x02010100; mkEntry 0x828d 0x00020002]
                 [mkValue None None; mkValue None None])]
    [] 0.

(** A curve that rises: 0x1000 x. *)
Definition sample_coefficients : coefficients :=
  fun i => match i with
           | 0%nat => 0%float
           | 1%nat => 0x1000%float
           | _ => 0%float
           end.

(** A curve that falls: 1000 - 100 x. *)
Definition falling_coefficients : coefficients :=
  fun i => match i with
           | 0%nat => 1000%float
           | 1%nat => (-100)%float
           | _ => 0%float
           end.

(** The polynomial through (0, 0), (1, 12000), (2, 4000), (3, 4000),
    (4, 4000) and (5, 0x3fff), the system that [gammacorrect] sets up for
    the curve 12000, 4000, 4000, 4000: its coefficients 0, 774149/15,
    -767915/12, 722681/24, -74383/12 and 56383/120, each as the nearest
    binary64 value. *)
Definition fitted_coefficients : coefficients :=
  fun i => match i with
           | 0%nat => 0%float
           | 1%nat => 0x1.9333ddddddddep+15%float
           | 2%nat => (-0x1.f3f1d55555555p+15)%float
           | 3%nat => 0x1.d67ed55555555p+14%float
           | 4%nat => (-0x1.8369555555555p+12)%float
           | 5%nat => 0x1.d5dbbbbbbbbbcp+8%float
           | _ => 0%float
           end.

(** A codec with blocks of 16 bytes, one sample a byte. *)
Definition byte_codec : Codec := {|
  pixelBlockSize := 16;
  crawBlock := list Byte.byte;
  readCrawBlock b := b;
  Decompress b := map (fun x => Z.of_N (Byte.to_N x)) b;
  pixel := uint16
|}.

(** Two rows of 32 bytes: zeros, then sixteen 0x40 and sixteen 0x80. *)
Definition ramp_bytes : list Byte.byte :=
  replicate 32%nat Byte.x00
  ++ replicate 16%nat Byte.x40 ++ replicate 16%nat Byte.x80.

(** Four different black levels. *)
Definition levels_0_1 : RD.rawDetails :=
  RD.with_blackLevel [0x10; 0x20; 0x30; 0x38] RD.zero.

(** One tile after the channel-write pass: R, G / G, B. *)
Definition raster_2x2 : list pixel16 :=
  [mkPixel16 11 0 0 0; mkPixel16 0 22 0 0; mkPixel16 0 33 0 0; mkPixel16 0 0 44 0].


(** ** Vocabulary of the further properties *)

(** The largest of the four white-balance levels. *)
Definition largest_level (wb : list Z) : Z :=
  Z.max (Z.max (Z.max (elem wb 0) (elem wb 1)) (elem wb 2)) (elem wb 3).

(** Whether [m] is zero or, as a binary64 value divided by itself, gives
    exactly one. *)
Definition self_ratio_is_one (m : Z) : bool :=
  (m =? 0) || PrimFloat.Leibniz.eqb (float64_of_int m / float64_of_int m)%float 1%float.

(** [self_ratio_is_one] on the [n] integers from [m] up. *)
Fixpoint ratios_one_from (n : nat) (m : Z) : bool :=
  match n with
  | O => true
  | S n' => self_ratio_is_one m && ratios_one_from n' (m + 1)
  end.

(** The case constants of the switch over the tags of the sensor
    sub-tree, in the order of the source. A Go switch refuses a constant
    given twice, so they differ from one another. *)
Definition sensor_cases `{TagIds} : list Z :=
  [ImageWidth; ImageHeight; BitsPerSample; SonyRawFileType; StripOffsets;
   RowsPerStrip; StripByteCounts; SonyCurve; BlackLevel2; WB_RGGBLevels;
   DefaultCropSize; CFAPattern2; CFARepeatPatternDim].

(** The value of the last entry of a tag list that carries tag [t]. *)
Fixpoint last_tagged (t : Z) (l : list IFDentry) : option Z :=
  match l with
  | [] => None
  | e :: l' =>
      match last_tagged t l' with
      | Some o => Some o
      | None => if Tag e =? t then Some (Offset e) else None
      end
  end.

(** The four bytes of a 32-bit value, the lowest first. *)
Definition le_bytes (k : Z) : list Z :=
  [k mod 256; k / 256 mod 256; k / 65536 mod 256; k / 16777216 mod 256].

(** Entry [n] of a tag list has a tag whose case reads a typed value
    that the list does not hold. *)
Definition lacks_value `{TagIds} (m : TIFFmeta) (n : nat) (v : IFDentry) : Prop :=
  ((Tag v = SonyCurve \/ Tag v = BlackLevel2)
   /\ (FIAvals m !! n ≫= short) = None)
  \/ (Tag v = WB_RGGBLevels /\ (FIAvals m !! n ≫= sshort) = None).

(** The sizes of the arrays of the record and the ranges of the fields
    that the extraction converts to a narrower type. *)
Definition well_shaped (rw : RD.rawDetails) : Prop :=
  length (RD.blackLevel rw) = 4%nat
  /\ length (RD.WhiteBalance rw) = 4%nat
  /\ length (RD.gammaCurve rw) = 5%nat
  /\ length (RD.cfaPattern rw) = 4%nat
  /\ length (RD.cfaPatternDim rw) = 2%nat
  /\ 0 <= RD.width rw < 2 ^ 16
  /\ 0 <= RD.height rw < 2 ^ 16
  /\ 0 <= RD.bitDepth rw < 2 ^ 16
  /\ Forall (fun b => 0 <= b < 2 ^ 8) (RD.cfaPattern rw)
  /\ Forall (fun d => 0 <= d < 2 ^ 16) (RD.cfaPatternDim rw).

(** A camera file with a sensor sub-tree whose width does not fit 16
    bits, given twice, and whose curve has two points. *)
Definition file_with_wide_sensor : table_source :=
  File false
    [(8, mkMeta [mkEntry 0x014a 100] [mkValue None None]);
     (100, mkMeta [mkEntry 0x0100 6000; mkEntry 0x0101 4000;
                   mkEntry 0x0100 70000; mkEntry 0x7010 0;
                   mkEntry 0x828e 0x02010100]
                  [mkValue None None; mkValue None None; mkValue None None;
                   mkValue (Some [0x1f4; 0x3e8]) None; mkValue None None])]
    [] 0.

(** A camera file whose black-level entry has no typed value. *)
Definition file_with_nil_value : table_source :=
  File false
    [(8, mkMeta [mkEntry 0x014a 100] [mkValue None None]);
     (100, mkMeta [mkEntry 0x0100 6000; mkEntry 0x7310 0]
                  [mkValue None None; mkValue None None])]
    [] 0.

(** The state of the array when a pass that leaves [written x y] in the
    cell at column [x] of row [y] has done the cells before flat index
    [k]. *)
Definition pass_inv (written : Z -> Z -> pixel16) (pix0 : list pixel16)
    (w h k : Z) (pix : list pixel16) : Prop :=
  length pix = length pix0
  /\ forall x y, 0 <= x < w -> 0 <= y < h ->
       cell pix (y * w + x)
       = if y * w + x <? k then written x y else cell pix0 (y * w + x).

(** The cell at column [x] of row [y] once the write pass of
    [readraw14] is over it: one channel holds the corrected word at the
    place of the cell, red and green on the even rows, green and blue on
    the odd ones. *)
Definition raw14_written `{Platform} (xfactors : coefficients)
    (rw : RD.rawDetails) (wb : list float) (data : list Z)
    (pix0 : list pixel16) (w x y : Z) : pixel16 :=
  let p := cell pix0 (y * w + x) in
  let d := data !!! Z.to_nat (y * w + x) in
  if y mod 2 =? 0 then
    if x mod 2 =? 0 then setR (raw14_sample xfactors rw wb 0 d) p
    else setG (raw14_sample xfactors rw wb 1 d) p
  else
    if x mod 2 =? 0 then setG (raw14_sample xfactors rw wb 2 d) p
    else setB (raw14_sample xfactors rw wb 3 d) p.

(** The pixel at column [x] of row [y] of the image of [readraw14]: the
    corrected words of the 2x2 tile of the cell. *)
Definition raw14_pixel `{Platform} (xfactors : coefficients)
    (rw : RD.rawDetails) (wb : list float) (data : list Z) (w x y : Z) : pixel16 :=
  let xe := x - x mod 2 in
  let ye := y - y mod 2 in
  mkPixel16
    (raw14_sample xfactors rw wb 0 (data !!! Z.to_nat (ye * w + xe)))
    (if y mod 2 =? 0
     then raw14_sample xfactors rw wb 1 (data !!! Z.to_nat (ye * w + xe + 1))
     else raw14_sample xfactors rw wb 2 (data !!! Z.to_nat ((ye + 1) * w + xe)))
    (raw14_sample xfactors rw wb 3 (data !!! Z.to_nat ((ye + 1) * w + xe + 1)))
    0.

(** The four points of the curve that the decoders hand to
    [gammacorrect]. *)
Definition curve_points (rw : RD.rawDetails) : list Z :=
  [elem (RD.gammaCurve rw) 0; elem (RD.gammaCurve rw) 1;
   elem (RD.gammaCurve rw) 2; elem (RD.gammaCurve rw) 3].

(** The samples of the group of the cell at column [x] of row [y]: of
    the 32 cells that start at a multiple of 32, the even columns are the
    samples of the block of bytes at the flat index of the first cell,
    the odd columns those of the block after it. *)
Definition craw_group `{Codec} (buf : list Byte.byte) (w x y : Z) : list Z :=
  let base := y * w + (x - x mod 32) in
  Decompress
    (readCrawBlock
       (block buf (if x mod 2 =? 0 then base else base + pixelBlockSize)
          pixelBlockSize)).

(** The corrected sample of the cell at column [x] of row [y]: black
    level and ratio 0 on the even columns, 1 on the odd ones. *)
Definition craw_value `{Platform} `{Codec} (xfactors : coefficients)
    (rw : RD.rawDetails) (wb : list float) (buf : list Byte.byte)
    (w x y : Z) : Z :=
  craw_sample xfactors rw wb (if x mod 2 =? 0 then 0%nat else 1%nat)
    (craw_group buf w x y !!! Z.to_nat (x mod 32 / 2)).

(** The cell at column [x] of row [y] once the write pass of [readCRAW]
    is over it. *)
Definition craw_written `{Platform} `{Codec} (xfactors : coefficients)
    (rw : RD.rawDetails) (wb : list float) (buf : list Byte.byte)
    (pix0 : list pixel16) (w x y : Z) : pixel16 :=
  let p := cell pix0 (y * w + x) in
  let v := craw_value xfactors rw wb buf w x y in
  if y mod 2 =? 0 then
    if x mod 2 =? 0 then setR v p else setG v p
  else
    if x mod 2 =? 0 then setG v p else setB v p.

(** The pixel at column [x] of row [y] of the image of [readCRAW]. *)
Definition craw_pixel `{Platform} `{Codec} (xfactors : coefficients)
    (rw : RD.rawDetails) (wb : list float) (buf : list Byte.byte)
    (w x y : Z) : pixel16 :=
  let xe := x - x mod 2 in
  let ye := y - y mod 2 in
  mkPixel16
    (craw_value xfactors rw wb buf w xe ye)
    (if y mod 2 =? 0
     then craw_value xfactors rw wb buf w (xe + 1) ye
     else craw_value xfactors rw wb buf w xe (ye + 1))
    (craw_value xfactors rw wb buf w (xe + 1) (ye + 1))
    0.

(** A solver that stands for the one of the matrix library in the
    examples: it gives the coefficients of the line 0x1000 x whatever the
    system is. *)
Definition line_solver : Solver :=
  fun _ _ => [0; 0x1000; 0; 0; 0; 0]%float.

(** The record that the extraction gives for [file_with_wide_sensor]. *)
Definition wide_sensor_record : RD.rawDetails :=
  RD.mk 4464 4000 0 0 0 0 0 [0; 0; 0; 0] [0; 0; 0; 0] [0x1f4; 0x3e8; 0; 0; 0x3fff]
    (mkRect 0 0 0 0) [0; 1; 1; 2] [0; 0].

(** A record of one 2x2 tile with equal white-balance levels, and one
    of 32 by 2 cells. *)
Definition tile_record : RD.rawDetails :=
  RD.with_width 2 (RD.with_height 2 (RD.with_WhiteBalance [1; 1; 1; 1] RD.zero)).

Definition strip_record : RD.rawDetails :=
  RD.with_width 32 (RD.with_height 2 (RD.with_WhiteBalance [1; 1; 1; 1] RD.zero)).

(** A record of 16 by 2 cells: half a group of 32 in a row. *)
Definition half_strip_record : RD.rawDetails :=
  RD.with_width 16 (RD.with_height 2 (RD.with_WhiteBalance [1; 1; 1; 1] RD.zero)).

(** The four words 0x10, 0x20, 0x30 and 0x40 of a tile, the low byte
    first, and the first three of them. *)
Definition tile_bytes : list Byte.byte :=
  [Byte.x10; Byte.x00; Byte.x20; Byte.x00; Byte.x30; Byte.x00; Byte.x40; Byte.x00].

Definition short_tile_bytes : list Byte.byte :=
  [Byte.x10; Byte.x00; Byte.x20; Byte.x00; Byte.x30; Byte.x00].

(** The 6x6 matrix of the powers 0 to 5 of the abscissas 0 to 5. *)
Definition powers_0_to_5 : list (list float) :=
  [[1; 0; 0; 0; 0; 0]; [1; 1; 1; 1; 1; 1]; [1; 2; 4; 8; 16; 32];
   [1; 3; 9; 27; 81; 243]; [1; 4; 16; 64; 256; 1024];
   [1; 5; 25; 125; 625; 3125]]%float.

(** ** Vocabulary of the rounding of binary64 products *)

(** [a / 2^n] rounded to the nearest integer, ties to even. *)
Definition rne (a n : Z) : Z :=
  let q := a / 2 ^ n in
  match 2 * (a mod 2 ^ n) ?= 2 ^ n with
  | Lt => q
  | Eq => if Z.even q then q else q + 1
  | Gt => q + 1
  end.

(** The binary64 value of mantissa [M], at most [2^53], and exponent
    [c]: zero, a finite value, or infinity past the largest exponent. *)
Definition rounded (M c : Z) : spec_float :=
  if M =? 0 then S754_zero false
  else if M =? 2 ^ 53 then
    if c + 1 <=? 971 then S754_finite false (Z.to_pos (2 ^ 52)) (c + 1)
    else S754_infinity false
  else if c <=? 971 then S754_finite false (Z.to_pos M) c
  else S754_infinity false.

(** The state of a mantissa [m] after [j] one-bit shifts to the right:
    the quotient, and the two bits that place the remainder below, at or
    above the half. *)
Definition shifted (m j : Z) (mrs : shr_record) : Prop :=
  0 <= shr_m mrs
  /\ shr_m mrs = m / 2 ^ j
  /\ shr_r mrs = (2 ^ j <=? 2 * (m mod 2 ^ j))
  /\ shr_s mrs = negb (m mod 2 ^ j =? 0) && negb (2 * (m mod 2 ^ j) =? 2 ^ j).

(** The exponent of the binary64 values of a binade. *)
Definition fexp64 (k : Z) : Z := Z.max (k - 53) (-1074).

(** The output of the corrector as a function of the white-balanced
    value: the curve, scaled and converted to [uint32]. For a sample
    above the black level [process] is [corrected] of the sample less
    the black level times the ratio. *)
Definition corrected `{Platform} (xfactors : coefficients) (x : float) : Z :=
  uint32_of_float64 (gamma xfactors x * gammaspace)%float.

(** The coefficients whose corrected value never falls as the
    white-balanced value grows from zero, the step to the ceiling value
    above 0x3FFF included. *)
Definition monotone_curve `{Platform} (xfactors : coefficients) : Prop :=
  forall x1 x2 : float,
    (0 <=? x1)%float = true -> (x1 <=? x2)%float = true ->
    corrected xfactors x1 <= corrected xfactors x2.

(** The values that are a zero or not a number. *)
Definition null (f : float) : bool :=
  match Prim2SF f with
  | S754_zero _ | S754_nan => true
  | _ => false
  end.

(** The curve that is zero below the ceiling. *)
Definition zero_coefficients : coefficients := fun _ => 0%float.

(** The line through (0, 0) and (5, 0x3fff), the last point of every
    system that [gammacorrect] sets up. *)
Definition ceiling_line_coefficients : coefficients :=
  fun i => match i with
           | 1%nat => (0x3fff / 5)%float
           | _ => 0%float
           end.

(** ** Vocabulary of the range of [int] *)

(** The values that the [int] of every platform holds: it has 32 bits at
    the least. A sum or product that stays in this range is computed by
    the code as it is written here, without wrapping. *)
Definition fits_int (z : Z) : Prop := - 2 ^ 31 <= z < 2 ^ 31.

(** The lengths for which [make([]pixel16, n)] stays within the limit of
    an allocation on every platform: eight bytes a cell, less than 2^31
    bytes in all. *)
Definition allocatable (n : Z) : Prop := 0 <= n < 2 ^ 28.

(** * Properties *)

(** ** Machine integers *)

Lemma uint16_range (z : Z) : 0 <= uint16 z < 2 ^ 16.
Proof. unfold uint16. apply Z.mod_pos_bound. lia. Qed.

Lemma uint32_range (z : Z) : 0 <= uint32 z < 2 ^ 32.
Proof. unfold uint32. apply Z.mod_pos_bound. lia. Qed.

Lemma uint32_small (z : Z) : 0 <= z < 2 ^ 32 -> uint32 z = z.
Proof. intros Hz. unfold uint32. apply Z.mod_small. exact Hz. Qed.

Lemma uint32_uint16 (z : Z) : uint32 (uint16 z) = uint16 z.
Proof. apply uint32_small. pose proof (uint16_range z). lia. Qed.

Lemma shiftl2_uint16 (z : Z) : uint16 (Z.shiftl z 2) = (4 * z) mod 2 ^ 16.
Proof. unfold uint16. rewrite Z.shiftl_mul_pow2 by lia. f_equal. lia. Qed.

(** ** The raster sink *)

Lemma index_inv {A : Type} (l : list A) (i : Z) (a : A) :
  index l i = Val a -> 0 <= i < Z.of_nat (length l) /\ l !! Z.to_nat i = Some a.
Proof.
  unfold index. destruct (Z.ltb_spec i 0) as [Hneg | Hpos]; [discriminate |].
  destruct (l !! Z.to_nat i) as [a' |] eqn:Hl; [| discriminate].
  intros [= ->]. split; [| reflexivity].
  apply lookup_lt_Some in Hl. lia.
Qed.

Lemma index_in_range {A : Type} (l : list A) (i : Z) :
  0 <= i < Z.of_nat (length l) -> exists a, index l i = Val a /\ l !! Z.to_nat i = Some a.
Proof.
  intros Hi. unfold index.
  destruct (Z.ltb_spec i 0) as [Hneg | _]; [lia |].
  destruct (lookup_lt_is_Some_2 l (Z.to_nat i)) as [a Ha]; [lia |].
  exists a. rewrite Ha. split; reflexivity.
Qed.

Lemma index_out_of_range {A : Type} (l : list A) (i : Z) :
  i < 0 \/ Z.of_nat (length l) <= i -> index l i = Panic.
Proof.
  intros Hi. unfold index.
  destruct (Z.ltb_spec i 0) as [_ | Hpos]; [reflexivity |].
  rewrite (lookup_ge_None_2 l (Z.to_nat i)) by lia. reflexivity.
Qed.

(** C7. The colour conversion gives each of R, G and B shifted left by two
    bits within 16 bits (so four times the channel, modulo 2^16, which is
    below 2^16), and the alpha 0xffff; reading a pixel either panics on an
    index outside the raster or returns the cell together with the raster
    it was given, unchanged. *)
Theorem RGBA_shifts_and_pixel_read_pure (c : pixel16) (r : RGB14) (x y : Z) :
  RGBA c = ((4 * R c) mod 2 ^ 16, (4 * G c) mod 2 ^ 16, (4 * B c) mod 2 ^ 16, 0xffff)
  /\ (let '(r', g', b', a') := RGBA c in
      0 <= r' < 2 ^ 16 /\ 0 <= g' < 2 ^ 16 /\ 0 <= b' < 2 ^ 16 /\ a' = 65535)
  /\ (at_ r x y = Panic
      \/ exists p, at_ r x y = Val (p, r)
                   /\ Pix r !! Z.to_nat (y * Stride r + x) = Some p).
Proof.
  assert (HE : RGBA c = ((4 * R c) mod 2 ^ 16, (4 * G c) mod 2 ^ 16,
                         (4 * B c) mod 2 ^ 16, 0xffff)).
  { unfold RGBA. rewrite !uint32_uint16, !shiftl2_uint16. reflexivity. }
  split; [exact HE |]. split.
  - rewrite HE.
    repeat split; try apply Z.mod_pos_bound; lia.
  - unfold at_.
    destruct (index (Pix r) (y * Stride r + x)) as [p | |] eqn:Hidx.
    + right. exists p. split; [reflexivity |].
      apply index_inv in Hidx. tauto.
    + left. reflexivity.
    + exfalso. unfold index in Hidx.
      repeat case_match; discriminate.
Qed.

(** ** The pixel corrector *)

Lemma gamma_is_curve (xfactors : coefficients) (x : float) :
  gamma xfactors x = Spec.curve xfactors x.
Proof.
  unfold gamma, Spec.curve, Spec.polynomial, Spec.term.
  destruct (0x3fff <? x)%float; reflexivity.
Qed.

(** C3. At or below the black level the sample is returned as it is;
    above it, the result is the conversion to an unsigned integer of
    1.596472423 times the curve at (sample - blackLevel) * wbRatio, the
    curve being the ceiling 0x3FFF above 0x3FFF and otherwise the
    polynomial of degree 5, as a sum of weighted powers, at the value
    divided by 0xCCC. *)
Theorem process_refines_correct `{Platform} (xfactors : coefficients)
    (sample blackLevel : Z) (wbRatio : float) :
  0 <= sample < 2 ^ 32 ->
  0 <= blackLevel < 2 ^ 32 ->
  process xfactors sample blackLevel wbRatio
  = Spec.correct sample blackLevel wbRatio xfactors
  /\ (sample <= blackLevel -> process xfactors sample blackLevel wbRatio = sample)
  /\ (blackLevel < sample ->
      (0x3fff <? float64_of_int (sample - blackLevel) * wbRatio)%float = true ->
      process xfactors sample blackLevel wbRatio
      = uint32_of_float64 (0x3fff * gammaspace)%float
      /\ uint32_of_float64 (0x3fff * gammaspace)%float = 26155).
Proof.
  intros Hs Hb. unfold process, Spec.correct.
  destruct (Z.leb_spec sample blackLevel) as [Hle | Hgt].
  - split; [reflexivity |]. split; [intros _; reflexivity | lia].
  - rewrite uint32_small by lia. split; [| split; [lia |]].
    + rewrite gamma_is_curve. reflexivity.
    + intros _ Hsat. unfold gamma. rewrite Hsat. split; reflexivity.
Qed.

Lemma process_refines_correct_witness :
  @process amd64 sample_coefficients 0x1000 0x200 1%float
  = @Spec.correct amd64 0x1000 0x200 1%float sample_coefficients
  /\ (0x1000 <= 0x200 -> @process amd64 sample_coefficients 0x1000 0x200 1%float = 0x1000).
Proof.
  destruct (@process_refines_correct amd64 sample_coefficients 0x1000 0x200 1%float)
    as (Heq & Hlow & _); [lia | lia |].
  split; [exact Heq | exact Hlow].
Defined.

(** ** Truncation of binary64 values is monotone *)

Lemma digits2_pos_bounds (m : positive) :
  2 ^ (Z.pos (digits2_pos m) - 1) <= Z.pos m < 2 ^ Z.pos (digits2_pos m).
Proof.
  induction m as [p IH | p IH |]; simpl digits2_pos.
  - rewrite Pos2Z.inj_succ.
    replace (Z.succ (Z.pos (digits2_pos p)) - 1)
      with (Z.succ (Z.pos (digits2_pos p) - 1)) by lia.
    rewrite !Z.pow_succ_r by lia. lia.
  - rewrite Pos2Z.inj_succ.
    replace (Z.succ (Z.pos (digits2_pos p)) - 1)
      with (Z.succ (Z.pos (digits2_pos p) - 1)) by lia.
    rewrite !Z.pow_succ_r by lia. lia.
  - simpl. lia.
Qed.

(** A finite binary64 value has a mantissa below 2^53, an exponent from
    -1074 up, and a mantissa of at least 2^52 above the least exponent. *)
Lemma valid_finite (s : bool) (m : positive) (e : Z) :
  valid_binary (S754_finite s m e) = true ->
  Z.pos m < 2 ^ 53 /\ -1074 <= e /\ (-1074 < e -> 2 ^ 52 <= Z.pos m).
Proof.
  unfold SpecFloat.valid_binary, bounded, canonical_mantissa, fexp, SpecFloat.emin.
  change prec with 53. change emax with 1024.
  intros Hv. apply andb_prop in Hv as [Hc _]. apply Z.eqb_eq in Hc.
  pose proof (digits2_pos_bounds m) as [Hlo Hhi].
  assert (Hd : Z.pos (digits2_pos m) <= 53) by lia.
  split; [| split].
  - apply Z.lt_le_trans with (2 ^ Z.pos (digits2_pos m)); [exact Hhi |].
    apply Z.pow_le_mono_r; lia.
  - lia.
  - intros He. assert (Z.pos (digits2_pos m) = 53) as Hd53 by lia.
    rewrite Hd53 in Hlo. exact Hlo.
Qed.

Lemma magnitude_scaled_by (k : Z) (m : positive) (e : Z) :
  0 <= k -> 0 <= e + k -> magnitude m e = (Z.pos m * 2 ^ (e + k)) / 2 ^ k.
Proof.
  intros Hk He. unfold magnitude.
  destruct (Z.leb_spec 0 e) as [Hpos | Hneg].
  - rewrite Z.pow_add_r by lia. rewrite Z.mul_assoc.
    rewrite Z.div_mul; [reflexivity |]. apply Z.pow_nonzero; lia.
  - assert (Hpow : 2 ^ k = 2 ^ (e + k) * 2 ^ (- e)).
    { rewrite <- Z.pow_add_r by lia. f_equal. lia. }
    rewrite Hpow. rewrite (Z.mul_comm (Z.pos m)).
    rewrite Z.div_mul_cancel_l; [reflexivity | |]; apply Z.pow_nonzero; lia.
Qed.

Lemma magnitude_scaled (m : positive) (e : Z) :
  -1074 <= e -> magnitude m e = (Z.pos m * 2 ^ (e + 1074)) / 2 ^ 1074.
Proof. intros He. apply magnitude_scaled_by; lia. Qed.

Lemma magnitude_nonneg (m : positive) (e : Z) : 0 <= magnitude m e.
Proof.
  unfold magnitude. destruct (Z.leb_spec 0 e).
  - apply Z.mul_nonneg_nonneg; [lia |]. apply Z.pow_nonneg. lia.
  - apply Z.div_pos; [lia |]. apply Z.pow_pos_nonneg; lia.
Qed.

Lemma scaled_le_exponent (m1 m2 : positive) (e1 e2 : Z) :
  Z.pos m1 < 2 ^ 53 -> 2 ^ 52 <= Z.pos m2 -> -1074 <= e1 -> e1 < e2 ->
  Z.pos m1 * 2 ^ (e1 + 1074) <= Z.pos m2 * 2 ^ (e2 + 1074).
Proof.
  intros Hm1 Hm2 He1 He.
  assert (Hp1 : 0 < 2 ^ (e1 + 1074)) by (apply Z.pow_pos_nonneg; lia).
  assert (Hp : 2 * 2 ^ (e1 + 1074) <= 2 ^ (e2 + 1074)).
  { rewrite <- Z.pow_succ_r by lia. apply Z.pow_le_mono_r; lia. }
  apply Z.le_trans with (2 ^ 52 * (2 * 2 ^ (e1 + 1074))).
  - change (2 ^ 53) with (2 ^ 52 * 2) in Hm1. nia.
  - apply Z.mul_le_mono_nonneg; lia.
Qed.

Lemma magnitude_le (m1 m2 : positive) (e1 e2 : Z) :
  valid_binary (S754_finite false m1 e1) = true ->
  valid_binary (S754_finite false m2 e2) = true ->
  match Z.compare e1 e2 with
  | Lt => True
  | Eq => Pos.compare_cont Eq m1 m2 <> Gt
  | Gt => False
  end ->
  magnitude m1 e1 <= magnitude m2 e2.
Proof.
  intros V1 V2 Hcmp.
  apply valid_finite in V1 as (Hm1 & He1 & _).
  apply valid_finite in V2 as (_ & He2 & Hm2).
  rewrite !magnitude_scaled by assumption.
  apply Z.div_le_mono; [apply Z.pow_pos_nonneg; lia |].
  revert Hcmp. destruct (Z.compare_spec e1 e2) as [-> | Hlt | Hgt]; intros Hcmp.
  - apply Z.mul_le_mono_nonneg_r; [apply Z.pow_nonneg; lia |].
    change (Pos.compare_cont Eq m1 m2) with (Pos.compare m1 m2) in Hcmp.
    change (m1 <= m2)%positive in Hcmp. lia.
  - apply scaled_le_exponent; try assumption. apply Hm2. lia.
  - contradiction.
Qed.

Lemma truncate_magnitude (f : float) :
  truncate f
  = match Prim2SF f with
    | S754_zero _ => Some 0
    | S754_finite s m e => Some (if s then - magnitude m e else magnitude m e)
    | S754_infinity _ | S754_nan => None
    end.
Proof. reflexivity. Qed.

Lemma truncate_monotone (f1 f2 : float) (z1 z2 : Z) :
  (f1 <=? f2)%float = true ->
  truncate f1 = Some z1 -> truncate f2 = Some z2 -> z1 <= z2.
Proof.
  rewrite leb_spec, !truncate_magnitude. unfold SFleb, SFcompare.
  pose proof (Prim2SF_valid f1) as V1. pose proof (Prim2SF_valid f2) as V2.
  destruct (Prim2SF f1) as [s1 | s1 | | s1 m1 e1];
    destruct (Prim2SF f2) as [s2 | s2 | | s2 m2 e2];
    intros Hle E1 E2; try discriminate;
    injection E1 as <-; injection E2 as <-.
  - lia.
  - destruct s2; [discriminate |]. apply magnitude_nonneg.
  - destruct s1; [| discriminate]. pose proof (magnitude_nonneg m1 e1). lia.
  - destruct s1, s2.
    + assert (magnitude m2 e2 <= magnitude m1 e1); [| lia].
      apply magnitude_le; try assumption.
      destruct (Z.compare_spec e2 e1) as [-> | Hlt | Hgt].
      * rewrite Z.compare_refl in Hle.
        change (Pos.compare_cont Eq m2 m1) with (Pos.compare m2 m1).
        change (Pos.compare_cont Eq m1 m2) with (Pos.compare m1 m2) in Hle.
        rewrite (Pos.compare_antisym m2 m1) in Hle.
        destruct (Pos.compare m2 m1); simpl in Hle; congruence.
      * exact I.
      * apply Z.compare_lt_iff in Hgt. rewrite Hgt in Hle. discriminate.
    + pose proof (magnitude_nonneg m1 e1). pose proof (magnitude_nonneg m2 e2). lia.
    + discriminate.
    + apply magnitude_le; try assumption.
      destruct (Z.compare e1 e2); try exact I; try discriminate.
      destruct (Pos.compare_cont Eq m1 m2); congruence.
Qed.
(** ** Rounding of binary64 products *)


Lemma fexp64_spec (k : Z) : SpecFloat.fexp prec emax k = fexp64 k.
Proof. reflexivity. Qed.

Lemma iter_pos_invariant {A : Type} (f : A -> A) (P : Z -> A -> Prop) :
  (forall j x, 0 <= j -> P j x -> P (j + 1) (f x)) ->
  forall p j x, 0 <= j -> P j x -> P (j + Z.pos p) (@SpecFloat.iter_pos A f p x).
Proof.
  intros Hstep. induction p as [p IH | p IH |]; intros j x Hj Hx; simpl.
  - replace (j + Z.pos p~1) with (j + 1 + Z.pos p + Z.pos p) by lia.
    apply IH; [lia |]. apply IH; [lia |]. apply Hstep; assumption.
  - replace (j + Z.pos p~0) with (j + Z.pos p + Z.pos p) by lia.
    apply IH; [lia |]. apply IH; assumption.
  - apply Hstep; assumption.
Qed.

Lemma shr_1_spec (m : Z) (r s : bool) :
  0 <= m ->
  shr_1 {| shr_m := m; shr_r := r; shr_s := s |}
  = {| shr_m := Z.div2 m; shr_r := Z.odd m; shr_s := r || s |}.
Proof.
  intros Hm. destruct m as [| p | p]; [reflexivity | | lia].
  destruct p; reflexivity.
Qed.

Lemma shifted_start (m : Z) :
  0 <= m -> shifted m 0 {| shr_m := m; shr_r := false; shr_s := false |}.
Proof.
  intros Hm. unfold shifted. simpl.
  rewrite Z.div_1_r, Z.mod_1_r. repeat split; lia.
Qed.

Lemma shifted_step (m j : Z) (mrs : shr_record) :
  0 <= m -> 0 <= j -> shifted m j mrs -> shifted m (j + 1) (shr_1 mrs).
Proof.
  intros Hm Hj. destruct mrs as [q r s]. unfold shifted.
  cbn [shr_m shr_r shr_s].
  intros (Hq & Eq & Er & Es). rewrite shr_1_spec by exact Hq.
  cbn [shr_m shr_r shr_s].
  assert (Hp : 0 < 2 ^ j) by (apply Z.pow_pos_nonneg; lia).
  assert (Hpow : 2 ^ (j + 1) = 2 ^ j * 2) by (rewrite Z.pow_add_r by lia; reflexivity).
  assert (Hrem : m mod 2 ^ (j + 1) = m mod 2 ^ j + 2 ^ j * (q mod 2)).
  { rewrite Hpow, Z.rem_mul_r by lia. rewrite Eq. reflexivity. }
  pose proof (Z.mod_pos_bound m (2 ^ j) Hp) as Hr.
  pose proof (Zmod_odd q) as Hodd.
  rewrite Z.div2_div.
  split; [apply Z.div_pos; lia |].
  split; [rewrite Eq, Z.div_div by lia; rewrite Hpow; reflexivity |].
  rewrite Hrem, Hpow, Er, Es.
  set (rem := m mod 2 ^ j) in *. set (h := 2 ^ j) in *.
  destruct (Z.odd q); rewrite Hodd; split;
    repeat match goal with
           | |- context [?a <=? ?b] => destruct (Z.leb_spec a b)
           | |- context [?a =? ?b] => destruct (Z.eqb_spec a b)
           end; simpl; try reflexivity; try lia.
Qed.

Lemma shifted_by (m : Z) (p : positive) :
  0 <= m ->
  shifted m (Z.pos p)
    (@SpecFloat.iter_pos shr_record shr_1 p {| shr_m := m; shr_r := false; shr_s := false |}).
Proof.
  intros Hm.
  apply (iter_pos_invariant shr_1 (shifted m)
           (fun j x Hj Hx => shifted_step m j x Hm Hj Hx) p 0);
    [lia | apply shifted_start; exact Hm].
Qed.

Lemma shifted_rounds (m n : Z) (mrs : shr_record) :
  0 <= n -> shifted m n mrs ->
  round_nearest_even (shr_m mrs) (loc_of_shr_record mrs) = rne m n.
Proof.
  intros Hn. destruct mrs as [q r s]. unfold shifted. simpl.
  intros (Hq & Eq & Er & Es). unfold rne. cbv zeta. rewrite <- Eq.
  assert (Hp : 0 < 2 ^ n) by (apply Z.pow_pos_nonneg; lia).
  pose proof (Z.mod_pos_bound m (2 ^ n) Hp) as Hr.
  set (rem := m mod 2 ^ n) in *. set (h := 2 ^ n) in *.
  subst r s.
  destruct (Z.compare_spec (2 * rem) h) as [E | L | G];
    destruct (Z.leb_spec h (2 * rem)); try lia;
    destruct (Z.eqb_spec rem 0); try lia;
    destruct (Z.eqb_spec (2 * rem) h); try lia; reflexivity.
Qed.

(** The shift that [shr_fexp] makes of a mantissa that starts exact. *)
Lemma shr_fexp_exact (m e : Z) :
  0 <= m ->
  let n := fexp64 (Zdigits2 m + e) - e in
  0 <= n ->
  exists mrs,
    shr_fexp prec emax m e loc_Exact = (mrs, e + n) /\ shifted m n mrs.
Proof.
  intros Hm n Hn. unfold shr_fexp. rewrite fexp64_spec. fold n.
  unfold shr_record_of_loc, shr.
  destruct n as [| p | p] eqn:En.
  - eexists. split; [rewrite Z.add_0_r; reflexivity |].
    apply shifted_start. exact Hm.
  - eexists. split; [reflexivity |]. apply shifted_by. exact Hm.
  - lia.
Qed.

Lemma shr_fexp_still (m e : Z) :
  fexp64 (Zdigits2 m + e) - e <= 0 ->
  shr_fexp prec emax m e loc_Exact
  = ({| shr_m := m; shr_r := false; shr_s := false |}, e).
Proof.
  intros Hn. unfold shr_fexp. rewrite fexp64_spec.
  unfold shr_record_of_loc, shr.
  destruct (fexp64 (Zdigits2 m + e) - e) as [| p | p]; [reflexivity | lia | reflexivity].
Qed.

Lemma rne_bounds (a n : Z) :
  0 <= a -> 0 <= n -> a / 2 ^ n <= rne a n <= a / 2 ^ n + 1.
Proof.
  intros Ha Hn. unfold rne. cbv zeta.
  destruct (2 * (a mod 2 ^ n) ?= 2 ^ n); [destruct (Z.even _) | |]; lia.
Qed.

Lemma rne_monotone (a b n : Z) :
  0 <= a -> a <= b -> 0 <= n -> rne a n <= rne b n.
Proof.
  intros Ha Hab Hn.
  assert (Hp : 0 < 2 ^ n) by (apply Z.pow_pos_nonneg; lia).
  pose proof (Z.div_le_mono a b (2 ^ n) Hp Hab) as Hq.
  destruct (Z.eq_dec (a / 2 ^ n) (b / 2 ^ n)) as [E | NE].
  - pose proof (Z.div_mod a (2 ^ n) ltac:(lia)) as Da.
    pose proof (Z.div_mod b (2 ^ n) ltac:(lia)) as Db.
    assert (Hr : a mod 2 ^ n <= b mod 2 ^ n) by (rewrite E in Da; lia).
    unfold rne. cbv zeta. rewrite E.
    destruct (Z.compare_spec (2 * (a mod 2 ^ n)) (2 ^ n));
      destruct (Z.compare_spec (2 * (b mod 2 ^ n)) (2 ^ n));
      try lia; destruct (Z.even (b / 2 ^ n)); lia.
  - pose proof (rne_bounds a n Ha Hn). pose proof (rne_bounds b n ltac:(lia) Hn).
    lia.
Qed.

Lemma rne_scale (a n j : Z) :
  0 <= n -> 0 <= j -> rne (a * 2 ^ j) (n + j) = rne a n.
Proof.
  intros Hn Hj.
  assert (Hpn : 0 < 2 ^ n) by (apply Z.pow_pos_nonneg; lia).
  assert (Hpj : 0 < 2 ^ j) by (apply Z.pow_pos_nonneg; lia).
  unfold rne. cbv zeta. rewrite Z.pow_add_r by lia.
  rewrite Z.div_mul_cancel_r, Z.mul_mod_distr_r by lia.
  replace (2 * (a mod 2 ^ n * 2 ^ j)) with (2 * (a mod 2 ^ n) * 2 ^ j) by lia.
  assert (Hcmp : (2 * (a mod 2 ^ n) * 2 ^ j ?= 2 ^ n * 2 ^ j)
                 = (2 * (a mod 2 ^ n) ?= 2 ^ n)).
  { destruct (Z.compare_spec (2 * (a mod 2 ^ n)) (2 ^ n)) as [E | L | G].
    - rewrite E. apply Z.compare_refl.
    - apply Z.compare_lt_iff. nia.
    - apply Z.compare_gt_iff. nia. }
  rewrite Hcmp. reflexivity.
Qed.

Lemma digits_unique (m : positive) (d : Z) :
  2 ^ (d - 1) <= Z.pos m < 2 ^ d -> Z.pos (digits2_pos m) = d.
Proof.
  intros [Hlo Hhi]. pose proof (digits2_pos_bounds m) as [Dlo Dhi].
  destruct (Z.lt_trichotomy (Z.pos (digits2_pos m)) d) as [L | [E | G]];
    [| exact E |].
  - assert (2 ^ Z.pos (digits2_pos m) <= 2 ^ (d - 1))
      by (apply Z.pow_le_mono_r; lia).
    lia.
  - assert (d < 1 \/ 1 <= d) as [Hd | Hd] by lia.
    + rewrite (Z.pow_neg_r 2 (d - 1)) in Hlo by lia.
      assert (2 ^ d <= 2 ^ 0) by (apply Z.pow_le_mono_r; lia).
      change (2 ^ 0) with 1 in *. lia.
    + assert (2 ^ d <= 2 ^ (Z.pos (digits2_pos m) - 1))
        by (apply Z.pow_le_mono_r; lia).
      lia.
Qed.

Lemma digits_below_53 (M : Z) :
  0 < M < 2 ^ 53 -> Zdigits2 M <= 53.
Proof.
  intros HM. destruct M as [| p | p]; try lia. simpl.
  pose proof (digits2_pos_bounds p) as [Dlo _].
  destruct (Z.le_gt_cases (Z.pos (digits2_pos p)) 53) as [H | H]; [exact H |].
  assert (2 ^ 53 <= 2 ^ (Z.pos (digits2_pos p) - 1))
    by (apply Z.pow_le_mono_r; lia).
  lia.
Qed.

Lemma shr_fexp_top (c : Z) :
  -1074 <= c ->
  shr_fexp prec emax (2 ^ 53) c loc_Exact
  = ({| shr_m := 2 ^ 52; shr_r := false; shr_s := false |}, c + 1).
Proof.
  intros Hc. unfold shr_fexp. change (Zdigits2 (2 ^ 53)) with 54.
  change (SpecFloat.fexp prec emax (54 + c)) with (fexp64 (54 + c)).
  replace (fexp64 (54 + c) - c) with 1 by (unfold fexp64; lia).
  reflexivity.
Qed.

(** What [binary_round_aux] makes of an exact positive mantissa that is
    at or below the exponent of its binade. *)
Lemma binary_round_aux_spec (m : positive) (e : Z) :
  let n := fexp64 (Z.pos (digits2_pos m) + e) - e in
  0 <= n ->
  binary_round_aux prec emax false (Z.pos m) e loc_Exact
  = rounded (rne (Z.pos m) n) (e + n).
Proof.
  intros n Hn. unfold binary_round_aux.
  destruct (shr_fexp_exact (Z.pos m) e ltac:(lia) Hn) as (mrs & -> & Hmrs).
  rewrite (shifted_rounds (Z.pos m) n mrs Hn Hmrs).
  pose (c := e + n).
  change (e + (fexp64 (Zdigits2 (Z.pos m) + e) - e)) with c.
  set (M := rne (Z.pos m) n).
  assert (Hc : -1074 <= c) by (subst c n; unfold fexp64; lia).
  pose proof (rne_bounds (Z.pos m) n ltac:(lia) Hn) as HM. fold M in HM.
  assert (Hq : Z.pos m / 2 ^ n < 2 ^ 53).
  { apply Z.div_lt_upper_bound; [apply Z.pow_pos_nonneg; lia |].
    rewrite <- Z.pow_add_r by lia.
    pose proof (digits2_pos_bounds m) as [_ Dhi].
    apply Z.lt_le_trans with (2 ^ Z.pos (digits2_pos m)); [exact Dhi |].
    apply Z.pow_le_mono_r; [lia |]. subst n. unfold fexp64. lia. }
  assert (H0 : 0 <= Z.pos m / 2 ^ n)
    by (apply Z.div_pos; [lia | apply Z.pow_pos_nonneg; lia]).
  unfold rounded.
  destruct (Z.eqb_spec M 0) as [E0 | N0].
  - rewrite E0. rewrite shr_fexp_still by (simpl; unfold fexp64; lia).
    reflexivity.
  - destruct (Z.eqb_spec M (2 ^ 53)) as [E53 | N53].
    + rewrite E53, (shr_fexp_top c Hc). reflexivity.
    + rewrite shr_fexp_still.
      * cbn [shr_m]. destruct M as [| p | p]; [lia | | lia].
        reflexivity.
      * pose proof (digits_below_53 M ltac:(lia)). unfold fexp64. lia.
Qed.

Lemma to_pos_compare (a b : Z) :
  0 < a -> 0 < b -> a <= b ->
  Pos.compare_cont Eq (Z.to_pos a) (Z.to_pos b) <> Gt.
Proof.
  intros Ha Hb Hab. change (Pos.compare_cont Eq ?p ?q) with (Pos.compare p q).
  rewrite <- Z2Pos.inj_compare by lia.
  apply Z.compare_le_iff. exact Hab.
Qed.

Lemma leb_of_compare (x y : spec_float) (c : comparison) :
  SFcompare x y = Some c -> c <> Gt -> SFleb x y = true.
Proof. unfold SFleb. intros ->. destruct c; congruence. Qed.

Ltac compare_rounded :=
  unfold SFleb, SFcompare;
  repeat match goal with
         | |- context [Z.compare ?a ?b] =>
             destruct (Z.compare_spec a b); try lia
         end;
  try reflexivity;
  match goal with
  | |- context [Pos.compare_cont Eq (Z.to_pos ?a) (Z.to_pos ?b)] =>
      let Hcmp := fresh "Hcmp" in
      pose proof (to_pos_compare a b ltac:(lia) ltac:(lia) ltac:(lia)) as Hcmp;
      destruct (Pos.compare_cont Eq (Z.to_pos a) (Z.to_pos b)); congruence
  end.

Lemma rounded_le_same (M1 M2 c : Z) :
  0 <= M1 -> M1 <= M2 -> M2 <= 2 ^ 53 ->
  SFleb (rounded M1 c) (rounded M2 c) = true.
Proof.
  intros H1 H12 H2. unfold rounded.
  destruct (Z.eqb_spec M1 0), (Z.eqb_spec M2 0); try lia;
    destruct (Z.eqb_spec M1 (2 ^ 53)), (Z.eqb_spec M2 (2 ^ 53)); try lia;
    destruct (Z.leb_spec (c + 1) 971), (Z.leb_spec c 971); try lia;
    try reflexivity; compare_rounded.
Qed.

Lemma rounded_le_next (M1 M2 c1 c2 : Z) :
  c1 < c2 -> 0 <= M1 -> M1 <= 2 ^ 53 -> 2 ^ 52 <= M2 -> M2 <= 2 ^ 53 ->
  SFleb (rounded M1 c1) (rounded M2 c2) = true.
Proof.
  intros Hc H1 H1' H2 H2'. unfold rounded.
  destruct (Z.eqb_spec M1 0), (Z.eqb_spec M2 0); try lia;
    destruct (Z.eqb_spec M1 (2 ^ 53)), (Z.eqb_spec M2 (2 ^ 53)); try lia;
    destruct (Z.leb_spec (c1 + 1) 971), (Z.leb_spec c1 971),
             (Z.leb_spec (c2 + 1) 971), (Z.leb_spec c2 971); try lia;
    try reflexivity; compare_rounded.
Qed.

Lemma rounded_nonneg (M c : Z) :
  SFleb (S754_zero false) (rounded M c) = true.
Proof.
  unfold rounded.
  destruct (M =? 0), (M =? 2 ^ 53), (c + 1 <=? 971), (c <=? 971); reflexivity.
Qed.

(** The binade of a value: a larger value is in the same or a later one. *)
Lemma binade_monotone (m1 m2 : positive) (e1 e2 : Z) :
  Z.pos m1 * 2 ^ (e1 - Z.min e1 e2) <= Z.pos m2 * 2 ^ (e2 - Z.min e1 e2) ->
  Z.pos (digits2_pos m1) + e1 <= Z.pos (digits2_pos m2) + e2.
Proof.
  intros Hle.
  pose proof (digits2_pos_bounds m1) as [L1 _].
  pose proof (digits2_pos_bounds m2) as [_ U2].
  set (d1 := Z.pos (digits2_pos m1)) in *.
  set (d2 := Z.pos (digits2_pos m2)) in *.
  set (e0 := Z.min e1 e2) in *.
  assert (Hd1 : 1 <= d1) by (subst d1; lia).
  assert (Hd2 : 1 <= d2) by (subst d2; lia).
  destruct (Z.le_gt_cases (d1 + e1) (d2 + e2)) as [H | H]; [exact H | exfalso].
  assert (Hp1 : 0 < 2 ^ (e1 - e0)) by (apply Z.pow_pos_nonneg; lia).
  assert (Hp2 : 0 < 2 ^ (e2 - e0)) by (apply Z.pow_pos_nonneg; lia).
  assert (Hlow : 2 ^ (d1 - 1 + (e1 - e0)) <= Z.pos m1 * 2 ^ (e1 - e0)).
  { rewrite Z.pow_add_r by lia. nia. }
  assert (Hup : Z.pos m2 * 2 ^ (e2 - e0) < 2 ^ (d2 + (e2 - e0))).
  { rewrite Z.pow_add_r by lia. nia. }
  assert (Hmono : 2 ^ (d2 + (e2 - e0)) <= 2 ^ (d1 - 1 + (e1 - e0)))
    by (apply Z.pow_le_mono_r; lia).
  lia.
Qed.

(** Rounding to binary64 keeps the order of two exact positive values. *)
Lemma binary_round_aux_monotone (m1 m2 : positive) (e1 e2 : Z) :
  0 <= fexp64 (Z.pos (digits2_pos m1) + e1) - e1 ->
  0 <= fexp64 (Z.pos (digits2_pos m2) + e2) - e2 ->
  Z.pos m1 * 2 ^ (e1 - Z.min e1 e2) <= Z.pos m2 * 2 ^ (e2 - Z.min e1 e2) ->
  SFleb (binary_round_aux prec emax false (Z.pos m1) e1 loc_Exact)
        (binary_round_aux prec emax false (Z.pos m2) e2 loc_Exact) = true.
Proof.
  intros Hn1 Hn2 Hle.
  rewrite (binary_round_aux_spec m1 e1 Hn1), (binary_round_aux_spec m2 e2 Hn2).
  pose proof (binade_monotone m1 m2 e1 e2 Hle) as Hk.
  set (d1 := Z.pos (digits2_pos m1)) in *.
  set (d2 := Z.pos (digits2_pos m2)) in *.
  set (n1 := fexp64 (d1 + e1) - e1) in *.
  set (n2 := fexp64 (d2 + e2) - e2) in *.
  set (e0 := Z.min e1 e2) in *.
  assert (Hq : forall (m : positive) n,
             0 <= n -> Z.pos (digits2_pos m) - 53 <= n ->
             0 <= rne (Z.pos m) n <= 2 ^ 53).
  { intros m n Hn Hd.
    pose proof (rne_bounds (Z.pos m) n ltac:(lia) Hn) as HM.
    assert (Z.pos m / 2 ^ n < 2 ^ 53).
    { apply Z.div_lt_upper_bound; [apply Z.pow_pos_nonneg; lia |].
      rewrite <- Z.pow_add_r by lia.
      pose proof (digits2_pos_bounds m) as [_ Dhi].
      apply Z.lt_le_trans with (2 ^ Z.pos (digits2_pos m)); [exact Dhi |].
      apply Z.pow_le_mono_r; lia. }
    assert (0 <= Z.pos m / 2 ^ n)
      by (apply Z.div_pos; [lia | apply Z.pow_pos_nonneg; lia]).
    lia. }
  pose proof (Hq m1 n1 Hn1 ltac:(subst n1 d1; unfold fexp64; lia)) as HM1.
  pose proof (Hq m2 n2 Hn2 ltac:(subst n2 d2; unfold fexp64; lia)) as HM2.
  destruct (Z.eq_dec (e1 + n1) (e2 + n2)) as [Ec | Nc].
  - rewrite Ec. apply rounded_le_same; try lia.
    rewrite <- (rne_scale (Z.pos m1) n1 (e1 - e0)) by (subst e0; lia).
    rewrite <- (rne_scale (Z.pos m2) n2 (e2 - e0)) by (subst e0; lia).
    replace (n1 + (e1 - e0)) with (n2 + (e2 - e0)) by lia.
    apply rne_monotone; [| exact Hle | subst e0; lia].
    apply Z.mul_nonneg_nonneg; [lia | apply Z.pow_nonneg; lia].
  - assert (Hc : e1 + n1 < e2 + n2)
      by (subst n1 n2; unfold fexp64 in *; lia).
    apply rounded_le_next; try lia.
    assert (En2 : n2 = d2 - 53) by (subst n1 n2; unfold fexp64 in *; lia).
    pose proof (rne_bounds (Z.pos m2) n2 ltac:(lia) Hn2) as HB.
    assert (2 ^ 52 <= Z.pos m2 / 2 ^ n2).
    { apply Z.div_le_lower_bound; [apply Z.pow_pos_nonneg; lia |].
      rewrite <- Z.pow_add_r by lia.
      pose proof (digits2_pos_bounds m2) as [Dlo _]. fold d2 in Dlo.
      replace (n2 + 52) with (d2 - 1) by lia. exact Dlo. }
    lia.
Qed.

Lemma iter_xO_spec (p q : positive) :
  Z.pos (Pos.iter xO p q) = Z.pos p * 2 ^ Z.pos q.
Proof.
  induction q as [| q IH] using Pos.peano_ind.
  - simpl. lia.
  - rewrite Pos.iter_succ, Pos2Z.inj_xO, IH, Pos2Z.inj_succ.
    rewrite Z.pow_succ_r by lia. lia.
Qed.

Lemma rne_0 (a : Z) : rne a 0 = a.
Proof.
  unfold rne. cbv zeta. change (2 ^ 0) with 1.
  rewrite Z.div_1_r, Z.mod_1_r. reflexivity.
Qed.

(** [float64] of a positive integer below 2^32 is exact: a mantissa of
    53 bits that is the integer shifted to the left. *)
Lemma float64_of_int_spec (a : Z) :
  0 < a < 2 ^ 32 ->
  exists (ma : positive) (ea : Z),
    Prim2SF (float64_of_int a) = S754_finite false ma ea
    /\ 2 ^ 52 <= Z.pos ma < 2 ^ 53
    /\ -52 <= ea <= 0
    /\ Z.pos ma = a * 2 ^ (- ea).
Proof.
  intros Ha. unfold float64_of_int.
  destruct (Z.ltb_spec a 0) as [Hneg | _]; [lia |].
  rewrite of_uint63_spec, Uint63.of_Z_spec.
  change Uint63Axioms.wB with (2 ^ 63).
  rewrite Z.mod_small by lia.
  destruct a as [| p | p]; try lia.
  unfold binary_normalize, binary_round, shl_align.
  change (SpecFloat.fexp prec emax ?k) with (fexp64 k).
  pose proof (digits2_pos_bounds p) as [Dlo Dhi].
  set (d := Z.pos (digits2_pos p)) in *.
  assert (Hd : 1 <= d <= 32).
  { split; [subst d; lia |].
    destruct (Z.le_gt_cases d 32) as [H | H]; [exact H |].
    assert (2 ^ 32 <= 2 ^ (d - 1)) by (apply Z.pow_le_mono_r; lia).
    lia. }
  assert (Ef : fexp64 (d + 0) = d - 53) by (unfold fexp64; lia).
  rewrite Ef.
  destruct (d - 53 - 0) as [| q | q] eqn:Eq; try lia.
  assert (Hq : Z.pos q = 53 - d) by lia.
  set (mz := Pos.iter xO p q).
  assert (Emz : Z.pos mz = Z.pos p * 2 ^ (53 - d))
    by (subst mz; rewrite iter_xO_spec, Hq; reflexivity).
  assert (Hpow : 2 ^ 52 = 2 ^ (d - 1) * 2 ^ (53 - d))
    by (rewrite <- Z.pow_add_r by lia; f_equal; lia).
  assert (Hpow' : 2 ^ 53 = 2 ^ d * 2 ^ (53 - d))
    by (rewrite <- Z.pow_add_r by lia; f_equal; lia).
  assert (Hp : 0 < 2 ^ (53 - d)) by (apply Z.pow_pos_nonneg; lia).
  assert (Hmz : 2 ^ 52 <= Z.pos mz < 2 ^ 53).
  { rewrite Emz, Hpow, Hpow'. split; nia. }
  assert (Dmz : Z.pos (digits2_pos mz) = 53)
    by (apply digits_unique; exact Hmz).
  rewrite binary_round_aux_spec by (rewrite Dmz; unfold fexp64; lia).
  rewrite Dmz.
  replace (fexp64 (53 + (d - 53)) - (d - 53)) with 0 by (unfold fexp64; lia).
  rewrite rne_0, Z.add_0_r. unfold rounded.
  destruct (Z.eqb_spec (Z.pos mz) 0); [lia |].
  destruct (Z.eqb_spec (Z.pos mz) (2 ^ 53)); [lia |].
  destruct (Z.leb_spec (d - 53) 971); [| lia].
  exists mz, (d - 53). split; [reflexivity |].
  split; [exact Hmz |]. split; [lia |].
  rewrite Emz. f_equal. f_equal. lia.
Qed.

(** The product with a white-balance ratio that is not negative keeps
    the order of two integers, and is not negative. *)
Lemma balanced_monotone (a b : Z) (w : float) :
  0 < a -> a <= b -> b < 2 ^ 32 ->
  (0 <=? w)%float = true ->
  (0 <=? float64_of_int a * w)%float = true
  /\ (float64_of_int a * w <=? float64_of_int b * w)%float = true.
Proof.
  intros Ha Hab Hb Hw.
  destruct (float64_of_int_spec a ltac:(lia)) as (ma & ea & Ea & Hma & Hea & Va).
  destruct (float64_of_int_spec b ltac:(lia)) as (mb & eb & Eb & Hmb & Heb & Vb).
  rewrite leb_spec in Hw. rewrite !leb_spec, !mul_spec, Ea, Eb.
  change (Prim2SF 0) with (S754_zero false) in *.
  destruct (Prim2SF w) as [s | s | | s mw ew] eqn:Ew.
  - split; reflexivity.
  - destruct s; [discriminate |]. split; reflexivity.
  - discriminate.
  - destruct s; [discriminate |].
    unfold SF64mul, SFmul. cbn [xorb].
    assert (Hdig : forall m : positive, 2 ^ 52 <= Z.pos m ->
              53 <= Z.pos (digits2_pos (m * mw))).
    { intros m Hm. pose proof (digits2_pos_bounds (m * mw)) as [_ Dhi].
      destruct (Z.le_gt_cases 53 (Z.pos (digits2_pos (m * mw)))) as [H | H];
        [exact H |].
      assert (2 ^ Z.pos (digits2_pos (m * mw)) <= 2 ^ 52)
        by (apply Z.pow_le_mono_r; lia).
      rewrite Pos2Z.inj_mul in Dhi. nia. }
    pose proof (Hdig ma ltac:(lia)) as Da. pose proof (Hdig mb ltac:(lia)) as Db.
    split.
    + rewrite binary_round_aux_spec by (unfold fexp64; lia).
      apply rounded_nonneg.
    + apply binary_round_aux_monotone; try (unfold fexp64; lia).
      rewrite !Pos2Z.inj_mul, Va, Vb.
      set (e0 := Z.min (ea + ew) (eb + ew)).
      assert (Pa : 2 ^ (- ea) * 2 ^ (ea + ew - e0) = 2 ^ (ew - e0))
        by (rewrite <- Z.pow_add_r by (subst e0; lia); f_equal; lia).
      assert (Pb : 2 ^ (- eb) * 2 ^ (eb + ew - e0) = 2 ^ (ew - e0))
        by (rewrite <- Z.pow_add_r by (subst e0; lia); f_equal; lia).
      assert (Hp : 0 < 2 ^ (ew - e0)) by (apply Z.pow_pos_nonneg; subst e0; lia).
      replace (a * 2 ^ (- ea) * Z.pos mw * 2 ^ (ea + ew - e0))
        with (a * Z.pos mw * (2 ^ (- ea) * 2 ^ (ea + ew - e0))) by ring.
      replace (b * 2 ^ (- eb) * Z.pos mw * 2 ^ (eb + ew - e0))
        with (b * Z.pos mw * (2 ^ (- eb) * 2 ^ (eb + ew - e0))) by ring.
      rewrite Pa, Pb. nia.
Qed.

(** ** Where the corrector is monotone *)

Lemma process_above_black `{Platform} (xfactors : coefficients)
    (black sample : Z) (wb : float) :
  0 <= black -> black < sample -> sample < 2 ^ 32 ->
  process xfactors sample black wb
  = uint32_of_float64 (scaled_curve xfactors black wb sample).
Proof.
  intros Hb Hlt Hs. unfold process, scaled_curve, balanced.
  destruct (Z.leb_spec sample black) as [Hle | _]; [lia |].
  rewrite uint32_small by lia. reflexivity.
Qed.

Lemma uint32_of_representable `{Platform} (f : float) :
  representable f = true ->
  exists z, truncate f = Some z /\ uint32_of_float64 f = z.
Proof.
  unfold representable, uint32_of_float64.
  destruct (truncate f) as [z |]; [| discriminate].
  intros ->. exists z. split; reflexivity.
Qed.

Lemma ceiling_scaled : truncate (0x3fff * gammaspace)%float = Some 26155.
Proof. vm_compute. reflexivity. Qed.

Lemma SFltb_SFleb_trans (a b c : spec_float) :
  SFltb a b = true -> SFleb b c = true -> SFltb a c = true.
Proof.
  unfold SFltb, SFleb, SFcompare.
  destruct a as [sa | sa | | sa ma ea], b as [sb | sb | | sb mb eb],
           c as [sc | sc | | sc mc ec];
    repeat match goal with s : bool |- _ => destruct s end;
    try discriminate; try reflexivity;
    change (Pos.compare_cont Eq ?p ?q) with (Pos.compare p q);
    repeat match goal with
           | |- context [Z.compare ?x ?y] => destruct (Z.compare_spec x y)
           | |- context [Pos.compare ?x ?y] => destruct (Pos.compare_spec x y)
           end;
    simpl; try discriminate; try reflexivity; try lia.
Qed.

Lemma ltb_leb_trans (c x1 x2 : float) :
  (c <? x1)%float = true -> (x1 <=? x2)%float = true -> (c <? x2)%float = true.
Proof.
  rewrite !ltb_spec, leb_spec. apply SFltb_SFleb_trans.
Qed.

Lemma null_mul (a y : float) : null a = true -> null (a * y) = true.
Proof.
  unfold null. rewrite mul_spec. unfold SF64mul, SFmul.
  destruct (Prim2SF a), (Prim2SF y); try discriminate; reflexivity.
Qed.

Lemma null_add (a b : float) :
  null a = true -> null b = true -> null (a + b) = true.
Proof.
  unfold null. rewrite add_spec. unfold SF64add, SFadd.
  destruct (Prim2SF a) as [sa | | |], (Prim2SF b) as [sb | | |];
    try discriminate; try reflexivity.
  destruct sa, sb; reflexivity.
Qed.

Lemma null_converts_to_zero (f : float) :
  null f = true -> @uint32_of_float64 amd64 f = 0.
Proof.
  unfold null, uint32_of_float64, truncate.
  destruct (Prim2SF f) eqn:Ef; try discriminate; intros _.
  - reflexivity.
  - cbn [unrepresentable amd64]. unfold truncate. rewrite Ef. reflexivity.
Qed.

Lemma corrected_above_ceiling `{Platform} (xfactors : coefficients) (x : float) :
  (0x3fff <? x)%float = true -> corrected xfactors x = 26155.
Proof.
  intros Hx. unfold corrected, gamma. rewrite Hx.
  unfold uint32_of_float64. rewrite ceiling_scaled. reflexivity.
Qed.

Lemma corrected_zero_curve (x : float) :
  (0x3fff <? x)%float = false -> @corrected amd64 zero_coefficients x = 0.
Proof.
  intros Hx. unfold corrected. apply null_converts_to_zero.
  unfold gamma. rewrite Hx. cbv zeta. unfold zero_coefficients.
  repeat first [apply null_mul | apply null_add | reflexivity].
Qed.

(** The corrected value of the curve that is zero below the ceiling never
    falls. *)
Lemma zero_curve_monotone : @monotone_curve amd64 zero_coefficients.
Proof.
  intros x1 x2 _ Hle.
  destruct (0x3fff <? x1)%float eqn:C1.
  - rewrite (corrected_above_ceiling _ x1 C1).
    rewrite (corrected_above_ceiling _ x2 (ltb_leb_trans _ _ _ C1 Hle)). lia.
  - rewrite (corrected_zero_curve x1 C1).
    destruct (0x3fff <? x2)%float eqn:C2.
    + rewrite (corrected_above_ceiling _ x2 C2). lia.
    + rewrite (corrected_zero_curve x2 C2). lia.
Qed.

(** The corrected value of a curve never falls when its scaled values fit
    [uint32] and are in order as binary64 values. *)
Lemma monotone_of_ordered_curve `{Platform} (xfactors : coefficients) :
  (forall x1 x2 : float,
      (0 <=? x1)%float = true -> (x1 <=? x2)%float = true ->
      representable (gamma xfactors x1 * gammaspace)%float = true
      /\ representable (gamma xfactors x2 * gammaspace)%float = true
      /\ (gamma xfactors x1 * gammaspace <=? gamma xfactors x2 * gammaspace)%float
         = true) ->
  monotone_curve xfactors.
Proof.
  intros Hord x1 x2 H0 H12. unfold corrected.
  destruct (Hord x1 x2 H0 H12) as (R1 & R2 & Hle).
  destruct (uint32_of_representable _ R1) as (z1 & T1 & ->).
  destruct (uint32_of_representable _ R2) as (z2 & T2 & ->).
  exact (truncate_monotone _ _ _ _ Hle T1 T2).
Qed.

Lemma process_is_corrected `{Platform} (xfactors : coefficients)
    (black sample : Z) (wb : float) :
  0 <= black -> black < sample -> sample < 2 ^ 32 ->
  process xfactors sample black wb
  = corrected xfactors (float64_of_int (sample - black) * wb)%float.
Proof.
  intros Hb Hlt Hs. rewrite process_above_black by lia. reflexivity.
Qed.




(** ** Parameter extraction *)

Section ExtractFacts.
Context `{TagIds} `{TagReader}.

Lemma sr2Tag_sensor_part sr2 i v rw rw' :
  sr2Tag sr2 i v rw = Val rw' -> sensor_part rw' = sensor_part rw.
Proof.
  unfold sr2Tag. intros Hv.
  destruct (Tag v =? BlackLevel2).
  - destruct (shorts sr2 i); simpl in Hv; try discriminate.
    injection Hv as <-. reflexivity.
  - destruct (Tag v =? WB_RGGBLevels).
    + destruct (sshorts sr2 i); simpl in Hv; try discriminate.
      injection Hv as <-. reflexivity.
    + injection Hv as <-. reflexivity.
Qed.

Lemma sr2Tags_sensor_part sr2 l : forall i rw rw',
  sr2Tags sr2 i l rw = Val rw' -> sensor_part rw' = sensor_part rw.
Proof.
  induction l as [| v l IH]; intros i rw rw' Hv; simpl in Hv.
  - injection Hv as <-. reflexivity.
  - destruct (sr2Tag sr2 i v rw) as [rw1 | |] eqn:Hstep; simpl in Hv; try discriminate.
    apply IH in Hv. apply sr2Tag_sensor_part in Hstep. congruence.
Qed.

(** A tag that is neither of the two pointers is passed over. *)
Lemma visit_other fia rw rs :
  Tag fia <> SubIFDs -> Tag fia <> DNGPrivateData ->
  visit fia rw rs = Continue rw rs.
Proof.
  intros Hsub Hdng. unfold visit.
  destruct (Z.eqb_spec (Tag fia) SubIFDs) as [E | _]; [contradiction |].
  destruct (Z.eqb_spec (Tag fia) DNGPrivateData) as [E | _]; [contradiction |].
  reflexivity.
Qed.

Lemma visit_private fia rw rs :
  Tag fia <> SubIFDs -> Tag fia = DNGPrivateData ->
  visit fia rw rs = privateData fia rw rs.
Proof.
  intros Hsub Hdng. unfold visit.
  destruct (Z.eqb_spec (Tag fia) SubIFDs) as [E | _]; [contradiction |].
  destruct (Z.eqb_spec (Tag fia) DNGPrivateData) as [_ | E]; [| contradiction].
  reflexivity.
Qed.

Lemma walk_skip pre : forall post rw rs,
  Forall (fun f => Tag f <> SubIFDs /\ Tag f <> DNGPrivateData) pre ->
  walk (pre ++ post) rw rs = walk post rw rs.
Proof.
  induction pre as [| f pre IH]; intros post rw rs Hpre; [reflexivity |].
  inversion Hpre as [| f' pre' [Hs Hd] Hrest]; subst.
  simpl. rewrite visit_other by assumption. apply IH. exact Hrest.
Qed.

(** What the private-data step can do to the record. *)
Lemma privateData_sensor_part fia rw rs :
  match privateData fia rw rs with
  | Continue rw' _ => sensor_part rw' = sensor_part rw
  | Stop (Returns rw' _ _) => rw' = rw
  | Stop _ => True
  end.
Proof.
  unfold privateData.
  destruct (ExtractMetaData rs (Offset fia) 0) as [[dng [e |]] rs1]; [reflexivity |].
  destruct (sr2Params dng) as [[sr2offset sr2length] sr2key].
  destruct (DecryptSR2 rs1 sr2offset sr2length) as [buf rs2].
  destruct (ExtractMetaData (bytes_NewReader buf) 0 0) as [[sr2 [e |]] br]; [exact I |].
  destruct (sr2Tags sr2 0 (FIA sr2) rw) as [rw' | |] eqn:Htags; try exact I.
  eapply sr2Tags_sensor_part. exact Htags.
Qed.

Lemma walk_without_subIFD l : forall rw rs rw' err rs',
  Forall (fun f => Tag f <> SubIFDs) l ->
  walk l rw rs = Returns rw' err rs' ->
  sensor_part rw' = sensor_part rw.
Proof.
  induction l as [| fia l IH]; intros rw rs rw' err rs' Hl Hw; simpl in Hw.
  - injection Hw as <- _ _. reflexivity.
  - inversion Hl as [| f l' Hsub Hrest]; subst.
    unfold visit in Hw.
    destruct (Z.eqb_spec (Tag fia) SubIFDs) as [E | _]; [contradiction |].
    destruct (Tag fia =? DNGPrivateData).
    + pose proof (privateData_sensor_part fia rw rs) as Hp.
      destruct (privateData fia rw rs) as [rw1 rs1 | o].
      * apply IH in Hw; [congruence | exact Hrest].
      * subst o. subst rw'. reflexivity.
    + eapply IH; eassumption.
Qed.

(** Every error that a walk returns was given by the tag-tree reader. *)
Lemma visit_error_origin fia rw rs rw' err rs' :
  visit fia rw rs = Stop (Returns rw' (Some err) rs') ->
  exists rsA off meta, ExtractMetaData rsA off 0 = ((meta, Some err), rs').
Proof.
  unfold visit, subIFD, privateData. intros Hv.
  destruct (Tag fia =? SubIFDs).
  - destruct (ExtractMetaData rs (Offset fia) 0) as [[rawIFD [e |]] rs1] eqn:Hsub.
    + injection Hv as _ <- <-. eauto.
    + destruct (sensorTags rawIFD 0 (FIA rawIFD) rw) as [rw1 | |]; try discriminate.
      destruct (Tag fia =? DNGPrivateData); [| discriminate].
      destruct (ExtractMetaData rs1 (Offset fia) 0) as [[dng [e |]] rs2] eqn:Hdng.
      * injection Hv as _ <- <-. eauto.
      * destruct (sr2Params dng) as [[sr2offset sr2length] sr2key].
        destruct (DecryptSR2 rs2 sr2offset sr2length) as [buf rs3].
        destruct (ExtractMetaData (bytes_NewReader buf) 0 0) as [[sr2 [e |]] br];
          [discriminate |].
        destruct (sr2Tags sr2 0 (FIA sr2) rw1); discriminate.
  - destruct (Tag fia =? DNGPrivateData); [| discriminate].
    destruct (ExtractMetaData rs (Offset fia) 0) as [[dng [e |]] rs2] eqn:Hdng.
    + injection Hv as _ <- <-. eauto.
    + destruct (sr2Params dng) as [[sr2offset sr2length] sr2key].
      destruct (DecryptSR2 rs2 sr2offset sr2length) as [buf rs3].
      destruct (ExtractMetaData (bytes_NewReader buf) 0 0) as [[sr2 [e |]] br];
        [discriminate |].
      destruct (sr2Tags sr2 0 (FIA sr2) rw); discriminate.
Qed.

Lemma walk_error_origin l : forall rw rs rw' err rs',
  walk l rw rs = Returns rw' (Some err) rs' ->
  exists rsA off meta, ExtractMetaData rsA off 0 = ((meta, Some err), rs').
Proof.
  induction l as [| fia l IH]; intros rw rs rw' err rs' Hw; simpl in Hw.
  - discriminate.
  - destruct (visit fia rw rs) as [rw1 rs1 | o] eqn:Hv.
    + eapply IH. exact Hw.
    + subst o. eapply visit_error_origin. exact Hv.
Qed.

(** C1 (as the code has it). When the tag list read from the decrypted
    buffer of the private data fails to parse, [extractDetails] does not
    return: [log.Fatal] ends the process with the error. *)
Theorem sr2_parse_failure_ends_process
    (rs rs0 rs1 rs2 rs3 br : ReadSeeker) (header : TIFFHeader)
    (herr : option error) (meta dng sr2 : TIFFmeta)
    (pre post : list IFDentry) (fia : IFDentry)
    (buf : list Byte.byte) (e : error) :
  ParseHeader rs = ((header, herr), rs0) ->
  ExtractMetaData rs0 (header_Offset header) 0 = ((meta, None), rs1) ->
  FIA meta = pre ++ fia :: post ->
  Forall (fun f => Tag f <> SubIFDs /\ Tag f <> DNGPrivateData) pre ->
  Tag fia <> SubIFDs ->
  Tag fia = DNGPrivateData ->
  ExtractMetaData rs1 (Offset fia) 0 = ((dng, None), rs2) ->
  DecryptSR2 rs2 (sr2Params dng).1.1 (sr2Params dng).1.2 = (buf, rs3) ->
  ExtractMetaData (bytes_NewReader buf) 0 0 = ((sr2, Some e), br) ->
  extractDetails rs = Exits e.
Proof.
  intros Hhdr Hmeta Hfia Hpre Hsub Hdng Hpriv Hdec Hsr2.
  unfold extractDetails. rewrite Hhdr, Hmeta, Hfia.
  rewrite walk_skip by exact Hpre. simpl.
  rewrite visit_private by assumption.
  unfold privateData. rewrite Hpriv.
  destruct (sr2Params dng) as [[sr2offset sr2length] sr2key]. simpl in Hdec.
  rewrite Hdec, Hsr2. reflexivity.
Qed.

(** C2 (amended). With no sub-IFD pointer among the top-level tags the
    extraction reports no error for it: if there is no private-data tag
    either it returns the zero record and a nil error, and whatever it
    returns has every field of the sensor sub-tree at its zero value. *)
Theorem missing_subIFD_is_not_an_error
    (rs rs0 rs1 : ReadSeeker) (header : TIFFHeader) (herr : option error)
    (meta : TIFFmeta) :
  ParseHeader rs = ((header, herr), rs0) ->
  ExtractMetaData rs0 (header_Offset header) 0 = ((meta, None), rs1) ->
  Forall (fun f => Tag f <> SubIFDs) (FIA meta) ->
  (Forall (fun f => Tag f <> DNGPrivateData) (FIA meta) ->
   extractDetails rs = Returns RD.zero None rs1)
  /\ (forall rw err rs', extractDetails rs = Returns rw err rs' ->
      sensor_part rw = sensor_part RD.zero).
Proof.
  intros Hhdr Hmeta Hsub. unfold extractDetails. rewrite Hhdr, Hmeta. split.
  - intros Hdng.
    rewrite <- (app_nil_r (FIA meta)).
    rewrite walk_skip; [reflexivity |].
    rewrite Forall_forall in *. intros f Hf. split; auto.
  - intros rw err rs' Hw. eapply walk_without_subIFD; eassumption.
Qed.

(** C9. When [ParseHeader] fails, its error is dropped: the tag list is
    read at the offset of the header it returned, an error of that read
    is the one returned, a success goes on into the tags, and any error
    the call returns is one that the tag-tree reader gave. *)
Theorem header_error_is_discarded
    (rs rs0 : ReadSeeker) (header : TIFFHeader) (e : error) :
  ParseHeader rs = ((header, Some e), rs0) ->
  (forall meta e' rs1,
      ExtractMetaData rs0 (header_Offset header) 0 = ((meta, Some e'), rs1) ->
      extractDetails rs = Returns RD.zero (Some e') rs1)
  /\ (forall meta rs1,
      ExtractMetaData rs0 (header_Offset header) 0 = ((meta, None), rs1) ->
      extractDetails rs = walk (FIA meta) RD.zero rs1)
  /\ (forall rw err rs',
      extractDetails rs = Returns rw (Some err) rs' ->
      exists rsA off meta, ExtractMetaData rsA off 0 = ((meta, Some err), rs')).
Proof.
  intros Hhdr. unfold extractDetails. rewrite Hhdr. repeat split.
  - intros meta e' rs1 ->. reflexivity.
  - intros meta rs1 ->. reflexivity.
  - intros rw err rs'.
    destruct (ExtractMetaData rs0 (header_Offset header) 0) as [[meta [e' |]] rs1] eqn:Hm.
    + intros [= _ <- <-]. eauto.
    + apply walk_error_origin.
Qed.

End ExtractFacts.

Lemma sr2_parse_failure_ends_process_witness :
  @extractDetails tiff_tags table_reader file_with_bad_sr2 = @Exits table_reader 3.
Proof.
  eapply (@sr2_parse_failure_ends_process tiff_tags table_reader
            file_with_bad_sr2 _ _ _ _ _ _ _ _ _ _
            [mkEntry 0x0100 6000] [] (mkEntry 0xc634 100)).
  - reflexivity.
  - reflexivity.
  - reflexivity.
  - repeat constructor; simpl; lia.
  - simpl; lia.
  - reflexivity.
  - reflexivity.
  - reflexivity.
  - reflexivity.
Defined.

(** C2 (as stated) fails: the tag list has no sub-IFD pointer, and the
    call returns the zero record with a nil error. *)
Lemma missing_subIFD_counterexample :
  @extractDetails tiff_tags table_reader file_without_subIFD
  = @Returns table_reader RD.zero None
      (File false
         [(8, mkMeta [mkEntry 0x0100 6000; mkEntry 0x0101 4000]
                     [mkValue None None; mkValue None None])]
         [] 8).
Proof. reflexivity. Qed.

Lemma missing_subIFD_is_not_an_error_witness :
  (Forall (fun f => Tag f <> @DNGPrivateData tiff_tags)
     [mkEntry 0x0100 6000; mkEntry 0x0101 4000] ->
   @extractDetails tiff_tags table_reader file_without_subIFD
   = @Returns table_reader RD.zero None
       (File false
          [(8, mkMeta [mkEntry 0x0100 6000; mkEntry 0x0101 4000]
                      [mkValue None None; mkValue None None])]
          [] 8))
  /\ (forall rw err rs',
      @extractDetails tiff_tags table_reader file_without_subIFD = @Returns table_reader rw err rs' ->
      sensor_part rw = sensor_part RD.zero).
Proof.
  eapply (@missing_subIFD_is_not_an_error tiff_tags table_reader
            file_without_subIFD _ _ _ _
            (mkMeta [mkEntry 0x0100 6000; mkEntry 0x0101 4000]
                    [mkValue None None; mkValue None None])).
  - reflexivity.
  - reflexivity.
  - repeat constructor; simpl; lia.
Defined.

Lemma header_error_is_discarded_witness :
  @ParseHeader table_reader file_with_bad_header
  = ((mkHeader 8, Some 1), File true [(8, mkMeta [] [])] [] 8)
  /\ @extractDetails tiff_tags table_reader file_with_bad_header
     = @Returns table_reader RD.zero None (File true [(8, mkMeta [] [])] [] 8).
Proof.
  split; [reflexivity |].
  destruct (@header_error_is_discarded tiff_tags table_reader
              file_with_bad_header (File true [(8, mkMeta [] [])] [] 8)
              (mkHeader 8) 1 eq_refl) as (_ & Hgo & _).
  rewrite (Hgo (mkMeta [] []) (File true [(8, mkMeta [] [])] [] 8) eq_refl).
  reflexivity.
Defined.

(** The two stores of the repeat-pattern case, for any record. *)
Lemma multiplied_dims (off : Z) :
  uint16 (Z.shiftr (uint32 (off * 0x0000ffff)) 0) = uint16 (- off)
  /\ uint16 (Z.shiftr (uint32 (off * 0xffff0000)) 16) = uint16 (- off).
Proof.
  unfold uint16, uint32. rewrite Z.shiftr_0_r, Z.shiftr_div_pow2 by lia.
  split.
  - rewrite Z.mod_mod_divide by (exists (2 ^ 16); lia).
    replace (off * 65535) with (- off + off * 2 ^ 16) by lia.
    apply Z.mod_add. lia.
  - replace (off * 0xffff0000) with ((off * 65535) * 2 ^ 16) by lia.
    replace (2 ^ 32) with (2 ^ 16 * 2 ^ 16) by lia.
    rewrite Zmult_mod_distr_r, Z.div_mul by lia.
    rewrite Z.mod_mod by lia.
    replace (off * 65535) with (- off + off * 2 ^ 16) by lia.
    apply Z.mod_add. lia.
Qed.

(** C6 (as the code has it). The repeat-pattern case multiplies the value
    by the two masks instead of masking it: both dimensions come out as
    the negated value modulo 2^16, not as its low and high halves. For the
    value 0x00020002 the record holds 0xfffe twice where the halves are 2
    and 2. *)
Theorem cfaPatternDim_is_not_unpacked :
  (forall (m : TIFFmeta) (i off : Z),
      @sensorTag tiff_tags table_reader m i (mkEntry 0x828d off) RD.zero
      = Val (RD.with_cfaPatternDim [uint16 (- off); uint16 (- off)] RD.zero))
  /\ (exists rw rs,
         @extractDetails tiff_tags table_reader file_with_cfa_dim
         = @Returns table_reader rw None rs
         /\ RD.cfaPattern rw = [0; 1; 1; 2]
         /\ RD.cfaPatternDim rw = [0xfffe; 0xfffe]
         /\ Z.land 0x00020002 0xffff = 2
         /\ Z.shiftr 0x00020002 16 = 2).
Proof.
  split.
  - intros m i off. unfold sensorTag. simpl.
    destruct (multiplied_dims off) as [-> ->]. reflexivity.
  - eexists _, _. repeat split.
Qed.

(** ** Loops *)

Lemma bind_Val {A B : Type} (a : A) (f : A -> res B) : (Val a ≫= f) = f a.
Proof. reflexivity. Qed.

Lemma bind_Panic {A B : Type} (f : A -> res B) : (Panic ≫= f) = Panic.
Proof. reflexivity. Qed.

(** A loop whose body keeps an invariant and does not move the counter
    back runs to its end on the fuel [for_by] gives it. *)
Lemma for_fuel_invariant {S : Type} (I : Z -> S -> Prop) (bound step : Z)
    (body : Z -> S -> res (Z * S)) :
  0 < step ->
  (forall i s, I i s -> i < bound ->
     exists i' s', body i s = Val (i', s') /\ i <= i' /\ I (i' + step) s') ->
  forall fuel i s,
    I i s -> bound - i <= Z.of_nat fuel ->
    exists i' s', for_fuel fuel bound step body i s = Val s' /\ bound <= i' /\ I i' s'.
Proof.
  intros Hstep Hbody fuel. induction fuel as [| fuel IH]; intros i s HI Hfuel.
  - exists i, s. simpl.
    destruct (Z.leb_spec bound i) as [Hle | Hlt]; [auto | lia].
  - simpl. destruct (Z.leb_spec bound i) as [Hle | Hlt].
    + exists i, s. auto.
    + destruct (Hbody i s HI Hlt) as (i' & s' & -> & Hi' & HI').
      apply IH; [exact HI' | lia].
Qed.

(** The same when the body may panic: the loop panics or runs to its end. *)
Lemma for_fuel_safe {S : Type} (I : Z -> S -> Prop) (bound step : Z)
    (body : Z -> S -> res (Z * S)) :
  0 < step ->
  (forall i s, I i s -> i < bound ->
     body i s = Panic
     \/ exists i' s', body i s = Val (i', s') /\ i <= i' /\ I (i' + step) s') ->
  forall fuel i s,
    I i s -> bound - i <= Z.of_nat fuel ->
    for_fuel fuel bound step body i s = Panic
    \/ exists i' s', for_fuel fuel bound step body i s = Val s' /\ bound <= i' /\ I i' s'.
Proof.
  intros Hstep Hbody fuel. induction fuel as [| fuel IH]; intros i s HI Hfuel.
  - right. exists i, s. simpl.
    destruct (Z.leb_spec bound i) as [Hle | Hlt]; [auto | lia].
  - simpl. destruct (Z.leb_spec bound i) as [Hle | Hlt].
    + right. exists i, s. auto.
    + destruct (Hbody i s HI Hlt) as [-> | (i' & s' & -> & Hi' & HI')].
      * left. reflexivity.
      * apply IH; [exact HI' | lia].
Qed.

(** A loop that cannot reach its bound without meeting a panic panics. *)
Lemma for_fuel_panics {S : Type} (I : Z -> S -> Prop) (bound step : Z)
    (body : Z -> S -> res (Z * S)) :
  0 < step ->
  (forall i s, I i s ->
     i < bound
     /\ (body i s = Panic
         \/ exists i' s', body i s = Val (i', s') /\ i <= i' /\ I (i' + step) s')) ->
  forall fuel i s,
    I i s -> bound - i <= Z.of_nat fuel ->
    for_fuel fuel bound step body i s = Panic.
Proof.
  intros Hstep Hbody fuel. induction fuel as [| fuel IH]; intros i s HI Hfuel.
  - destruct (Hbody i s HI) as [Hlt _]. lia.
  - destruct (Hbody i s HI) as [Hlt Hstepi]. simpl.
    destruct (Z.leb_spec bound i) as [Hle | _]; [lia |].
    destruct Hstepi as [-> | (i' & s' & -> & Hi' & HI')]; [reflexivity |].
    apply IH; [exact HI' | lia].
Qed.

Lemma for_lt_invariant {S : Type} (I : Z -> S -> Prop) (bound : Z)
    (body : Z -> S -> res (Z * S)) (i0 : Z) (s : S) :
  (forall i s, I i s -> i < bound ->
     exists i' s', body i s = Val (i', s') /\ i <= i' /\ I (i' + 1) s') ->
  I i0 s ->
  exists i' s', for_lt bound body i0 s = Val s' /\ bound <= i' /\ I i' s'.
Proof.
  intros Hbody HI. unfold for_lt, for_by.
  apply (for_fuel_invariant I); [lia | exact Hbody | exact HI | lia].
Qed.

Lemma for_lt_safe {S : Type} (I : Z -> S -> Prop) (bound : Z)
    (body : Z -> S -> res (Z * S)) (i0 : Z) (s : S) :
  (forall i s, I i s -> i < bound ->
     body i s = Panic
     \/ exists i' s', body i s = Val (i', s') /\ i <= i' /\ I (i' + 1) s') ->
  I i0 s ->
  for_lt bound body i0 s = Panic
  \/ exists i' s', for_lt bound body i0 s = Val s' /\ bound <= i' /\ I i' s'.
Proof.
  intros Hbody HI. unfold for_lt, for_by.
  apply (for_fuel_safe I); [lia | exact Hbody | exact HI | lia].
Qed.

Lemma for_lt_panics {S : Type} (I : Z -> S -> Prop) (bound : Z)
    (body : Z -> S -> res (Z * S)) (i0 : Z) (s : S) :
  (forall i s, I i s ->
     i < bound
     /\ (body i s = Panic
         \/ exists i' s', body i s = Val (i', s') /\ i <= i' /\ I (i' + 1) s')) ->
  I i0 s ->
  for_lt bound body i0 s = Panic.
Proof.
  intros Hbody HI. unfold for_lt, for_by.
  apply (for_fuel_panics I); [lia | exact Hbody | exact HI | lia].
Qed.

(** ** Cells of a pixel array *)

Lemma index_cell (pix : list pixel16) (i : Z) :
  0 <= i < Z.of_nat (length pix) -> index pix i = Val (cell pix i).
Proof.
  intros Hi. destruct (index_in_range pix i Hi) as (p & -> & Hp).
  unfold cell. rewrite (list_lookup_total_correct _ _ _ Hp). reflexivity.
Qed.

Lemma cell_insert_eq (pix : list pixel16) (i : Z) (p : pixel16) :
  0 <= i < Z.of_nat (length pix) -> cell (<[Z.to_nat i := p]> pix) i = p.
Proof.
  intros Hi. unfold cell. apply list_lookup_total_insert_eq. lia.
Qed.

Lemma cell_insert_ne (pix : list pixel16) (i j : Z) (p : pixel16) :
  0 <= i -> 0 <= j -> i <> j -> cell (<[Z.to_nat i := p]> pix) j = cell pix j.
Proof.
  intros Hi Hj Hne. unfold cell. apply list_lookup_total_insert_ne. lia.
Qed.

Lemma modify_in_range (pix : list pixel16) (d : Z) (f : pixel16 -> pixel16) :
  0 <= d < Z.of_nat (length pix) ->
  exists pix', modify pix d f = Val pix'
    /\ length pix' = length pix
    /\ cell pix' d = f (cell pix d)
    /\ (forall j, 0 <= j -> j <> d -> cell pix' j = cell pix j).
Proof.
  intros Hd. unfold modify. rewrite index_cell by exact Hd.
  eexists. split; [reflexivity |].
  split; [apply length_insert |].
  split; [apply cell_insert_eq; exact Hd |].
  intros j Hj Hne. apply cell_insert_ne; lia.
Qed.

Lemma modify_out_of_range (pix : list pixel16) (d : Z) (f : pixel16 -> pixel16) :
  d < 0 \/ Z.of_nat (length pix) <= d -> modify pix d f = Panic.
Proof.
  intros Hd. unfold modify. rewrite index_out_of_range by exact Hd. reflexivity.
Qed.

Lemma modify_safe (pix : list pixel16) (d : Z) (f : pixel16 -> pixel16) :
  modify pix d f = Panic
  \/ exists pix', modify pix d f = Val pix' /\ length pix' = length pix.
Proof.
  destruct (Z_lt_dec d 0) as [Hneg | Hpos].
  - left. apply modify_out_of_range. lia.
  - destruct (Z_lt_dec d (Z.of_nat (length pix))) as [Hlt | Hge].
    + right. destruct (modify_in_range pix d f) as (pix' & E & L & _); [lia |].
      exists pix'. auto.
    + left. apply modify_out_of_range. lia.
Qed.

Lemma copy_with_in_range set_ get (pix : list pixel16) (d s : Z) :
  0 <= d < Z.of_nat (length pix) ->
  0 <= s < Z.of_nat (length pix) ->
  exists pix', copy_with set_ get pix d s = Val pix'
    /\ length pix' = length pix
    /\ cell pix' d = set_ (get (cell pix s)) (cell pix d)
    /\ (forall j, 0 <= j -> j <> d -> cell pix' j = cell pix j).
Proof.
  intros Hd Hs. unfold copy_with. rewrite index_cell by exact Hs.
  rewrite bind_Val. apply modify_in_range. exact Hd.
Qed.

Lemma copy_with_source_out set_ get (pix : list pixel16) (d s : Z) :
  s < 0 \/ Z.of_nat (length pix) <= s -> copy_with set_ get pix d s = Panic.
Proof.
  intros Hs. unfold copy_with. rewrite index_out_of_range by exact Hs. reflexivity.
Qed.

Lemma copy_with_safe set_ get (pix : list pixel16) (d s : Z) :
  copy_with set_ get pix d s = Panic
  \/ exists pix', copy_with set_ get pix d s = Val pix' /\ length pix' = length pix.
Proof.
  unfold copy_with.
  destruct (index pix s) as [p | |] eqn:Hs.
  - rewrite bind_Val. apply modify_safe.
  - left. reflexivity.
  - unfold index in Hs. repeat case_match; discriminate.
Qed.

(** ** The neighbour fill *)

(** The two strategies carry the same fill. *)
Lemma fill_same (img : RGB14) : Raw14.fill img = CRAW.fill img.
Proof. reflexivity. Qed.

Ltac copy_step :=
  lazymatch goal with
  | |- context [copy_with ?st ?gt ?p ?d ?s] =>
      let p' := fresh "pix" in
      let L := fresh "Hlen" in
      let C := fresh "Hcell" in
      let F := fresh "Hframe" in
      destruct (copy_with_in_range st gt p d s) as (p' & -> & L & C & F);
      [ lia | lia | rewrite bind_Val ]
  end.

(** Rewrite the cells of the intermediate arrays down to the first one. *)
Ltac cells :=
  repeat match goal with
         | H : cell ?p ?i = _ |- context [cell ?p ?i] => rewrite H
         | H : forall j, _ -> _ -> cell ?p j = _ |- context [cell ?p ?i] =>
             rewrite (H i) by lia
         end.

Lemma fillUpper_cells (w y x : Z) (pix : list pixel16) :
  0 <= y * w + x ->
  y * w + x + 1 < (y + 1) * w + x + 1 ->
  (y + 1) * w + x + 1 < Z.of_nat (length pix) ->
  exists pix',
    CRAW.fillUpper w y x pix = Val (x + 1, pix')
    /\ length pix' = length pix
    /\ cell pix' (y * w + x)
       = mkPixel16 (R (cell pix (y * w + x))) (G (cell pix (y * w + x + 1)))
                   (B (cell pix ((y + 1) * w + x + 1))) (pad (cell pix (y * w + x)))
    /\ cell pix' (y * w + x + 1)
       = mkPixel16 (R (cell pix (y * w + x))) (G (cell pix (y * w + x + 1)))
                   (B (cell pix ((y + 1) * w + x + 1))) (pad (cell pix (y * w + x + 1)))
    /\ (forall j, 0 <= j -> j <> y * w + x -> j <> y * w + x + 1 ->
        cell pix' j = cell pix j).
Proof.
  intros Ha Hab Hb. unfold CRAW.fillUpper.
  change copyG with (copy_with setG G). change copyB with (copy_with setB B).
  change copyR with (copy_with setR R).
  copy_step. copy_step. cbv zeta. copy_step. copy_step.
  eexists. split; [reflexivity |].
  split; [congruence |].
  replace (y * w + (x + 1) - 1) with (y * w + x) in * by lia.
  replace (y * w + (x + 1)) with (y * w + x + 1) in * by lia.
  replace ((y + 1) * w + (x + 1)) with ((y + 1) * w + x + 1) in * by lia.
  split; [| split]; [| | intros j Hj Hja Hja1]; cells; reflexivity.
Qed.

Lemma fillLower_cells (w y x : Z) (pix : list pixel16) :
  0 <= (y - 1) * w + x ->
  (y - 1) * w + x < y * w + x ->
  y * w + x + 1 < Z.of_nat (length pix) ->
  exists pix',
    CRAW.fillLower w y x pix = Val (x + 1, pix')
    /\ length pix' = length pix
    /\ cell pix' (y * w + x)
       = mkPixel16 (R (cell pix ((y - 1) * w + x))) (G (cell pix (y * w + x)))
                   (B (cell pix (y * w + x + 1))) (pad (cell pix (y * w + x)))
    /\ cell pix' (y * w + x + 1)
       = mkPixel16 (R (cell pix ((y - 1) * w + x))) (G (cell pix (y * w + x)))
                   (B (cell pix (y * w + x + 1))) (pad (cell pix (y * w + x + 1)))
    /\ (forall j, 0 <= j -> j <> y * w + x -> j <> y * w + x + 1 ->
        cell pix' j = cell pix j).
Proof.
  intros Ha Hac Hc. unfold CRAW.fillLower.
  change copyG with (copy_with setG G). change copyB with (copy_with setB B).
  change copyR with (copy_with setR R).
  copy_step. copy_step. cbv zeta. copy_step. copy_step.
  eexists. split; [reflexivity |].
  split; [congruence |].
  replace (y * w + (x + 1) - 1) with (y * w + x) in * by lia.
  replace (y * w + (x + 1)) with (y * w + x + 1) in * by lia.
  replace ((y - 1) * w + (x + 1) - 1) with ((y - 1) * w + x) in * by lia.
  split; [| split]; [| | intros j Hj Hja Hja1]; cells; reflexivity.
Qed.

(** Either body panics or leaves an array of the same length, whatever
    the indices are. *)
Ltac copy_safe_step :=
  lazymatch goal with
  | |- context [copy_with ?st ?gt ?p ?d ?s] =>
      let p' := fresh "pix" in
      let L := fresh "Hlen" in
      destruct (copy_with_safe st gt p d s) as [-> | (p' & -> & L)];
      [ left; reflexivity | rewrite bind_Val ]
  end.

Lemma fillUpper_safe (w y x : Z) (pix : list pixel16) :
  CRAW.fillUpper w y x pix = Panic
  \/ exists pix', CRAW.fillUpper w y x pix = Val (x + 1, pix')
                  /\ length pix' = length pix.
Proof.
  unfold CRAW.fillUpper.
  change copyG with (copy_with setG G). change copyB with (copy_with setB B).
  change copyR with (copy_with setR R).
  copy_safe_step. copy_safe_step. cbv zeta. copy_safe_step. copy_safe_step.
  right. eexists. split; [reflexivity | congruence].
Qed.

Lemma fillLower_safe (w y x : Z) (pix : list pixel16) :
  CRAW.fillLower w y x pix = Panic
  \/ exists pix', CRAW.fillLower w y x pix = Val (x + 1, pix')
                  /\ length pix' = length pix.
Proof.
  unfold CRAW.fillLower.
  change copyG with (copy_with setG G). change copyB with (copy_with setB B).
  change copyR with (copy_with setR R).
  copy_safe_step. copy_safe_step. cbv zeta. copy_safe_step. copy_safe_step.
  right. eexists. split; [reflexivity | congruence].
Qed.

(** The first body panics as soon as the cell one row down and one column
    right is outside the array. *)
Lemma fillUpper_panics (w y x : Z) (pix : list pixel16) :
  Z.of_nat (length pix) <= (y + 1) * w + x + 1 ->
  CRAW.fillUpper w y x pix = Panic.
Proof.
  intros Hb. unfold CRAW.fillUpper.
  change copyG with (copy_with setG G). change copyB with (copy_with setB B).
  destruct (copy_with_safe setG G pix (y * w + x) (y * w + x + 1))
    as [-> | (pix1 & -> & Hlen)]; [reflexivity |].
  rewrite bind_Val, copy_with_source_out by lia. reflexivity.
Qed.

(** ** What the fill leaves in each cell *)

Lemma flat_inj (w x y x' y' : Z) :
  0 <= x < w -> 0 <= x' < w -> y * w + x = y' * w + x' -> x = x' /\ y = y'.
Proof.
  intros Hx Hx' E.
  assert (y = y') by nia. subst y'. split; [lia | reflexivity].
Qed.

Ltac zmod := Z.div_mod_to_equations; lia.

Lemma filled_even_even pix0 w x y :
  x mod 2 = 0 -> y mod 2 = 0 ->
  filled pix0 w x y
  = mkPixel16 (R (cell pix0 (y * w + x))) (G (cell pix0 (y * w + x + 1)))
              (B (cell pix0 ((y + 1) * w + x + 1))) (pad (cell pix0 (y * w + x))).
Proof.
  intros Hx Hy. unfold filled. rewrite Hx, Hy, !Z.sub_0_r. reflexivity.
Qed.

Lemma filled_odd_even pix0 w x y :
  x mod 2 = 0 -> y mod 2 = 0 ->
  filled pix0 w (x + 1) y
  = mkPixel16 (R (cell pix0 (y * w + x))) (G (cell pix0 (y * w + x + 1)))
              (B (cell pix0 ((y + 1) * w + x + 1))) (pad (cell pix0 (y * w + (x + 1)))).
Proof.
  intros Hx Hy. unfold filled.
  replace ((x + 1) mod 2) with 1 by zmod.
  rewrite Hy, !Z.sub_0_r. replace (x + 1 - 1) with x by lia. reflexivity.
Qed.

Lemma filled_even_odd pix0 w x y :
  x mod 2 = 0 -> y mod 2 = 0 ->
  filled pix0 w x (y + 1)
  = mkPixel16 (R (cell pix0 (y * w + x))) (G (cell pix0 ((y + 1) * w + x)))
              (B (cell pix0 ((y + 1) * w + x + 1))) (pad (cell pix0 ((y + 1) * w + x))).
Proof.
  intros Hx Hy. unfold filled.
  replace ((y + 1) mod 2) with 1 by zmod.
  rewrite Hx, !Z.sub_0_r. replace (y + 1 - 1) with y by lia. reflexivity.
Qed.

Lemma filled_odd_odd pix0 w x y :
  x mod 2 = 0 -> y mod 2 = 0 ->
  filled pix0 w (x + 1) (y + 1)
  = mkPixel16 (R (cell pix0 (y * w + x))) (G (cell pix0 ((y + 1) * w + x)))
              (B (cell pix0 ((y + 1) * w + x + 1)))
              (pad (cell pix0 ((y + 1) * w + (x + 1)))).
Proof.
  intros Hx Hy. unfold filled.
  replace ((y + 1) mod 2) with 1 by zmod.
  replace ((x + 1) mod 2) with 1 by zmod.
  replace (y + 1 - 1) with y by lia. replace (x + 1 - 1) with x by lia.
  reflexivity.
Qed.

Section FillEven.
Variables (w h : Z) (pix0 : list pixel16).
Hypothesis Hw : 0 <= w.
Hypothesis Hh : 0 <= h.
Hypothesis Hweven : w mod 2 = 0.
Hypothesis Hheven : h mod 2 = 0.
Hypothesis Hsize : Z.of_nat (length pix0) = w * h.

(** Two cells further in a row: the cells other than the two keep their
    side of the frontier. *)
Lemma fill_inv_advance (k : Z) (pix pix' : list pixel16) (x y : Z) :
  0 <= x -> x + 1 < w -> 0 <= y < h ->
  k = y * w + x ->
  fill_inv pix0 w h k pix ->
  length pix' = length pix ->
  cell pix' (y * w + x) = filled pix0 w x y ->
  cell pix' (y * w + x + 1) = filled pix0 w (x + 1) y ->
  (forall j, 0 <= j -> j <> y * w + x -> j <> y * w + x + 1 ->
     cell pix' j = cell pix j) ->
  fill_inv pix0 w h (k + 2) pix'.
Proof.
  intros Hx Hx1 Hy -> [Hlen Hinv] Hlen' Ha Ha1 Hframe.
  split; [congruence |].
  intros x' y' Hx' Hy'.
  destruct (Z.eq_dec (y' * w + x') (y * w + x)) as [E | NE].
  - apply flat_inj in E; [| lia | lia]. destruct E as [-> ->].
    rewrite Ha. destruct (Z.ltb_spec (y * w + x) (y * w + x + 2)); [reflexivity | lia].
  - destruct (Z.eq_dec (y' * w + x') (y * w + (x + 1))) as [E1 | NE1].
    + apply flat_inj in E1; [| lia | lia]. destruct E1 as [-> ->].
      replace (y * w + (x + 1)) with (y * w + x + 1) by lia.
      rewrite Ha1.
      destruct (Z.ltb_spec (y * w + x + 1) (y * w + x + 2)); [reflexivity | lia].
    + rewrite Hframe by nia. rewrite Hinv by lia.
      destruct (Z.ltb_spec (y' * w + x') (y * w + x)),
               (Z.ltb_spec (y' * w + x') (y * w + x + 2)); try reflexivity; lia.
Qed.

Lemma fillUpper_step (x y : Z) (pix : list pixel16) :
  x mod 2 = 0 -> 0 <= x < w -> y mod 2 = 0 -> 0 <= y < h ->
  fill_inv pix0 w h (y * w + x) pix ->
  exists pix', CRAW.fillUpper w y x pix = Val (x + 1, pix')
               /\ fill_inv pix0 w h (y * w + (x + 1 + 1)) pix'.
Proof.
  intros Hxe Hx Hye Hy Hinv.
  assert (Hx1 : x + 1 < w) by zmod.
  assert (Hy1 : y + 1 < h) by zmod.
  pose proof Hinv as [Hlen Hcells].
  destruct (fillUpper_cells w y x pix) as (pix' & E & Hlen' & Ha & Ha1 & Hframe);
    [nia | nia | nia |].
  exists pix'. split; [exact E |].
  replace (y * w + (x + 1 + 1)) with (y * w + x + 2) by lia.
  apply (fill_inv_advance (y * w + x) pix pix' x y); try assumption; try lia.
  - rewrite Ha, filled_even_even by assumption.
    pose proof (Hcells x y ltac:(lia) ltac:(lia)) as C0.
    pose proof (Hcells (x + 1) y ltac:(lia) ltac:(lia)) as C1.
    pose proof (Hcells (x + 1) (y + 1) ltac:(lia) ltac:(lia)) as C2.
    destruct (Z.ltb_spec (y * w + x) (y * w + x)); [lia |].
    destruct (Z.ltb_spec (y * w + (x + 1)) (y * w + x)); [lia |].
    destruct (Z.ltb_spec ((y + 1) * w + (x + 1)) (y * w + x)); [nia |].
    replace (y * w + (x + 1)) with (y * w + x + 1) in C1 by lia.
    replace ((y + 1) * w + (x + 1)) with ((y + 1) * w + x + 1) in C2 by lia.
    rewrite C0, C1, C2. reflexivity.
  - rewrite Ha1, filled_odd_even by assumption.
    pose proof (Hcells x y ltac:(lia) ltac:(lia)) as C0.
    pose proof (Hcells (x + 1) y ltac:(lia) ltac:(lia)) as C1.
    pose proof (Hcells (x + 1) (y + 1) ltac:(lia) ltac:(lia)) as C2.
    destruct (Z.ltb_spec (y * w + x) (y * w + x)); [lia |].
    destruct (Z.ltb_spec (y * w + (x + 1)) (y * w + x)); [lia |].
    destruct (Z.ltb_spec ((y + 1) * w + (x + 1)) (y * w + x)); [nia |].
    replace (y * w + (x + 1)) with (y * w + x + 1) in * by lia.
    replace ((y + 1) * w + (x + 1)) with ((y + 1) * w + x + 1) in C2 by lia.
    rewrite C0, C1, C2. reflexivity.
Qed.

(** The second loop runs on row [y + 1] of a tile whose upper row [y]
    is done. *)
Lemma fillLower_step (x y : Z) (pix : list pixel16) :
  x mod 2 = 0 -> 0 <= x < w -> y mod 2 = 0 -> 0 <= y < h ->
  fill_inv pix0 w h ((y + 1) * w + x) pix ->
  exists pix', CRAW.fillLower w (y + 1) x pix = Val (x + 1, pix')
               /\ fill_inv pix0 w h ((y + 1) * w + (x + 1 + 1)) pix'.
Proof.
  intros Hxe Hx Hye Hy Hinv.
  assert (Hx1 : x + 1 < w) by zmod.
  assert (Hy1 : y + 1 < h) by zmod.
  pose proof Hinv as [Hlen Hcells].
  destruct (fillLower_cells w (y + 1) x pix) as (pix' & E & Hlen' & Ha & Ha1 & Hframe);
    [nia | nia | nia |].
  exists pix'. split; [exact E |].
  replace ((y + 1) * w + (x + 1 + 1)) with ((y + 1) * w + x + 2) by lia.
  replace (y + 1 - 1) with y in * by lia.
  pose proof (Hcells x y ltac:(lia) ltac:(lia)) as C0.
  pose proof (Hcells x (y + 1) ltac:(lia) ltac:(lia)) as C1.
  pose proof (Hcells (x + 1) (y + 1) ltac:(lia) ltac:(lia)) as C2.
  destruct (Z.ltb_spec (y * w + x) ((y + 1) * w + x)); [| nia].
  destruct (Z.ltb_spec ((y + 1) * w + x) ((y + 1) * w + x)); [lia |].
  destruct (Z.ltb_spec ((y + 1) * w + (x + 1)) ((y + 1) * w + x)); [lia |].
  replace ((y + 1) * w + (x + 1)) with ((y + 1) * w + x + 1) in C2 by lia.
  rewrite filled_even_even in C0 by assumption.
  apply (fill_inv_advance ((y + 1) * w + x) pix pix' x (y + 1));
    try assumption; try lia.
  - rewrite Ha, filled_even_odd by assumption.
    rewrite C0, C1, C2. reflexivity.
  - rewrite Ha1, filled_odd_odd by assumption.
    replace ((y + 1) * w + (x + 1)) with ((y + 1) * w + x + 1) by lia.
    rewrite C0, C1, C2. reflexivity.
Qed.

Lemma fill_rows (y : Z) (pix : list pixel16) :
  y mod 2 = 0 -> 0 <= y < h ->
  fill_inv pix0 w h (y * w) pix ->
  exists pix',
    (pix1 ← for_lt w (CRAW.fillUpper w y) 0 pix;
     let y' := y + 1 in
     pix2 ← for_lt w (CRAW.fillLower w y') 0 pix1;
     Val (y', pix2)) = Val (y + 1, pix')
    /\ fill_inv pix0 w h ((y + 1 + 1) * w) pix'.
Proof.
  intros Hye Hy Hinv.
  destruct (for_lt_invariant
              (fun x p => x mod 2 = 0 /\ 0 <= x <= w /\ fill_inv pix0 w h (y * w + x) p)
              w (CRAW.fillUpper w y) 0 pix) as (x1 & pix1 & -> & Hx1 & Hx1e & Hx1r & Hinv1).
  { intros x p (Hxe & Hx & Hp) Hlt.
    destruct (fillUpper_step x y p) as (p' & E & Hp'); try assumption; try lia.
    exists (x + 1), p'. split; [exact E |]. split; [lia |].
    split; [zmod |]. split; [zmod | exact Hp']. }
  { split; [reflexivity |]. split; [lia |].
    replace (y * w + 0) with (y * w) by lia. exact Hinv. }
  rewrite bind_Val. cbv zeta.
  assert (x1 = w) by lia. subst x1.
  destruct (for_lt_invariant
              (fun x p => x mod 2 = 0 /\ 0 <= x <= w
                          /\ fill_inv pix0 w h ((y + 1) * w + x) p)
              w (CRAW.fillLower w (y + 1)) 0 pix1)
    as (x2 & pix2 & -> & Hx2 & Hx2e & Hx2r & Hinv2).
  { intros x p (Hxe & Hx & Hp) Hlt.
    destruct (fillLower_step x y p) as (p' & E & Hp'); try assumption; try lia.
    exists (x + 1), p'. split; [exact E |]. split; [lia |].
    split; [zmod |]. split; [zmod | exact Hp']. }
  { split; [reflexivity |]. split; [lia |].
    replace ((y + 1) * w + 0) with (y * w + w) by lia. exact Hinv1. }
  rewrite bind_Val.
  assert (x2 = w) by lia. subst x2.
  exists pix2. split; [reflexivity |].
  replace ((y + 1 + 1) * w) with ((y + 1) * w + w) by lia. exact Hinv2.
Qed.

(** On a raster of even width and height the fill runs to its end and
    leaves [filled] in every cell. *)
Lemma fill_even :
  exists pix',
    CRAW.fill (mkRGB14 pix0 w (image_Rect 0 0 w h))
    = Val (mkRGB14 pix' w (image_Rect 0 0 w h))
    /\ length pix' = length pix0
    /\ forall x y, 0 <= x < w -> 0 <= y < h ->
         cell pix' (y * w + x) = filled pix0 w x y.
Proof.
  unfold CRAW.fill. simpl.
  rewrite !Z.max_r by lia.
  lazymatch goal with
  | |- context [for_lt h ?body 0 pix0] =>
      destruct (for_lt_invariant
                  (fun y p => y mod 2 = 0 /\ 0 <= y <= h
                              /\ fill_inv pix0 w h (y * w) p)
                  h body 0 pix0) as (y1 & pix1 & -> & Hy1 & Hy1e & Hy1r & Hlen & Hinv)
  end.
  { intros y p (Hye & Hy & Hp) Hlt.
    destruct (fill_rows y p) as (p' & E & Hp'); try assumption; try lia.
    exists (y + 1), p'. split; [exact E |]. split; [lia |].
    split; [zmod |]. split; [zmod | exact Hp']. }
  { split; [reflexivity |]. split; [lia |].
    split; [reflexivity |]. intros x y Hx Hy.
    destruct (Z.ltb_spec (y * w + x) (0 * w)); [nia | reflexivity]. }
  rewrite bind_Val.
  assert (y1 = h) by lia. subst y1.
  exists pix1. split; [reflexivity |]. split; [exact Hlen |].
  intros x y Hx Hy. rewrite Hinv by assumption.
  destruct (Z.ltb_spec (y * w + x) (h * w)); [reflexivity | nia].
Qed.

End FillEven.

Lemma fill_unfold (pix0 : list pixel16) (w h : Z) :
  0 <= w -> 0 <= h ->
  CRAW.fill (mkRGB14 pix0 w (image_Rect 0 0 w h))
  = (pix ← for_lt h (fill_row_pair w) 0 pix0;
     Val (mkRGB14 pix w (image_Rect 0 0 w h))).
Proof.
  intros Hw Hh. unfold CRAW.fill. simpl. rewrite !Z.max_r by lia. reflexivity.
Qed.

Lemma upper_loop_safe (w y : Z) (pix : list pixel16) :
  for_lt w (CRAW.fillUpper w y) 0 pix = Panic
  \/ exists pix', for_lt w (CRAW.fillUpper w y) 0 pix = Val pix'
                  /\ length pix' = length pix.
Proof.
  destruct (for_lt_safe (fun _ p => length p = length pix) w (CRAW.fillUpper w y) 0 pix)
    as [E | (x' & pix' & E & _ & L)]; auto.
  - intros x p Hp _.
    destruct (fillUpper_safe w y x p) as [E | (p' & E & L)]; [left; exact E |].
    right. exists (x + 1), p'. split; [exact E |]. split; [lia | congruence].
  - right. exists pix'. auto.
Qed.

Lemma lower_loop_safe (w y : Z) (pix : list pixel16) :
  for_lt w (CRAW.fillLower w y) 0 pix = Panic
  \/ exists pix', for_lt w (CRAW.fillLower w y) 0 pix = Val pix'
                  /\ length pix' = length pix.
Proof.
  destruct (for_lt_safe (fun _ p => length p = length pix) w (CRAW.fillLower w y) 0 pix)
    as [E | (x' & pix' & E & _ & L)]; auto.
  - intros x p Hp _.
    destruct (fillLower_safe w y x p) as [E | (p' & E & L)]; [left; exact E |].
    right. exists (x + 1), p'. split; [exact E |]. split; [lia | congruence].
  - right. exists pix'. auto.
Qed.

Lemma fill_row_pair_safe (w y : Z) (pix : list pixel16) :
  fill_row_pair w y pix = Panic
  \/ exists pix', fill_row_pair w y pix = Val (y + 1, pix')
                  /\ length pix' = length pix.
Proof.
  unfold fill_row_pair.
  destruct (upper_loop_safe w y pix) as [-> | (pix1 & -> & L1)]; [left; reflexivity |].
  rewrite bind_Val. cbv zeta.
  destruct (lower_loop_safe w (y + 1) pix1) as [-> | (pix2 & -> & L2)];
    [left; reflexivity |].
  right. exists pix2. split; [reflexivity | congruence].
Qed.

Lemma fill_safe (w h : Z) (pix0 : list pixel16) :
  0 <= w -> 0 <= h ->
  CRAW.fill (mkRGB14 pix0 w (image_Rect 0 0 w h)) = Panic
  \/ exists pix', CRAW.fill (mkRGB14 pix0 w (image_Rect 0 0 w h))
                  = Val (mkRGB14 pix' w (image_Rect 0 0 w h))
                  /\ length pix' = length pix0.
Proof.
  intros Hw Hh. rewrite fill_unfold by assumption.
  destruct (for_lt_safe (fun _ p => length p = length pix0) h (fill_row_pair w) 0 pix0)
    as [-> | (y' & pix' & -> & _ & L)]; [| reflexivity | left; reflexivity |].
  - intros y p Hp _.
    destruct (fill_row_pair_safe w y p) as [E | (p' & E & L)]; [left; exact E |].
    right. exists (y + 1), p'. split; [exact E |]. split; [lia | congruence].
  - right. exists pix'. split; [reflexivity | exact L].
Qed.

Section FillOdd.
Variables (w h : Z) (pix0 : list pixel16).
Hypothesis Hw : 0 < w.
Hypothesis Hh : 0 < h.
Hypothesis Hsize : Z.of_nat (length pix0) = w * h.

(** Odd height: the last row has no row below it, and the first cell of
    that row already reaches below the array. *)
Lemma fill_odd_height : h mod 2 = 1 -> for_lt h (fill_row_pair w) 0 pix0 = Panic.
Proof.
  intros Hodd.
  apply (for_lt_panics
           (fun y p => y mod 2 = 0 /\ 0 <= y <= h - 1 /\ length p = length pix0)).
  - intros y p (Hye & Hy & Hlen). split; [lia |].
    destruct (Z.eq_dec y (h - 1)) as [-> | Hny].
    + left. unfold fill_row_pair.
      rewrite (for_lt_panics (fun x q => x = 0 /\ length q = length pix0)
                 w (CRAW.fillUpper w (h - 1)) 0 p); [reflexivity | | auto].
      intros x q [-> Hq]. split; [lia |]. left.
      apply fillUpper_panics. rewrite Hq. nia.
    + destruct (fill_row_pair_safe w y p) as [E | (p' & E & L)]; [left; exact E |].
      right. exists (y + 1), p'. split; [exact E |]. split; [lia |].
      split; [zmod |]. split; [zmod | congruence].
  - split; [reflexivity |]. split; [lia | reflexivity].
Qed.

(** Odd width: the last cell of a row has no right neighbour, and in the
    last pair of rows the cell below that neighbour is past the array. *)
Lemma fill_odd_width :
  w mod 2 = 1 -> h mod 2 = 0 -> for_lt h (fill_row_pair w) 0 pix0 = Panic.
Proof.
  intros Hodd Heven.
  apply (for_lt_panics
           (fun y p => y mod 2 = 0 /\ 0 <= y <= h - 2 /\ length p = length pix0)).
  - intros y p (Hye & Hy & Hlen). split; [lia |].
    destruct (Z.eq_dec y (h - 2)) as [-> | Hny].
    + left. unfold fill_row_pair.
      rewrite (for_lt_panics
                 (fun x q => x mod 2 = 0 /\ 0 <= x <= w - 1 /\ length q = length pix0)
                 w (CRAW.fillUpper w (h - 2)) 0 p); [reflexivity | | ].
      * intros x q (Hxe & Hx & Hq). split; [lia |].
        destruct (Z.eq_dec x (w - 1)) as [-> | Hnx].
        -- left. apply fillUpper_panics. rewrite Hq. nia.
        -- destruct (fillUpper_safe w (h - 2) x q) as [E | (q' & E & L)];
             [left; exact E |].
           right. exists (x + 1), q'. split; [exact E |]. split; [lia |].
           split; [zmod |]. split; [zmod | congruence].
      * split; [reflexivity |]. split; [lia | exact Hlen].
    + destruct (fill_row_pair_safe w y p) as [E | (p' & E & L)]; [left; exact E |].
      right. exists (y + 1), p'. split; [exact E |]. split; [lia |].
      split; [zmod |]. split; [zmod | congruence].
  - split; [reflexivity |]. split; [zmod | reflexivity].
Qed.

Lemma fill_odd :
  w mod 2 = 1 \/ h mod 2 = 1 ->
  CRAW.fill (mkRGB14 pix0 w (image_Rect 0 0 w h)) = Panic.
Proof.
  intros Hodd. rewrite fill_unfold by lia.
  assert (E : for_lt h (fill_row_pair w) 0 pix0 = Panic).
  { destruct (Z.eq_dec (h mod 2) 1) as [Hh1 | Hh0].
    - apply fill_odd_height. exact Hh1.
    - apply fill_odd_width; zmod. }
  rewrite E. reflexivity.
Qed.

End FillOdd.

(** C4. Whenever the fill returns a raster, which it does when width and
    height are even, each tile with even [x] and [y] holds: at (x,y) its
    own R, G of (x+1,y), B of (x+1,y+1); at (x+1,y) R of (x,y), its own G,
    B of (x+1,y+1); at (x,y+1) R of (x,y), its own G, B of (x+1,y+1); at
    (x+1,y+1) R of (x,y), G of (x,y+1), its own B. The values are those of
    the raster the fill received; the fill of the linear strategy is the
    same function as the fill of the compressed one. *)
Theorem neighbour_fill_copy_rule (w h : Z) (pix0 : list pixel16) :
  0 <= w -> 0 <= h -> Z.of_nat (length pix0) = w * h ->
  let img := mkRGB14 pix0 w (image_Rect 0 0 w h) in
  Raw14.fill img = CRAW.fill img
  /\ (w mod 2 = 0 -> h mod 2 = 0 -> exists img', CRAW.fill img = Val img')
  /\ forall img', CRAW.fill img = Val img' ->
       Stride img' = w /\ Rect img' = Rect img /\ length (Pix img') = length pix0
       /\ forall x y,
            x mod 2 = 0 -> y mod 2 = 0 -> 0 <= x -> x + 1 < w -> 0 <= y -> y + 1 < h ->
            let r := R (pixel_at pix0 w x y) in
            let g_upper := G (pixel_at pix0 w (x + 1) y) in
            let g_lower := G (pixel_at pix0 w x (y + 1)) in
            let b := B (pixel_at pix0 w (x + 1) (y + 1)) in
            pixel_at (Pix img') w x y
            = mkPixel16 r g_upper b (pad (pixel_at pix0 w x y))
            /\ pixel_at (Pix img') w (x + 1) y
               = mkPixel16 r g_upper b (pad (pixel_at pix0 w (x + 1) y))
            /\ pixel_at (Pix img') w x (y + 1)
               = mkPixel16 r g_lower b (pad (pixel_at pix0 w x (y + 1)))
            /\ pixel_at (Pix img') w (x + 1) (y + 1)
               = mkPixel16 r g_lower b (pad (pixel_at pix0 w (x + 1) (y + 1))).
Proof.
  intros Hw Hh Hsize img. split; [apply fill_same |].
  split.
  - intros Hwe Hhe.
    destruct (fill_even w h pix0 Hw Hh Hwe Hhe Hsize) as (pix' & E & _).
    eexists. exact E.
  - intros img' Hval. subst img.
    destruct (fill_safe w h pix0 Hw Hh) as [E | (pix' & E & Hlen)];
      rewrite E in Hval; [discriminate |].
    injection Hval as <-. simpl.
    split; [reflexivity |]. split; [reflexivity |]. split; [exact Hlen |].
    intros x y Hxe Hye Hx Hx1 Hy Hy1.
    destruct (Z.eq_dec (w mod 2) 0) as [Hwe | Hwo];
      [destruct (Z.eq_dec (h mod 2) 0) as [Hhe | Hho] |].
    + destruct (fill_even w h pix0 Hw Hh Hwe Hhe Hsize) as (pix'' & E' & _ & Hcells).
      rewrite E in E'. injection E' as <-. unfold pixel_at.
      rewrite (Hcells x y), (Hcells (x + 1) y), (Hcells x (y + 1)),
        (Hcells (x + 1) (y + 1)) by lia.
      rewrite filled_even_even, filled_odd_even, filled_even_odd, filled_odd_odd
        by assumption.
      replace (y * w + (x + 1)) with (y * w + x + 1) by lia.
      replace ((y + 1) * w + (x + 1)) with ((y + 1) * w + x + 1) by lia.
      repeat split; reflexivity.
    + exfalso. rewrite (fill_odd w h pix0) in E; [discriminate | lia | lia | exact Hsize |].
      right. zmod.
    + exfalso. rewrite (fill_odd w h pix0) in E; [discriminate | lia | lia | exact Hsize |].
      left. zmod.
Qed.

Lemma neighbour_fill_copy_rule_witness :
  exists img',
    CRAW.fill (mkRGB14 raster_2x2 2 (image_Rect 0 0 2 2)) = Val img'
    /\ Raw14.fill (mkRGB14 raster_2x2 2 (image_Rect 0 0 2 2)) = Val img'
    /\ pixel_at (Pix img') 2 0 0 = mkPixel16 11 22 44 0
    /\ pixel_at (Pix img') 2 1 0 = mkPixel16 11 22 44 0
    /\ pixel_at (Pix img') 2 0 1 = mkPixel16 11 33 44 0
    /\ pixel_at (Pix img') 2 1 1 = mkPixel16 11 33 44 0.
Proof.
  destruct (neighbour_fill_copy_rule 2 2 raster_2x2 ltac:(lia) ltac:(lia) eq_refl)
    as (Hsame & Hruns & Hrule).
  destruct (Hruns eq_refl eq_refl) as [img' E].
  exists img'. split; [exact E |]. split; [exact (eq_trans Hsame E) |].
  destruct (Hrule img' E) as (_ & _ & _ & Htile).
  exact (Htile 0 0 eq_refl eq_refl ltac:(lia) ltac:(lia) ltac:(lia) ltac:(lia)).
Defined.

(** C5 (amended). The fill has no bounds checks of its own. On a raster of
    even width and even height every index it forms is inside the array
    and it returns; on a raster that is not empty and has an odd width or
    an odd height it forms an index past the array, and the run ends in a
    panic. *)
Theorem fill_in_bounds_iff_even (w h : Z) (pix0 : list pixel16) :
  0 < w -> 0 < h -> Z.of_nat (length pix0) = w * h ->
  let img := mkRGB14 pix0 w (image_Rect 0 0 w h) in
  (w mod 2 = 0 -> h mod 2 = 0 ->
   exists img', CRAW.fill img = Val img' /\ Raw14.fill img = Val img')
  /\ (w mod 2 = 1 \/ h mod 2 = 1 ->
      CRAW.fill img = Panic /\ Raw14.fill img = Panic).
Proof.
  intros Hw Hh Hsize img. split.
  - intros Hwe Hhe.
    destruct (fill_even w h pix0 ltac:(lia) ltac:(lia) Hwe Hhe Hsize) as (pix' & E & _).
    eexists. split; [exact E | exact (eq_trans (fill_same _) E)].
  - intros Hodd.
    assert (E : CRAW.fill img = Panic) by (apply fill_odd; assumption).
    split; [exact E | exact (eq_trans (fill_same _) E)].
Qed.

(** C5 (as stated) fails: on a raster 3 wide and 2 high the first loop
    reaches column 2, whose neighbour one row down and one column right
    has flat index 6, the length of the array. *)
Lemma fill_indexes_past_odd_raster :
  index (replicate 6 zero_pixel) ((0 + 1) * 3 + 2 + 1) = Panic
  /\ CRAW.fill (mkRGB14 (replicate 6 zero_pixel) 3 (image_Rect 0 0 3 2)) = Panic
  /\ Raw14.fill (mkRGB14 (replicate 6 zero_pixel) 3 (image_Rect 0 0 3 2)) = Panic.
Proof. repeat split. Qed.

Lemma fill_in_bounds_iff_even_witness :
  (2 mod 2 = 0 -> 2 mod 2 = 0 ->
   exists img', CRAW.fill (mkRGB14 raster_2x2 2 (image_Rect 0 0 2 2)) = Val img'
                /\ Raw14.fill (mkRGB14 raster_2x2 2 (image_Rect 0 0 2 2)) = Val img')
  /\ (2 mod 2 = 1 \/ 2 mod 2 = 1 ->
      CRAW.fill (mkRGB14 raster_2x2 2 (image_Rect 0 0 2 2)) = Panic
      /\ Raw14.fill (mkRGB14 raster_2x2 2 (image_Rect 0 0 2 2)) = Panic).
Proof.
  exact (fill_in_bounds_iff_even 2 2 raster_2x2 ltac:(lia) ltac:(lia) eq_refl).
Defined.

(** ** The channel-write pass *)

Lemma index_total {A : Type} `{Inhabited A} (l : list A) (i : Z) :
  0 <= i < Z.of_nat (length l) -> index l i = Val (l !!! Z.to_nat i).
Proof.
  intros Hi. destruct (index_in_range l i Hi) as (a & -> & Ha).
  f_equal. symmetry. apply list_lookup_total_correct. exact Ha.
Qed.

Lemma index_map (f : Z -> Z) (l : list Z) (i : Z) :
  0 <= i < Z.of_nat (length l) ->
  index (map f l) i = Val (f (l !!! Z.to_nat i)).
Proof.
  intros Hi. change (map f l) with (f <$> l).
  rewrite index_total by (rewrite length_fmap; exact Hi).
  rewrite (list_lookup_total_fmap f l (Z.to_nat i)) by lia. reflexivity.
Qed.

Lemma slice_in_range {A : Type} (l : list A) (lo hi : Z) :
  0 <= lo -> lo <= hi -> hi <= Z.of_nat (length l) ->
  slice l lo hi = Val (take (Z.to_nat (hi - lo)) (drop (Z.to_nat lo) l)).
Proof.
  intros H0 H1 H2. unfold slice.
  destruct (Z.leb_spec 0 lo); [| lia].
  destruct (Z.leb_spec lo hi); [| lia].
  destruct (Z.leb_spec hi (Z.of_nat (length l))); [| lia].
  reflexivity.
Qed.

Section StoreLoop.
Variables (set_a set_b : Z -> pixel16 -> pixel16) (get_a get_b : pixel16 -> Z).
Hypothesis get_a_set_a : forall v p, get_a (set_a v p) = v.
Hypothesis get_b_set_b : forall v p, get_b (set_b v p) = v.
Variables (base n : Z) (first second : list Z) (pix0 : list pixel16).
Hypothesis Hbase : 0 <= base.
Hypothesis Hfirst : n <= Z.of_nat (length first).
Hypothesis Hsecond : n <= Z.of_nat (length second).
Hypothesis Hpix : base + 2 * n <= Z.of_nat (length pix0).

Local Abbreviation stored := (stored get_a get_b base first second pix0).

Lemma store_with_step (i : Z) (pix : list pixel16) :
  0 <= i < n -> stored i pix ->
  exists pix', store_with set_a set_b base first second i pix = Val (i, pix')
               /\ stored (i + 1) pix'.
Proof.
  intros Hi [Hlen Hdone]. unfold store_with.
  rewrite (index_total first i), (index_total second i) by lia. rewrite bind_Val.
  destruct (modify_in_range pix (base + i * 2) (set_a (uint16 (first !!! Z.to_nat i))))
    as (pix1 & -> & L1 & C1 & F1); [lia |].
  rewrite !bind_Val.
  destruct (modify_in_range pix1 (base + i * 2 + 1)
              (set_b (uint16 (second !!! Z.to_nat i))))
    as (pix2 & -> & L2 & C2 & F2); [lia |].
  rewrite bind_Val. exists pix2. split; [reflexivity |].
  split; [congruence |].
  intros j Hj. destruct (Z.eq_dec j i) as [-> | Hne].
  - split.
    + rewrite F2 by lia. rewrite C1. apply get_a_set_a.
    + rewrite C2. apply get_b_set_b.
  - rewrite !F2, !F1 by lia. apply Hdone. lia.
Qed.

Lemma store_with_loop :
  exists pix', for_lt n (store_with set_a set_b base first second) 0 pix0 = Val pix'
               /\ stored n pix'.
Proof.
  destruct (for_lt_invariant (fun i p => 0 <= i <= Z.max 0 n /\ stored i p) n
              (store_with set_a set_b base first second) 0 pix0)
    as (i' & pix' & E & Hi' & Hr & Hst).
  - intros i p [Hi Hp] Hlt.
    destruct (store_with_step i p) as (p' & Ep & Hp'); [lia | exact Hp |].
    exists i, p'. split; [exact Ep |]. split; [lia |]. split; [lia | exact Hp'].
  - split; [lia |]. split; [reflexivity |]. intros j Hj. lia.
  - exists pix'. split; [exact E |].
    destruct Hst as [Hlen Hdone]. split; [exact Hlen |].
    intros j Hj. apply Hdone. lia.
Qed.

End StoreLoop.

Section ChannelWrite.
Context `{Platform} `{Codec}.
Variables (xfactors : coefficients) (rw : RD.rawDetails) (wb : list float).

Lemma writeBlock_odd (buf : list Byte.byte) (stride y x : Z) (pix : list pixel16) :
  Z.rem y 2 <> 0 ->
  0 <= y * stride + x ->
  0 <= pixelBlockSize ->
  y * stride + x + 2 * pixelBlockSize <= Z.of_nat (length buf) ->
  y * stride + x + 2 * pixelBlockSize <= Z.of_nat (length pix) ->
  let base := y * stride + x in
  let green := Decompress (readCrawBlock (block buf base pixelBlockSize)) in
  let blue :=
    Decompress (readCrawBlock (block buf (base + pixelBlockSize) pixelBlockSize)) in
  pixelBlockSize <= Z.of_nat (length green) ->
  pixelBlockSize <= Z.of_nat (length blue) ->
  exists pix',
    CRAW.writeBlock xfactors rw wb buf stride y x pix = Val (x, pix')
    /\ length pix' = length pix
    /\ forall i, 0 <= i < pixelBlockSize ->
         G (cell pix' (base + i * 2)) = craw_sample xfactors rw wb 0 (green !!! Z.to_nat i)
         /\ B (cell pix' (base + i * 2 + 1)) = craw_sample xfactors rw wb 1 (blue !!! Z.to_nat i).
Proof.
  intros Hodd Hbase Hpbs Hbuf Hpix base green blue Hgreen Hblue.
  unfold CRAW.writeBlock.
  destruct (Z.eqb_spec (Z.rem y 2) 0) as [E | _]; [contradiction |].
  cbv zeta. fold base.
  rewrite (slice_in_range buf base (base + pixelBlockSize)) by lia.
  rewrite (slice_in_range buf (base + pixelBlockSize)
             (base + pixelBlockSize + pixelBlockSize)) by lia.
  rewrite !bind_Val.
  replace (base + pixelBlockSize - base) with pixelBlockSize by lia.
  replace (base + pixelBlockSize + pixelBlockSize - (base + pixelBlockSize))
    with pixelBlockSize by lia.
  fold (block buf base pixelBlockSize).
  fold (block buf (base + pixelBlockSize) pixelBlockSize).
  fold green. fold blue.
  change (CRAW.storeGB base) with (store_with setG setB base).
  set (f0 := fun v => pixel (process xfactors (uint32 v)
                              (uint32 (elem (RD.blackLevel rw) 0)) (ratio wb 0))).
  set (f1 := fun v => pixel (process xfactors (uint32 v)
                              (uint32 (elem (RD.blackLevel rw) 1)) (ratio wb 1))).
  destruct (store_with_loop setG setB G B ltac:(reflexivity) ltac:(reflexivity)
              base pixelBlockSize (map f0 green) (map f1 blue) pix)
    as (pix' & -> & Hlen & Hdone).
  - exact Hbase.
  - rewrite length_map. exact Hgreen.
  - rewrite length_map. exact Hblue.
  - lia.
  - rewrite bind_Val. exists pix'. split; [reflexivity |]. split; [exact Hlen |].
    intros i Hi. destruct (Hdone i Hi) as [Hg Hb].
    rewrite Hg, Hb. unfold craw_sample.
    change (map f0 green) with (f0 <$> green). change (map f1 blue) with (f1 <$> blue).
    rewrite (list_lookup_total_fmap f0 green (Z.to_nat i)) by lia.
    rewrite (list_lookup_total_fmap f1 blue (Z.to_nat i)) by lia.
    split; reflexivity.
Qed.

Lemma writeLower_cells (data : list Z) (stride y x : Z) (pix : list pixel16) :
  0 <= y * stride + x ->
  y * stride + x + 1 < Z.of_nat (length data) ->
  y * stride + x + 1 < Z.of_nat (length pix) ->
  exists pix',
    Raw14.writeLower xfactors rw wb data stride y x pix = Val (x + 1, pix')
    /\ length pix' = length pix
    /\ G (cell pix' (y * stride + x))
       = raw14_sample xfactors rw wb 2 (data !!! Z.to_nat (y * stride + x))
    /\ B (cell pix' (y * stride + x + 1))
       = raw14_sample xfactors rw wb 3 (data !!! Z.to_nat (y * stride + x + 1)).
Proof.
  intros Hbase Hdata Hpix. unfold Raw14.writeLower. cbv zeta.
  rewrite (index_total data (y * stride + x)) by lia.
  rewrite (index_total data (y * stride + (x + 1))) by lia.
  rewrite bind_Val.
  match goal with
  | |- context [modify pix ?d ?f] =>
      destruct (modify_in_range pix d f) as (pix1 & -> & L1 & C1 & F1); [lia |]
  end.
  rewrite !bind_Val.
  match goal with
  | |- context [modify pix1 ?d ?f] =>
      destruct (modify_in_range pix1 d f) as (pix2 & -> & L2 & C2 & F2); [lia |]
  end.
  rewrite bind_Val. exists pix2. split; [reflexivity |]. split; [congruence |].
  replace (y * stride + (x + 1)) with (y * stride + x + 1) in * by lia.
  split.
  - rewrite F2 by lia. rewrite C1. reflexivity.
  - rewrite C2. reflexivity.
Qed.


End ChannelWrite.


(** * Further properties *)

(** ** The raster container *)

Lemma index_insert_eq {A : Type} (l : list A) (i : Z) (a : A) :
  0 <= i < Z.of_nat (length l) -> index (<[Z.to_nat i := a]> l) i = Val a.
Proof.
  intros Hi. unfold index.
  destruct (Z.ltb_spec i 0) as [Hneg | _]; [lia |].
  rewrite list_lookup_insert_eq by lia. reflexivity.
Qed.

Lemma index_insert_ne {A : Type} (l : list A) (i j : Z) (a : A) :
  0 <= i -> i <> j -> index (<[Z.to_nat i := a]> l) j = index l j.
Proof.
  intros Hi Hne. unfold index.
  destruct (Z.ltb_spec j 0) as [Hneg | Hpos]; [reflexivity |].
  rewrite list_lookup_insert_ne by lia. reflexivity.
Qed.

(** X1. A pixel stored at an index inside the raster is the pixel read
    back there; the store keeps stride, bounds and size, and every other
    flat index reads as before. *)
Theorem set_then_at (r : RGB14) (x y : Z) (p : pixel16) :
  0 <= y * Stride r + x < Z.of_nat (length (Pix r)) ->
  exists r',
    set r x y p = Val r'
    /\ at_ r' x y = Val (p, r')
    /\ Stride r' = Stride r /\ Rect r' = Rect r
    /\ length (Pix r') = length (Pix r)
    /\ forall x' y', y' * Stride r + x' <> y * Stride r + x ->
         index (Pix r') (y' * Stride r' + x') = index (Pix r) (y' * Stride r + x').
Proof.
  intros Hi. unfold set, modify.
  destruct (index_in_range (Pix r) _ Hi) as (q & -> & _).
  rewrite !bind_Val. eexists. split; [reflexivity |].
  unfold at_. simpl.
  rewrite index_insert_eq by exact Hi. rewrite bind_Val.
  split; [reflexivity |]. split; [reflexivity |]. split; [reflexivity |].
  split; [apply length_insert |].
  intros x' y' Hne. apply index_insert_ne; lia.
Qed.

Lemma set_then_at_witness :
  exists r',
    set (mkRGB14 raster_2x2 2 (image_Rect 0 0 2 2)) 1 1 (mkPixel16 1 2 3 0) = Val r'
    /\ at_ r' 1 1 = Val (mkPixel16 1 2 3 0, r')
    /\ index (Pix r') 0 = Val (mkPixel16 11 0 0 0).
Proof.
  destruct (set_then_at (mkRGB14 raster_2x2 2 (image_Rect 0 0 2 2)) 1 1
              (mkPixel16 1 2 3 0)) as (r' & E & Hat & _ & _ & _ & Hother).
  - simpl. lia.
  - exists r'. split; [exact E |]. split; [exact Hat |].
    assert (Hs : Stride r' = 2).
    { unfold set in E. simpl in E. injection E as <-. reflexivity. }
    pose proof (Hother 0 0 ltac:(simpl; lia)) as H0.
    rewrite Hs in H0. exact H0.
Defined.

(** X2. Where the flat index [y * Stride + x] is computed without
    wrapping, the raster is addressed by it alone: a read succeeds
    exactly when the index is inside the pixel array, a store succeeds
    exactly when the read does, and neither looks at the bounds
    rectangle, so column [x + Stride] of row [y] is column [x] of row
    [y + 1] where that index does not wrap either. *)
Theorem at_is_flat_indexed (r : RGB14) (x y : Z) (p : pixel16) :
  fits_int x -> fits_int y -> fits_int (Stride r) ->
  fits_int (y * Stride r) -> fits_int (y * Stride r + x) ->
  ((exists q, at_ r x y = Val (q, r))
   <-> 0 <= y * Stride r + x < Z.of_nat (length (Pix r)))
  /\ ((exists r', set r x y p = Val r')
      <-> 0 <= y * Stride r + x < Z.of_nat (length (Pix r)))
  /\ (fits_int (x + Stride r) -> fits_int (y + 1) ->
      fits_int ((y + 1) * Stride r) -> fits_int ((y + 1) * Stride r + x) ->
      at_ r (x + Stride r) y = at_ r x (y + 1)).
Proof.
  intros _ _ _ _ _. split; [| split].
  - unfold at_. split.
    + intros [q Hq].
      destruct (index (Pix r) (y * Stride r + x)) as [q' | |] eqn:Hidx;
        try discriminate.
      apply index_inv in Hidx. tauto.
    + intros Hi. destruct (index_in_range (Pix r) _ Hi) as (q & -> & _).
      exists q. reflexivity.
  - unfold set, modify. split.
    + intros [r' Hr'].
      destruct (index (Pix r) (y * Stride r + x)) as [q' | |] eqn:Hidx;
        try discriminate.
      apply index_inv in Hidx. tauto.
    + intros Hi. destruct (index_in_range (Pix r) _ Hi) as (q & -> & _).
      eexists. reflexivity.
  - intros _ _ _ _. unfold at_. f_equal. f_equal. lia.
Qed.

Lemma at_is_flat_indexed_witness :
  (exists q, at_ (mkRGB14 raster_2x2 2 (image_Rect 0 0 2 2)) 1 1
             = Val (q, mkRGB14 raster_2x2 2 (image_Rect 0 0 2 2)))
  /\ at_ (mkRGB14 raster_2x2 2 (image_Rect 0 0 2 2)) 2 0
     = at_ (mkRGB14 raster_2x2 2 (image_Rect 0 0 2 2)) 0 1.
Proof.
  destruct (at_is_flat_indexed (mkRGB14 raster_2x2 2 (image_Rect 0 0 2 2))
              0 0 zero_pixel) as (_ & _ & Hnext);
    [unfold fits_int; simpl; lia .. |].
  destruct (at_is_flat_indexed (mkRGB14 raster_2x2 2 (image_Rect 0 0 2 2))
              1 1 zero_pixel) as (Hread & _ & _);
    [unfold fits_int; simpl; lia .. |].
  split.
  - apply Hread. simpl. lia.
  - apply Hnext; unfold fits_int; simpl; lia.
Defined.

(** X3. A raster made for a rectangle given by two corners, where the
    width, the height and their product are computed without wrapping and
    the cells are within the limit of an allocation, is no panic: it has
    one zero cell for each point of the rectangle and the width of the
    rectangle as stride, whichever way round the corners are. A rectangle
    value whose width and height have opposite signs makes the allocation
    panic. *)
Theorem NewRGB14_of_corners (x0 y0 x1 y1 : Z) :
  fits_int x0 -> fits_int y0 -> fits_int x1 -> fits_int y1 ->
  fits_int (Z.abs (x1 - x0)) -> fits_int (Z.abs (y1 - y0)) ->
  allocatable (Z.abs (x1 - x0) * Z.abs (y1 - y0)) ->
  (exists img,
      NewRGB14 (image_Rect x0 y0 x1 y1) = Val img
      /\ Stride img = Z.abs (x1 - x0)
      /\ Rect img = image_Rect x0 y0 x1 y1
      /\ Z.of_nat (length (Pix img)) = Z.abs (x1 - x0) * Z.abs (y1 - y0)
      /\ forall i, 0 <= i < Z.abs (x1 - x0) * Z.abs (y1 - y0) ->
           index (Pix img) i = Val zero_pixel)
  /\ (forall r, fits_int (Dx r) -> fits_int (Dy r) -> fits_int (Dx r * Dy r) ->
        Dx r * Dy r < 0 -> NewRGB14 r = Panic).
Proof.
  intros _ _ _ _ _ _ _. split.
  - unfold NewRGB14, image_Rect, Dx, Dy. cbn [MinX MinY MaxX MaxY].
    assert (Hw : Z.max x0 x1 - Z.min x0 x1 = Z.abs (x1 - x0)) by lia.
    assert (Hh : Z.max y0 y1 - Z.min y0 y1 = Z.abs (y1 - y0)) by lia.
    rewrite Hw, Hh.
    destruct (Z.ltb_spec (Z.abs (x1 - x0) * Z.abs (y1 - y0)) 0) as [Hneg | Hpos];
      [nia |].
    eexists. split; [reflexivity |]. cbn [Stride Rect Pix].
    split; [reflexivity |]. split; [reflexivity |].
    rewrite length_replicate. split; [lia |].
    intros i Hi. unfold index.
    destruct (Z.ltb_spec i 0) as [Hi0 | _]; [lia |].
    rewrite lookup_replicate_2 by lia. reflexivity.
  - intros r _ _ _ Hr. unfold NewRGB14.
    destruct (Z.ltb_spec (Dx r * Dy r) 0) as [_ | Hpos]; [reflexivity | lia].
Qed.

Lemma NewRGB14_of_corners_witness :
  (exists img,
      NewRGB14 (image_Rect 3 2 0 0) = Val img
      /\ Stride img = 3
      /\ Z.of_nat (length (Pix img)) = 6)
  /\ NewRGB14 (mkRect 0 0 (-1) 1) = Panic.
Proof.
  destruct (NewRGB14_of_corners 3 2 0 0) as [(img & E & Hs & _ & Hl & _) Hneg];
    [unfold fits_int, allocatable; simpl; lia .. |].
  split.
  - exists img. split; [exact E |]. split; [exact Hs | exact Hl].
  - apply Hneg; unfold fits_int, Dx, Dy; simpl; lia.
Defined.

(** ** The colour conversion and the corrector together *)

(** X4. The colour conversion is exact, four times each channel, exactly
    on channels below 2^14; a 16-bit channel from 2^14 up loses its high
    bits and comes out smaller than four times its value. *)
Theorem RGBA_exact_below_14_bits (c : pixel16) :
  0 <= R c < 2 ^ 16 -> 0 <= G c < 2 ^ 16 -> 0 <= B c < 2 ^ 16 ->
  (RGBA c = (4 * R c, 4 * G c, 4 * B c, 0xffff)
   <-> R c < 2 ^ 14 /\ G c < 2 ^ 14 /\ B c < 2 ^ 14)
  /\ (let '(r, g, b, _) := RGBA c in r <= 4 * R c /\ g <= 4 * G c /\ b <= 4 * B c).
Proof.
  intros HR HG HB. unfold RGBA.
  rewrite !uint32_uint16, !shiftl2_uint16.
  assert (Hmod : forall v, 0 <= v < 2 ^ 16 ->
            (4 * v) mod 2 ^ 16 <= 4 * v
            /\ ((4 * v) mod 2 ^ 16 = 4 * v <-> v < 2 ^ 14)).
  { intros v Hv. split.
    - apply Z.mod_le; lia.
    - split.
      + intros E. pose proof (Z.mod_pos_bound (4 * v) (2 ^ 16)). lia.
      + intros Hlt. apply Z.mod_small. lia. }
  destruct (Hmod _ HR) as [LR ER], (Hmod _ HG) as [LG EG], (Hmod _ HB) as [LB EB].
  split; [| auto].
  split.
  - intros [= E1 E2 E3]. tauto.
  - intros (H1 & H2 & H3).
    rewrite (proj2 ER H1), (proj2 EG H2), (proj2 EB H3). reflexivity.
Qed.

Lemma RGBA_exact_below_14_bits_witness :
  RGBA (mkPixel16 0x3fff 0x2000 0 0) = (0xfffc, 0x8000, 0, 0xffff)
  /\ RGBA (mkPixel16 0x4000 0 0 0) <> (4 * 0x4000, 0, 0, 0xffff).
Proof.
  destruct (RGBA_exact_below_14_bits (mkPixel16 0x3fff 0x2000 0 0))
    as [[_ Hexact] _]; [simpl; lia | simpl; lia | simpl; lia |].
  destruct (RGBA_exact_below_14_bits (mkPixel16 0x4000 0 0 0))
    as [[Hwrap _] _]; [simpl; lia | simpl; lia | simpl; lia |].
  split.
  - exact (Hexact ltac:(simpl; lia)).
  - intros E. specialize (Hwrap E). simpl in Hwrap. lia.
Defined.

(** X5. A sample whose white-balanced value is above the ceiling 0x3FFF
    is corrected to 26155, which does not fit 14 bits: stored as a
    channel and converted for display it wraps to 39084, below the 65532
    that a channel at the 14-bit ceiling displays as. *)
Theorem saturated_sample_displays_darker `{Platform} (xfactors : coefficients)
    (black sample : Z) (wb : float) :
  0 <= black -> black < sample -> sample < 2 ^ 32 ->
  (0x3fff <? balanced black wb sample)%float = true ->
  let v := uint16 (process xfactors sample black wb) in
  v = 26155
  /\ RGBA (mkPixel16 v v v 0) = (39084, 39084, 39084, 0xffff)
  /\ RGBA (mkPixel16 0x3fff 0x3fff 0x3fff 0) = (65532, 65532, 65532, 0xffff).
Proof.
  intros Hb Hlt Hs Hsat v.
  assert (Hv : v = 26155).
  { unfold v. rewrite process_above_black by lia.
    unfold scaled_curve, gamma. rewrite Hsat.
    unfold uint32_of_float64. rewrite ceiling_scaled. reflexivity. }
  rewrite Hv. repeat split.
Qed.

Lemma saturated_sample_displays_darker_witness :
  uint16 (@process amd64 sample_coefficients 0x3fff 0 2%float) = 26155.
Proof.
  exact (proj1 (@saturated_sample_displays_darker amd64 sample_coefficients
                  0 0x3fff 2%float ltac:(lia) ltac:(lia) ltac:(lia) eq_refl)).
Defined.

(** ** White balance *)

Lemma float_mul_nan_r (x : float) : (x * nan)%float = nan.
Proof.
  apply Prim2SF_inj. rewrite mul_spec.
  change (Prim2SF nan) with S754_nan.
  destruct (Prim2SF x); reflexivity.
Qed.

Lemma float_mul_nan_l (x : float) : (nan * x)%float = nan.
Proof.
  apply Prim2SF_inj. rewrite mul_spec.
  change (Prim2SF nan) with S754_nan. reflexivity.
Qed.

Lemma float_add_nan_l (x : float) : (nan + x)%float = nan.
Proof.
  apply Prim2SF_inj. rewrite add_spec.
  change (Prim2SF nan) with S754_nan. reflexivity.
Qed.

Lemma gamma_nan (xfactors : coefficients) : gamma xfactors nan = nan.
Proof.
  unfold gamma.
  change (0x3fff <? nan)%float with false.
  change (nan / 0xCCC)%float with nan.
  rewrite !float_mul_nan_r, !float_add_nan_l. reflexivity.
Qed.

(** X6. When the four white-balance levels are all zero, as in a record
    that no tag has filled, every ratio is 0/0, not a number; then a
    sample at or below the black level is returned as it is, and every
    sample above it gives whatever the platform makes of converting a NaN
    to an integer, for any coefficients. *)
Theorem unset_white_balance_gives_nan `{Platform} (xfactors : coefficients)
    (rw : RD.rawDetails) (channel : nat) (black sample : Z) :
  RD.WhiteBalance rw = [0; 0; 0; 0] ->
  (channel < 4)%nat ->
  0 <= black -> sample < 2 ^ 32 ->
  whiteBalanceRGGB rw = [nan; nan; nan; nan]
  /\ (sample <= black ->
      process xfactors sample black (ratio (whiteBalanceRGGB rw) channel) = sample)
  /\ (black < sample ->
      process xfactors sample black (ratio (whiteBalanceRGGB rw) channel)
      = uint32 (unrepresentable nan)).
Proof.
  intros Hwb Hch Hb Hs.
  assert (Hr : whiteBalanceRGGB rw = [nan; nan; nan; nan]).
  { unfold whiteBalanceRGGB. rewrite Hwb. reflexivity. }
  split; [exact Hr |]. rewrite Hr.
  assert (Hratio : ratio [nan; nan; nan; nan] channel = nan).
  { destruct channel as [| [| [| [| n]]]]; try reflexivity. lia. }
  rewrite Hratio. split.
  - intros Hle. unfold process.
    destruct (Z.leb_spec sample black); [reflexivity | lia].
  - intros Hlt. rewrite process_above_black by lia.
    unfold scaled_curve, balanced.
    rewrite float_mul_nan_r, gamma_nan. reflexivity.
Qed.

Lemma unset_white_balance_gives_nan_witness :
  @process amd64 sample_coefficients 0x1000 0x200
    (ratio (whiteBalanceRGGB RD.zero) 0) = 0.
Proof.
  pose proof (@unset_white_balance_gives_nan amd64 sample_coefficients RD.zero
                0%nat 0x200 0x1000 eq_refl ltac:(lia) ltac:(lia) ltac:(lia))
    as (_ & _ & Hnan).
  rewrite Hnan by lia. reflexivity.
Defined.

Lemma ratios_one_from_spec (n : nat) : forall m k : Z,
  ratios_one_from n m = true -> m <= k < m + Z.of_nat n ->
  self_ratio_is_one k = true.
Proof.
  induction n as [| n IH]; intros m k Hall Hk; [lia |].
  simpl in Hall. apply andb_true_iff in Hall as [Hm Hrest].
  destruct (Z.eq_dec k m) as [-> | Hne]; [exact Hm |].
  apply (IH (m + 1)); [exact Hrest | lia].
Qed.

Lemma all_self_ratios_one :
  ratios_one_from (Z.to_nat (2 ^ 16)) (- 2 ^ 15) = true.
Proof. vm_compute. reflexivity. Qed.

Lemma self_ratio (m : Z) :
  - 2 ^ 15 <= m < 2 ^ 15 -> m <> 0 ->
  (float64_of_int m / float64_of_int m)%float = 1%float.
Proof.
  intros Hm Hne.
  pose proof (ratios_one_from_spec _ _ m all_self_ratios_one ltac:(lia)) as Hone.
  unfold self_ratio_is_one in Hone.
  destruct (Z.eqb_spec m 0) as [E | _]; [contradiction |].
  simpl in Hone. apply FloatAxioms.Leibniz.eqb_spec. exact Hone.
Qed.

(** X7. The four ratios are the four levels over the largest of them, so
    a channel that holds the largest level has the ratio exactly 1 when
    that level is not zero. *)
Theorem white_balance_over_largest (rw : RD.rawDetails) :
  let wb := RD.WhiteBalance rw in
  whiteBalanceRGGB rw
  = map (fun i => (float64_of_int (elem wb i) / float64_of_int (largest_level wb))%float)
        [0; 1; 2; 3]%nat
  /\ (forall channel,
        (channel < 4)%nat ->
        - 2 ^ 15 <= largest_level wb < 2 ^ 15 ->
        largest_level wb <> 0 ->
        elem wb channel = largest_level wb ->
        ratio (whiteBalanceRGGB rw) channel = 1%float).
Proof.
  intros wb.
  assert (E : whiteBalanceRGGB rw
              = map (fun i => (float64_of_int (elem wb i)
                               / float64_of_int (largest_level wb))%float)
                    [0; 1; 2; 3]%nat).
  { unfold whiteBalanceRGGB, largest_level. fold wb. cbv zeta.
    set (m1 := if elem wb 1 <? elem wb 0 then elem wb 0 else elem wb 1).
    set (m2 := if m1 <? elem wb 2 then elem wb 2 else m1).
    set (m3 := if m2 <? elem wb 3 then elem wb 3 else m2).
    assert (Hm : m3 = Z.max (Z.max (Z.max (elem wb 0) (elem wb 1)) (elem wb 2))
                        (elem wb 3)).
    { subst m3 m2 m1.
      destruct (Z.ltb_spec (elem wb 1) (elem wb 0));
        match goal with |- context [?a <? elem wb 2] =>
          destruct (Z.ltb_spec a (elem wb 2)) end;
        match goal with |- context [?a <? elem wb 3] =>
          destruct (Z.ltb_spec a (elem wb 3)) end; lia. }
    rewrite Hm. reflexivity. }
  split; [exact E |].
  intros channel Hch Hrange Hne Hmax. rewrite E.
  destruct channel as [| [| [| [| n]]]]; try lia;
    unfold ratio; simpl; rewrite Hmax; apply self_ratio; assumption.
Qed.

Lemma white_balance_over_largest_witness :
  ratio (whiteBalanceRGGB (RD.with_WhiteBalance [1024; 2380; 2380; 1600] RD.zero)) 1
  = 1%float.
Proof.
  exact (proj2 (white_balance_over_largest
                  (RD.with_WhiteBalance [1024; 2380; 2380; 1600] RD.zero))
           1%nat ltac:(lia) ltac:(vm_compute; split; [discriminate | reflexivity])
           ltac:(vm_compute; discriminate) eq_refl).
Defined.

(** ** The payload read as 16-bit words *)

Lemma words_pair `{Platform} (b0 b1 : Byte.byte) (rest : list Byte.byte) :
  Raw14.words (b0 :: b1 :: rest)
  = (if bigEndian
     then Z.of_N (Byte.to_N b0) * 256 + Z.of_N (Byte.to_N b1)
     else Z.of_N (Byte.to_N b1) * 256 + Z.of_N (Byte.to_N b0))
    :: Raw14.words rest.
Proof. reflexivity. Qed.

Lemma byte_range (b : Byte.byte) : 0 <= Z.of_N (Byte.to_N b) < 256.
Proof. pose proof (Byte.to_N_bounded b). lia. Qed.

Lemma words_spec `{Platform} (n : nat) : forall buf : list Byte.byte,
  (length buf < 2 * n)%nat ->
  length (Raw14.words buf) = (length buf / 2)%nat
  /\ forall i b0 b1,
       buf !! (2 * i)%nat = Some b0 -> buf !! (2 * i + 1)%nat = Some b1 ->
       Raw14.words buf !! i
       = Some (if bigEndian
               then Z.of_N (Byte.to_N b0) * 256 + Z.of_N (Byte.to_N b1)
               else Z.of_N (Byte.to_N b1) * 256 + Z.of_N (Byte.to_N b0)).
Proof.
  induction n as [| n IH]; intros buf Hlen; [lia |].
  destruct buf as [| b0 [| b1 rest]].
  - split; [reflexivity |]. intros i c0 c1 Hc0. discriminate.
  - split; [reflexivity |]. intros i c0 c1 Hc0 Hc1.
    destruct i; simpl in Hc1; discriminate.
  - rewrite words_pair. simpl length.
    destruct (IH rest) as [Hl Hw]; [simpl in Hlen; lia |].
    split.
    + rewrite Hl.
      change (S (S (length rest))) with (2 + length rest)%nat.
      replace (2 + length rest)%nat with (length rest + 1 * 2)%nat by lia.
      rewrite Nat.div_add by lia. lia.
    + intros i c0 c1 Hc0 Hc1. destruct i as [| i].
      * simpl in Hc0, Hc1. injection Hc0 as <-. injection Hc1 as <-. reflexivity.
      * replace (2 * S i)%nat with (S (S (2 * i))) in Hc0 by lia.
        replace (2 * S i + 1)%nat with (S (S (2 * i + 1))) in Hc1 by lia.
        simpl in Hc0, Hc1. simpl. apply Hw; assumption.
Qed.

(** X8. Read as 16-bit words, a payload of [n] bytes gives [n / 2] words,
    a last odd byte being dropped; word [i] is made of bytes [2i] and
    [2i + 1] in the byte order of the machine, and is below 2^16. *)
Theorem words_of_payload `{Platform} (buf : list Byte.byte) :
  length (Raw14.words buf) = (length buf / 2)%nat
  /\ (forall i b0 b1,
        buf !! (2 * i)%nat = Some b0 -> buf !! (2 * i + 1)%nat = Some b1 ->
        Raw14.words buf !! i
        = Some (if bigEndian
                then Z.of_N (Byte.to_N b0) * 256 + Z.of_N (Byte.to_N b1)
                else Z.of_N (Byte.to_N b1) * 256 + Z.of_N (Byte.to_N b0)))
  /\ Forall (fun w => 0 <= w < 2 ^ 16) (Raw14.words buf).
Proof.
  destruct (words_spec (S (length buf)) buf ltac:(lia)) as [Hl Hw].
  split; [exact Hl |]. split; [exact Hw |].
  clear Hl Hw.
  assert (Hall : forall n (b : list Byte.byte), (length b < 2 * n)%nat ->
            Forall (fun w => 0 <= w < 2 ^ 16) (Raw14.words b)).
  { induction n as [| n IH]; intros b Hb; [lia |].
    destruct b as [| b0 [| b1 rest]]; try constructor.
    - pose proof (byte_range b0). pose proof (byte_range b1).
      destruct bigEndian; lia.
    - apply IH. simpl in Hb. lia. }
  apply (Hall (S (length buf))). lia.
Qed.

(** ** The switch over the tags of the sensor sub-tree *)

Section SensorSwitch.
Context `{TagIds} `{TagReader}.

Lemma byte_of_offset (o : Z) :
  uint8 (Z.shiftr (Z.land o 0x000000ff) 0) = o mod 256
  /\ uint8 (Z.shiftr (Z.land o 0x0000ff00) 8) = o / 256 mod 256
  /\ uint8 (Z.shiftr (Z.land o 0x00ff0000) 16) = o / 65536 mod 256
  /\ uint8 (Z.shiftr (Z.land o 0xff000000) 24) = o / 16777216 mod 256.
Proof.
  unfold uint8. rewrite !Z.shiftr_land.
  change (Z.shiftr 0x000000ff 0) with (Z.ones 8).
  change (Z.shiftr 0x0000ff00 8) with (Z.ones 8).
  change (Z.shiftr 0x00ff0000 16) with (Z.ones 8).
  change (Z.shiftr 0xff000000 24) with (Z.ones 8).
  rewrite !Z.land_ones by lia. rewrite !Z.shiftr_div_pow2 by lia.
  change (2 ^ 0) with 1. change (2 ^ 8) with 256.
  change (2 ^ 16) with 65536. change (2 ^ 24) with 16777216.
  rewrite Z.div_1_r. rewrite !Z.mod_mod by lia. repeat split; reflexivity.
Qed.

Lemma le_bytes_sum (k : Z) :
  0 <= k < 2 ^ 32 ->
  k mod 256 + 256 * (k / 256 mod 256) + 65536 * (k / 65536 mod 256)
  + 16777216 * (k / 16777216 mod 256) = k.
Proof. intros Hk. Z.div_mod_to_equations. lia. Qed.

Ltac distinct_cases Hnd :=
  unfold sensor_cases in Hnd;
  repeat (apply NoDup_cons in Hnd as [? Hnd]);
  repeat match goal with
         | Hn : _ ∉ _ :: _ |- _ => apply not_elem_of_cons in Hn as [? Hn]
         end.

Ltac switch v :=
  repeat (match goal with
          | |- context [Tag v =? ?t] => destruct (Z.eqb_spec (Tag v) t)
          | Hs : context [Tag v =? ?t] |- _ => destruct (Z.eqb_spec (Tag v) t)
          end; try congruence).

(** X9. The case of the pattern tag stores the four bytes of the inline
    value, the lowest first, so the value is read back from them; no
    other field changes. *)
Theorem cfaPattern_bytes_of_offset (rawIFD : TIFFmeta) (i : Z) (v : IFDentry)
    (rw : RD.rawDetails) :
  NoDup sensor_cases ->
  Tag v = CFAPattern2 ->
  0 <= Offset v < 2 ^ 32 ->
  length (RD.cfaPattern rw) = 4%nat ->
  exists b0 b1 b2 b3,
    sensorTag rawIFD i v rw = Val (RD.with_cfaPattern [b0; b1; b2; b3] rw)
    /\ 0 <= b0 < 256 /\ 0 <= b1 < 256 /\ 0 <= b2 < 256 /\ 0 <= b3 < 256
    /\ b0 + 256 * b1 + 65536 * b2 + 16777216 * b3 = Offset v.
Proof.
  intros Hnd Htag Hoff Hlen.
  exists (Offset v mod 256), (Offset v / 256 mod 256),
         (Offset v / 65536 mod 256), (Offset v / 16777216 mod 256).
  split.
  - distinct_cases Hnd. unfold sensorTag. switch v.
    destruct (byte_of_offset (Offset v)) as (-> & -> & -> & ->).
    destruct (RD.cfaPattern rw) as [| p0 [| p1 [| p2 [| p3 [| p4 ps]]]]];
      try discriminate. reflexivity.
  - pose proof (le_bytes_sum (Offset v) Hoff).
    repeat split; try apply Z.mod_pos_bound; try lia.
Qed.

Lemma sensorTag_scalars (rawIFD : TIFFmeta) (i : Z) (v : IFDentry)
    (rw rw' : RD.rawDetails) :
  NoDup sensor_cases ->
  sensorTag rawIFD i v rw = Val rw' ->
  RD.width rw' = (if Tag v =? ImageWidth then uint16 (Offset v) else RD.width rw)
  /\ RD.height rw' = (if Tag v =? ImageHeight then uint16 (Offset v) else RD.height rw)
  /\ RD.bitDepth rw' = (if Tag v =? BitsPerSample then uint16 (Offset v) else RD.bitDepth rw)
  /\ RD.offset rw' = (if Tag v =? StripOffsets then Offset v else RD.offset rw)
  /\ RD.stride rw' = (if Tag v =? RowsPerStrip then Offset v else RD.stride rw)
  /\ RD.length rw' = (if Tag v =? StripByteCounts then Offset v else RD.length rw).
Proof.
  intros Hnd Hrun. distinct_cases Hnd. unfold sensorTag in Hrun.
  switch v;
    try (injection Hrun as <-; repeat split; reflexivity).
  - destruct (shorts rawIFD i); try discriminate.
    rewrite bind_Val in Hrun. injection Hrun as <-. repeat split; reflexivity.
  - destruct (shorts rawIFD i); try discriminate.
    rewrite bind_Val in Hrun. injection Hrun as <-. repeat split; reflexivity.
  - destruct (sshorts rawIFD i); try discriminate.
    rewrite bind_Val in Hrun. injection Hrun as <-. repeat split; reflexivity.
Qed.

Lemma last_tagged_step (t : Z) (e : IFDentry) (l : list IFDentry)
    {A : Type} (f : Z -> A) (d : A) :
  from_option f (if Tag e =? t then f (Offset e) else d) (last_tagged t l)
  = from_option f d (last_tagged t (e :: l)).
Proof.
  simpl. destruct (last_tagged t l); [reflexivity |].
  destruct (Tag e =? t); reflexivity.
Qed.

(** X10. Of the entries of the sensor sub-tree that give the width, the
    height, the bit depth, the strip offset, the rows per strip or the
    strip length, the last one is kept, the first three cut to 16 bits;
    a field with no entry keeps its value. *)
Theorem last_entry_of_a_tag_is_kept (rawIFD : TIFFmeta) (l : list IFDentry) :
  forall (i : Z) (rw rw' : RD.rawDetails),
  NoDup sensor_cases ->
  sensorTags rawIFD i l rw = Val rw' ->
  RD.width rw' = from_option uint16 (RD.width rw) (last_tagged ImageWidth l)
  /\ RD.height rw' = from_option uint16 (RD.height rw) (last_tagged ImageHeight l)
  /\ RD.bitDepth rw' = from_option uint16 (RD.bitDepth rw) (last_tagged BitsPerSample l)
  /\ RD.offset rw' = from_option id (RD.offset rw) (last_tagged StripOffsets l)
  /\ RD.stride rw' = from_option id (RD.stride rw) (last_tagged RowsPerStrip l)
  /\ RD.length rw' = from_option id (RD.length rw) (last_tagged StripByteCounts l).
Proof.
  induction l as [| v l IH]; intros i rw rw' Hnd Hrun.
  - injection Hrun as <-. repeat split; reflexivity.
  - simpl in Hrun.
    destruct (sensorTag rawIFD i v rw) as [rw1 | |] eqn:E; try discriminate.
    rewrite bind_Val in Hrun.
    destruct (sensorTag_scalars _ _ _ _ _ Hnd E) as (Ew & Eh & Eb & Eo & Es & El).
    destruct (IH _ _ _ Hnd Hrun) as (Iw & Ih & Ib & Io & Is & Il).
    rewrite Iw, Ih, Ib, Io, Is, Il, Ew, Eh, Eb, Eo, Es, El.
    rewrite <- !last_tagged_step.
    repeat split; try reflexivity;
      match goal with
      | |- context [Tag v =? ?t] => destruct (Tag v =? t); reflexivity
      end.
Qed.

(** X11. Of a curve entry the first four points are taken: a shorter
    curve leaves the later points as they were, a longer one is cut, and
    the fifth point is 0x3fff whatever the entry holds. *)
Theorem curve_entry_sets_four_points (rawIFD : TIFFmeta) (i : Z) (v : IFDentry)
    (rw : RD.rawDetails) (curve : list Z) :
  NoDup sensor_cases ->
  Tag v = SonyCurve ->
  shorts rawIFD i = Val curve ->
  length (RD.gammaCurve rw) = 5%nat ->
  exists g,
    sensorTag rawIFD i v rw = Val (RD.with_gammaCurve g rw)
    /\ length g = 5%nat
    /\ (forall k, (k < 4)%nat ->
          g !! k = if (k <? length curve)%nat then curve !! k
                   else RD.gammaCurve rw !! k)
    /\ g !! 4%nat = Some 0x3fff.
Proof.
  intros Hnd Htag Hcurve Hlen.
  eexists. split.
  - distinct_cases Hnd. unfold sensorTag. switch v.
    rewrite Hcurve, bind_Val. reflexivity.
  - assert (Hcopy : length (copy (take 4 (RD.gammaCurve rw)) curve) = 4%nat).
    { unfold copy. rewrite length_app, !length_take, length_drop, length_take. lia. }
    split; [| split].
    + rewrite length_insert, length_app, Hcopy, length_drop. lia.
    + intros k Hk. rewrite list_lookup_insert_ne by lia.
      rewrite lookup_app_l by lia. unfold copy.
      rewrite length_take, Hlen. change (4 `min` 5)%nat with 4%nat.
      destruct (Nat.ltb_spec k (length curve)) as [Hin | Hout].
      * rewrite lookup_app_l by (rewrite length_take; lia).
        apply lookup_take_lt. lia.
      * rewrite lookup_app_r by (rewrite length_take; lia).
        rewrite length_take, lookup_drop, lookup_take_lt by lia.
        f_equal. lia.
    + apply list_lookup_insert_eq.
      rewrite length_app, Hcopy, length_drop. lia.
Qed.

Lemma sensorTag_returns_or_panics (rawIFD : TIFFmeta) (i : Z) (v : IFDentry)
    (rw : RD.rawDetails) :
  sensorTag rawIFD i v rw = Panic \/ exists rw', sensorTag rawIFD i v rw = Val rw'.
Proof.
  assert (Hs : forall m j, shorts m j = Panic \/ exists l, shorts m j = Val l).
  { intros m j. unfold shorts, index.
    destruct (j <? 0); [left; reflexivity |].
    destruct (FIAvals m !! Z.to_nat j) as [val |]; [| left; reflexivity].
    rewrite bind_Val. destruct (short val); [right; eexists |left]; reflexivity. }
  assert (Hss : forall m j, sshorts m j = Panic \/ exists l, sshorts m j = Val l).
  { intros m j. unfold sshorts, index.
    destruct (j <? 0); [left; reflexivity |].
    destruct (FIAvals m !! Z.to_nat j) as [val |]; [| left; reflexivity].
    rewrite bind_Val. destruct (sshort val); [right; eexists |left]; reflexivity. }
  unfold sensorTag.
  repeat match goal with
         | |- context [Tag v =? ?t] => destruct (Tag v =? t); cbv iota
         end;
    try (right; eexists; reflexivity).
  - destruct (Hs rawIFD i) as [-> | [l ->]]; [left | right; eexists]; reflexivity.
  - destruct (Hs rawIFD i) as [-> | [l ->]]; [left | right; eexists]; reflexivity.
  - destruct (Hss rawIFD i) as [-> | [l ->]]; [left | right; eexists]; reflexivity.
Qed.

Lemma lacking_entry_panics (rawIFD : TIFFmeta) (i : Z) (v : IFDentry)
    (rw : RD.rawDetails) :
  NoDup sensor_cases -> 0 <= i ->
  lacks_value rawIFD (Z.to_nat i) v ->
  sensorTag rawIFD i v rw = Panic.
Proof.
  intros Hnd Hi Hlack.
  assert (Hs : (FIAvals rawIFD !! Z.to_nat i ≫= short) = None ->
               shorts rawIFD i = Panic).
  { intros Hnone. unfold shorts, index.
    destruct (Z.ltb_spec i 0); [lia |].
    destruct (FIAvals rawIFD !! Z.to_nat i) as [val |]; [| reflexivity].
    rewrite bind_Val. simpl in Hnone. rewrite Hnone. reflexivity. }
  assert (Hss : (FIAvals rawIFD !! Z.to_nat i ≫= sshort) = None ->
                sshorts rawIFD i = Panic).
  { intros Hnone. unfold sshorts, index.
    destruct (Z.ltb_spec i 0); [lia |].
    destruct (FIAvals rawIFD !! Z.to_nat i) as [val |]; [| reflexivity].
    rewrite bind_Val. simpl in Hnone. rewrite Hnone. reflexivity. }
  distinct_cases Hnd. unfold sensorTag.
  destruct Hlack as [[[Htag | Htag] Hnone] | [Htag Hnone]]; switch v.
  - rewrite (Hs Hnone). reflexivity.
  - rewrite (Hs Hnone). reflexivity.
  - rewrite (Hss Hnone). reflexivity.
Qed.

Lemma sensorTags_lacking (rawIFD : TIFFmeta) (v : IFDentry) (l : list IFDentry) :
  forall (n : nat) (i : Z) (rw : RD.rawDetails),
  NoDup sensor_cases -> 0 <= i ->
  l !! n = Some v ->
  lacks_value rawIFD (Z.to_nat i + n) v ->
  sensorTags rawIFD i l rw = Panic.
Proof.
  induction l as [| e l IH]; intros n i rw Hnd Hi Hn Hlack; [discriminate |].
  simpl. destruct n as [| n].
  - injection Hn as ->. rewrite Nat.add_0_r in Hlack.
    rewrite (lacking_entry_panics _ _ _ _ Hnd Hi Hlack). reflexivity.
  - destruct (sensorTag_returns_or_panics rawIFD i e rw) as [-> | [rw1 ->]];
      [reflexivity |].
    rewrite bind_Val. apply (IH n); try assumption; try lia.
    replace (Z.to_nat (i + 1) + n)%nat with (Z.to_nat i + S n)%nat by lia.
    exact Hlack.
Qed.

(** X12. An entry of the sensor sub-tree whose tag is the curve, the
    black levels or the white balance and whose typed value is nil or
    absent ends the extraction by a panic, whatever the other entries
    are. *)
Theorem nil_typed_value_panics (fia : IFDentry) (rw : RD.rawDetails)
    (rs rs' : ReadSeeker) (rawIFD : TIFFmeta) (n : nat) (v : IFDentry) :
  NoDup sensor_cases ->
  ExtractMetaData rs (Offset fia) 0 = ((rawIFD, None), rs') ->
  FIA rawIFD !! n = Some v ->
  lacks_value rawIFD n v ->
  subIFD fia rw rs = Stop Panics
  /\ (Tag fia = SubIFDs -> forall rest, walk (fia :: rest) rw rs = Panics).
Proof.
  intros Hnd Hread Hn Hlack.
  assert (Hsub : subIFD fia rw rs = Stop Panics).
  { unfold subIFD. rewrite Hread.
    rewrite (sensorTags_lacking rawIFD v (FIA rawIFD) n 0 rw Hnd ltac:(lia) Hn Hlack).
    reflexivity. }
  split; [exact Hsub |].
  intros Htag rest. simpl. unfold visit.
  rewrite Htag, Z.eqb_refl, Hsub. reflexivity.
Qed.

Lemma copy_length {A : Type} (dst src : list A) : length (copy dst src) = length dst.
Proof. unfold copy. rewrite length_app, length_take, length_drop. lia. Qed.

Lemma sensorTag_shape (rawIFD : TIFFmeta) (i : Z) (v : IFDentry)
    (rw rw' : RD.rawDetails) :
  well_shaped rw -> sensorTag rawIFD i v rw = Val rw' -> well_shaped rw'.
Proof.
  intros (Hb & Hw & Hg & Hp & Hd & Hwi & Hhe & Hbd & Hpr & Hdr) Hrun.
  unfold sensorTag in Hrun.
  repeat match type of Hrun with
         | context [Tag v =? ?t] => destruct (Tag v =? t); cbv iota in Hrun
         end;
    try (injection Hrun as <-; unfold well_shaped; simpl;
         pose proof (uint16_range (Offset v)); tauto).
  - destruct (shorts rawIFD i); try discriminate.
    rewrite bind_Val in Hrun. injection Hrun as <-. unfold well_shaped; simpl.
    rewrite length_insert, length_app, copy_length, length_take, length_drop.
    split_and!; try assumption; lia.
  - destruct (shorts rawIFD i); try discriminate.
    rewrite bind_Val in Hrun. injection Hrun as <-. unfold well_shaped; simpl.
    rewrite copy_length. tauto.
  - destruct (sshorts rawIFD i); try discriminate.
    rewrite bind_Val in Hrun. injection Hrun as <-. unfold well_shaped; simpl.
    rewrite copy_length. tauto.
  - injection Hrun as <-. unfold well_shaped; simpl.
    rewrite !length_insert.
    split_and!; try assumption; try lia.
    destruct (RD.cfaPattern rw) as [| p0 [| p1 [| p2 [| p3 [| p4 ps]]]]];
      try discriminate.
    simpl. unfold uint8.
    repeat constructor; apply Z.mod_pos_bound; lia.
  - injection Hrun as <-. unfold well_shaped; simpl.
    rewrite !length_insert.
    split_and!; try assumption; try lia.
    destruct (RD.cfaPatternDim rw) as [| d0 [| d1 [| d2 ds]]]; try discriminate.
    simpl. repeat constructor; apply uint16_range.
Qed.

Lemma sensorTags_shape (rawIFD : TIFFmeta) (l : list IFDentry) :
  forall (i : Z) (rw rw' : RD.rawDetails),
  well_shaped rw -> sensorTags rawIFD i l rw = Val rw' -> well_shaped rw'.
Proof.
  induction l as [| v l IH]; intros i rw rw' Hs Hrun.
  - injection Hrun as <-. exact Hs.
  - simpl in Hrun.
    destruct (sensorTag rawIFD i v rw) as [rw1 | |] eqn:E; try discriminate.
    rewrite bind_Val in Hrun.
    exact (IH _ _ _ (sensorTag_shape _ _ _ _ _ Hs E) Hrun).
Qed.

Lemma sr2Tag_shape (sr2 : TIFFmeta) (i : Z) (v : IFDentry) (rw rw' : RD.rawDetails) :
  well_shaped rw -> sr2Tag sr2 i v rw = Val rw' -> well_shaped rw'.
Proof.
  intros (Hb & Hw & Hg & Hp & Hd & Hwi & Hhe & Hbd & Hpr & Hdr) Hrun.
  unfold sr2Tag in Hrun.
  destruct (Tag v =? BlackLevel2).
  - destruct (shorts sr2 i); try discriminate.
    rewrite bind_Val in Hrun. injection Hrun as <-. unfold well_shaped; simpl.
    rewrite copy_length. tauto.
  - destruct (Tag v =? WB_RGGBLevels).
    + destruct (sshorts sr2 i); try discriminate.
      rewrite bind_Val in Hrun. injection Hrun as <-. unfold well_shaped; simpl.
      rewrite copy_length. tauto.
    + injection Hrun as <-. unfold well_shaped. tauto.
Qed.

Lemma sr2Tags_shape (sr2 : TIFFmeta) (l : list IFDentry) :
  forall (i : Z) (rw rw' : RD.rawDetails),
  well_shaped rw -> sr2Tags sr2 i l rw = Val rw' -> well_shaped rw'.
Proof.
  induction l as [| v l IH]; intros i rw rw' Hs Hrun.
  - injection Hrun as <-. exact Hs.
  - simpl in Hrun.
    destruct (sr2Tag sr2 i v rw) as [rw1 | |] eqn:E; try discriminate.
    rewrite bind_Val in Hrun.
    exact (IH _ _ _ (sr2Tag_shape _ _ _ _ _ Hs E) Hrun).
Qed.

Lemma subIFD_shape (fia : IFDentry) (rw : RD.rawDetails) (rs : ReadSeeker) :
  well_shaped rw ->
  match subIFD fia rw rs with
  | Continue rw' _ => well_shaped rw'
  | Stop (Returns rw' _ _) => well_shaped rw'
  | Stop _ => True
  end.
Proof.
  intros Hs. unfold subIFD.
  destruct (ExtractMetaData rs (Offset fia) 0) as [[rawIFD [e |]] rs1];
    [exact Hs |].
  destruct (sensorTags rawIFD 0 (FIA rawIFD) rw) as [rw1 | |] eqn:E;
    try exact I.
  exact (sensorTags_shape _ _ _ _ _ Hs E).
Qed.

Lemma privateData_shape (fia : IFDentry) (rw : RD.rawDetails) (rs : ReadSeeker) :
  well_shaped rw ->
  match privateData fia rw rs with
  | Continue rw' _ => well_shaped rw'
  | Stop (Returns rw' _ _) => well_shaped rw'
  | Stop _ => True
  end.
Proof.
  intros Hs. unfold privateData.
  destruct (ExtractMetaData rs (Offset fia) 0) as [[dng [e |]] rs1];
    [exact Hs |].
  destruct (sr2Params dng) as [[sr2offset sr2length] sr2key].
  destruct (DecryptSR2 rs1 sr2offset sr2length) as [buf rs2].
  destruct (ExtractMetaData (bytes_NewReader buf) 0 0) as [[sr2 [e |]] br];
    [exact I |].
  destruct (sr2Tags sr2 0 (FIA sr2) rw) as [rw1 | |] eqn:E; try exact I.
  exact (sr2Tags_shape _ _ _ _ _ Hs E).
Qed.

Lemma visit_shape (fia : IFDentry) (rw : RD.rawDetails) (rs : ReadSeeker) :
  well_shaped rw ->
  match visit fia rw rs with
  | Continue rw' _ => well_shaped rw'
  | Stop (Returns rw' _ _) => well_shaped rw'
  | Stop _ => True
  end.
Proof.
  intros Hs. unfold visit.
  destruct (Tag fia =? SubIFDs).
  - pose proof (subIFD_shape fia rw rs Hs) as Hsub.
    destruct (subIFD fia rw rs) as [rw1 rs1 | o]; [| exact Hsub].
    destruct (Tag fia =? DNGPrivateData);
      [exact (privateData_shape fia rw1 rs1 Hsub) | exact Hsub].
  - destruct (Tag fia =? DNGPrivateData);
      [exact (privateData_shape fia rw rs Hs) | exact Hs].
Qed.

Lemma walk_shape (l : list IFDentry) : forall rw rs rw' err rs',
  well_shaped rw -> walk l rw rs = Returns rw' err rs' -> well_shaped rw'.
Proof.
  induction l as [| fia l IH]; intros rw rs rw' err rs' Hs Hrun; simpl in Hrun.
  - injection Hrun as <- _ _. exact Hs.
  - pose proof (visit_shape fia rw rs Hs) as Hv.
    destruct (visit fia rw rs) as [rw1 rs1 | o].
    + exact (IH _ _ _ _ _ Hv Hrun).
    + subst o. exact Hv.
Qed.

Lemma zero_shape : well_shaped RD.zero.
Proof.
  unfold well_shaped. simpl.
  split_and!; try lia; repeat constructor; lia.
Qed.

(** X13. Whatever the tag lists hold, a record that the extraction
    returns, with an error or without one, has its arrays at the sizes
    of the struct and its narrowed fields in the range of their types. *)
Theorem extracted_record_is_well_shaped (rs : ReadSeeker) (rw : RD.rawDetails)
    (err : option error) (rs' : ReadSeeker) :
  extractDetails rs = Returns rw err rs' -> well_shaped rw.
Proof.
  unfold extractDetails.
  destruct (ParseHeader rs) as [[header herr] rs0].
  destruct (ExtractMetaData rs0 (header_Offset header) 0) as [[meta [e |]] rs1].
  - intros Hrun. injection Hrun as <- _ _. exact zero_shape.
  - apply walk_shape. exact zero_shape.
Qed.

Lemma sr2Entry_fold (l : list IFDentry) : forall (o n : Z) (k : list Z),
  length k = 4%nat ->
  fold_left (fun acc e => sr2Entry e acc) l (o, n, k)
  = (from_option id o (last_tagged SR2SubIFDOffset l),
     from_option id n (last_tagged SR2SubIFDLength l),
     from_option (fun s => le_bytes (uint32 (s * 0x0edd + 1))) k
       (last_tagged SR2SubIFDKey l)).
Proof.
  induction l as [| e l IH]; intros o n k Hk; [reflexivity |].
  cbn [fold_left]. unfold sr2Entry at 2.
  destruct k as [| k0 [| k1 [| k2 [| k3 [| k4 ks]]]]]; try discriminate.
  set (key := uint32 (Offset e * 0x0edd + 1)).
  assert (Hbytes : [uint8 (Z.land key 0xff); uint8 (Z.land (Z.shiftr key 8) 0xff);
                    uint8 (Z.land (Z.shiftr key 16) 0xff);
                    uint8 (Z.land (Z.shiftr key 24) 0xff)] = le_bytes key).
  { unfold le_bytes, uint8.
    change 0xff with (Z.ones 8). rewrite !Z.land_ones by lia.
    rewrite !Z.shiftr_div_pow2 by lia.
    change (2 ^ 8) with 256. change (2 ^ 16) with 65536.
    change (2 ^ 24) with 16777216.
    rewrite !Z.mod_mod by lia. reflexivity. }
  cbn [insert list_insert]. 
  rewrite IH by (destruct (Tag e =? SR2SubIFDKey); reflexivity).
  rewrite <- !last_tagged_step. rewrite Hbytes. reflexivity.
Qed.

(** X14. The offset and the length handed to the decryption are those
    of the last entries of the private tree with these tags, and zero
    when there is none; the key is the four bytes, lowest first, of the
    32-bit value of seed * 0x0edd + 1 for the last seed entry. *)
Theorem sr2Params_of_last_entries (dng : TIFFmeta) :
  sr2Params dng
  = (from_option id 0 (last_tagged SR2SubIFDOffset (FIA dng)),
     from_option id 0 (last_tagged SR2SubIFDLength (FIA dng)),
     from_option (fun s => le_bytes (uint32 (s * 0x0edd + 1))) [0; 0; 0; 0]
       (last_tagged SR2SubIFDKey (FIA dng)))
  /\ (forall s, last_tagged SR2SubIFDKey (FIA dng) = Some s ->
        exists k0 k1 k2 k3,
          (sr2Params dng).2 = [k0; k1; k2; k3]
          /\ k0 + 256 * k1 + 65536 * k2 + 16777216 * k3
             = (s * 0x0edd + 1) mod 2 ^ 32).
Proof.
  assert (E := sr2Entry_fold (FIA dng) 0 0 [0; 0; 0; 0] eq_refl).
  split; [exact E |].
  intros s Hs. unfold sr2Params. rewrite E, Hs. simpl.
  do 4 eexists. split; [reflexivity |].
  apply le_bytes_sum. apply uint32_range.
Qed.

End SensorSwitch.

(** ** The write pass and the whole of [readraw14] *)

Section Pass.
Variables (written : Z -> Z -> pixel16) (w h : Z) (pix0 : list pixel16).
Hypothesis Hw : 0 <= w.
Hypothesis Hh : 0 <= h.

(** Two cells further in a row. *)
Lemma pass_inv_advance (k : Z) (pix pix' : list pixel16) (x y : Z) :
  0 <= x -> x + 1 < w -> 0 <= y < h ->
  k = y * w + x ->
  pass_inv written pix0 w h k pix ->
  length pix' = length pix ->
  cell pix' (y * w + x) = written x y ->
  cell pix' (y * w + x + 1) = written (x + 1) y ->
  (forall j, 0 <= j -> j <> y * w + x -> j <> y * w + x + 1 ->
     cell pix' j = cell pix j) ->
  pass_inv written pix0 w h (k + 2) pix'.
Proof.
  intros Hx Hx1 Hy -> [Hlen Hinv] Hlen' Ha Ha1 Hframe.
  split; [congruence |].
  intros x' y' Hx' Hy'.
  destruct (Z.eq_dec (y' * w + x') (y * w + x)) as [E | NE].
  - apply flat_inj in E; [| lia | lia]. destruct E as [-> ->].
    rewrite Ha. destruct (Z.ltb_spec (y * w + x) (y * w + x + 2)); [reflexivity | lia].
  - destruct (Z.eq_dec (y' * w + x') (y * w + (x + 1))) as [E1 | NE1].
    + apply flat_inj in E1; [| lia | lia]. destruct E1 as [-> ->].
      replace (y * w + (x + 1)) with (y * w + x + 1) by lia.
      rewrite Ha1.
      destruct (Z.ltb_spec (y * w + x + 1) (y * w + x + 2)); [reflexivity | lia].
    + rewrite Hframe by nia. rewrite Hinv by lia.
      destruct (Z.ltb_spec (y' * w + x') (y * w + x)),
               (Z.ltb_spec (y' * w + x') (y * w + x + 2)); try reflexivity; lia.
Qed.

Lemma pass_inv_start : pass_inv written pix0 w h 0 pix0.
Proof.
  split; [reflexivity |]. intros x y Hx Hy.
  destruct (Z.ltb_spec (y * w + x) 0); [nia | reflexivity].
Qed.

Lemma pass_inv_end (pix : list pixel16) (x y : Z) :
  pass_inv written pix0 w h (h * w) pix ->
  0 <= x < w -> 0 <= y < h -> cell pix (y * w + x) = written x y.
Proof.
  intros [_ Hinv] Hx Hy. rewrite Hinv by assumption.
  destruct (Z.ltb_spec (y * w + x) (h * w)); [reflexivity | nia].
Qed.

Lemma pass_inv_ahead (k : Z) (pix : list pixel16) (x y : Z) :
  pass_inv written pix0 w h k pix ->
  0 <= x < w -> 0 <= y < h -> k <= y * w + x ->
  cell pix (y * w + x) = cell pix0 (y * w + x).
Proof.
  intros [_ Hinv] Hx Hy Hk. rewrite Hinv by assumption.
  destruct (Z.ltb_spec (y * w + x) k); [lia | reflexivity].
Qed.

End Pass.

Section Raw14Write.
Context `{Platform}.
Variables (xfactors : coefficients) (rw : RD.rawDetails) (wb : list float).
Variable data : list Z.

Lemma writeUpper_full (stride y x : Z) (pix : list pixel16) :
  0 <= y * stride + x ->
  y * stride + x + 1 < Z.of_nat (length data) ->
  y * stride + x + 1 < Z.of_nat (length pix) ->
  exists pix',
    Raw14.writeUpper xfactors rw wb data stride y x pix = Val (x + 1, pix')
    /\ length pix' = length pix
    /\ cell pix' (y * stride + x)
       = setR (raw14_sample xfactors rw wb 0 (data !!! Z.to_nat (y * stride + x)))
              (cell pix (y * stride + x))
    /\ cell pix' (y * stride + x + 1)
       = setG (raw14_sample xfactors rw wb 1 (data !!! Z.to_nat (y * stride + x + 1)))
              (cell pix (y * stride + x + 1))
    /\ (forall j, 0 <= j -> j <> y * stride + x -> j <> y * stride + x + 1 ->
        cell pix' j = cell pix j).
Proof.
  intros Hbase Hdata Hpix. unfold Raw14.writeUpper. cbv zeta.
  rewrite (index_total data (y * stride + x)) by lia.
  rewrite (index_total data (y * stride + (x + 1))) by lia.
  rewrite bind_Val.
  match goal with
  | |- context [modify pix ?d ?f] =>
      destruct (modify_in_range pix d f) as (pix1 & -> & L1 & C1 & F1); [lia |]
  end.
  rewrite !bind_Val.
  match goal with
  | |- context [modify pix1 ?d ?f] =>
      destruct (modify_in_range pix1 d f) as (pix2 & -> & L2 & C2 & F2); [lia |]
  end.
  rewrite bind_Val. exists pix2. split; [reflexivity |]. split; [congruence |].
  replace (y * stride + (x + 1)) with (y * stride + x + 1) in * by lia.
  split; [| split].
  - rewrite F2 by lia. rewrite C1. reflexivity.
  - rewrite C2. rewrite F1 by lia. reflexivity.
  - intros j Hj Hne Hne1. rewrite F2 by lia. apply F1; lia.
Qed.

Lemma writeLower_full (stride y x : Z) (pix : list pixel16) :
  0 <= y * stride + x ->
  y * stride + x + 1 < Z.of_nat (length data) ->
  y * stride + x + 1 < Z.of_nat (length pix) ->
  exists pix',
    Raw14.writeLower xfactors rw wb data stride y x pix = Val (x + 1, pix')
    /\ length pix' = length pix
    /\ cell pix' (y * stride + x)
       = setG (raw14_sample xfactors rw wb 2 (data !!! Z.to_nat (y * stride + x)))
              (cell pix (y * stride + x))
    /\ cell pix' (y * stride + x + 1)
       = setB (raw14_sample xfactors rw wb 3 (data !!! Z.to_nat (y * stride + x + 1)))
              (cell pix (y * stride + x + 1))
    /\ (forall j, 0 <= j -> j <> y * stride + x -> j <> y * stride + x + 1 ->
        cell pix' j = cell pix j).
Proof.
  intros Hbase Hdata Hpix. unfold Raw14.writeLower. cbv zeta.
  rewrite (index_total data (y * stride + x)) by lia.
  rewrite (index_total data (y * stride + (x + 1))) by lia.
  rewrite bind_Val.
  match goal with
  | |- context [modify pix ?d ?f] =>
      destruct (modify_in_range pix d f) as (pix1 & -> & L1 & C1 & F1); [lia |]
  end.
  rewrite !bind_Val.
  match goal with
  | |- context [modify pix1 ?d ?f] =>
      destruct (modify_in_range pix1 d f) as (pix2 & -> & L2 & C2 & F2); [lia |]
  end.
  rewrite bind_Val. exists pix2. split; [reflexivity |]. split; [congruence |].
  replace (y * stride + (x + 1)) with (y * stride + x + 1) in * by lia.
  split; [| split].
  - rewrite F2 by lia. rewrite C1. reflexivity.
  - rewrite C2. rewrite F1 by lia. reflexivity.
  - intros j Hj Hne Hne1. rewrite F2 by lia. apply F1; lia.
Qed.

Lemma raw14_written_cases (w : Z) (pix0 : list pixel16) (x y : Z) :
  x mod 2 = 0 -> y mod 2 = 0 ->
  raw14_written xfactors rw wb data pix0 w x y
  = setR (raw14_sample xfactors rw wb 0 (data !!! Z.to_nat (y * w + x)))
         (cell pix0 (y * w + x))
  /\ raw14_written xfactors rw wb data pix0 w (x + 1) y
     = setG (raw14_sample xfactors rw wb 1 (data !!! Z.to_nat (y * w + x + 1)))
            (cell pix0 (y * w + x + 1))
  /\ raw14_written xfactors rw wb data pix0 w x (y + 1)
     = setG (raw14_sample xfactors rw wb 2 (data !!! Z.to_nat ((y + 1) * w + x)))
            (cell pix0 ((y + 1) * w + x))
  /\ raw14_written xfactors rw wb data pix0 w (x + 1) (y + 1)
     = setB (raw14_sample xfactors rw wb 3 (data !!! Z.to_nat ((y + 1) * w + x + 1)))
            (cell pix0 ((y + 1) * w + x + 1)).
Proof.
  intros Hx Hy. unfold raw14_written. cbv zeta.
  assert (Hx1 : (x + 1) mod 2 = 1) by zmod.
  assert (Hy1 : (y + 1) mod 2 = 1) by zmod.
  rewrite Hx, Hy, Hx1, Hy1. simpl.
  replace (y * w + (x + 1)) with (y * w + x + 1) by lia.
  replace ((y + 1) * w + (x + 1)) with ((y + 1) * w + x + 1) by lia.
  repeat split; reflexivity.
Qed.

Variables (w h : Z) (pix0 : list pixel16).
Hypothesis Hw : 0 <= w.
Hypothesis Hh : 0 <= h.
Hypothesis Hweven : w mod 2 = 0.
Hypothesis Hheven : h mod 2 = 0.
Hypothesis Hsize : Z.of_nat (length pix0) = w * h.
Hypothesis Hdata : w * h <= Z.of_nat (length data).

Local Abbreviation written := (raw14_written xfactors rw wb data pix0 w).

Lemma writeUpper_step (x y : Z) (pix : list pixel16) :
  x mod 2 = 0 -> 0 <= x < w -> y mod 2 = 0 -> 0 <= y < h ->
  pass_inv written pix0 w h (y * w + x) pix ->
  exists pix', Raw14.writeUpper xfactors rw wb data w y x pix = Val (x + 1, pix')
               /\ pass_inv written pix0 w h (y * w + (x + 1 + 1)) pix'.
Proof.
  intros Hxe Hx Hye Hy Hinv.
  assert (Hx1 : x + 1 < w) by zmod.
  pose proof Hinv as [Hlen Hcells].
  destruct (writeUpper_full w y x pix) as (pix' & E & Hlen' & Ha & Ha1 & Hframe);
    [nia | nia | nia |].
  exists pix'. split; [exact E |].
  replace (y * w + (x + 1 + 1)) with (y * w + x + 2) by lia.
  destruct (raw14_written_cases w pix0 x y Hxe Hye) as (W0 & W1 & _ & _).
  apply (pass_inv_advance written w h pix0 Hw (y * w + x) pix pix' x y);
    try assumption; try lia.
  - rewrite Ha, W0.
    rewrite (pass_inv_ahead written w h pix0 (y * w + x) pix x y Hinv) by lia.
    reflexivity.
  - rewrite Ha1, W1.
    pose proof (pass_inv_ahead written w h pix0 (y * w + x) pix (x + 1) y Hinv
                  ltac:(lia) ltac:(lia) ltac:(lia)) as C1.
    replace (y * w + (x + 1)) with (y * w + x + 1) in C1 by lia.
    rewrite C1. reflexivity.
Qed.

Lemma writeLower_step (x y : Z) (pix : list pixel16) :
  x mod 2 = 0 -> 0 <= x < w -> y mod 2 = 0 -> 0 <= y < h ->
  pass_inv written pix0 w h ((y + 1) * w + x) pix ->
  exists pix', Raw14.writeLower xfactors rw wb data w (y + 1) x pix = Val (x + 1, pix')
               /\ pass_inv written pix0 w h ((y + 1) * w + (x + 1 + 1)) pix'.
Proof.
  intros Hxe Hx Hye Hy Hinv.
  assert (Hx1 : x + 1 < w) by zmod.
  assert (Hy1 : y + 1 < h) by zmod.
  pose proof Hinv as [Hlen Hcells].
  destruct (writeLower_full w (y + 1) x pix) as (pix' & E & Hlen' & Ha & Ha1 & Hframe);
    [nia | nia | nia |].
  exists pix'. split; [exact E |].
  replace ((y + 1) * w + (x + 1 + 1)) with ((y + 1) * w + x + 2) by lia.
  destruct (raw14_written_cases w pix0 x y Hxe Hye) as (_ & _ & W2 & W3).
  apply (pass_inv_advance written w h pix0 Hw ((y + 1) * w + x) pix pix' x (y + 1));
    try assumption; try lia.
  - rewrite Ha, W2.
    rewrite (pass_inv_ahead written w h pix0 ((y + 1) * w + x) pix x (y + 1) Hinv) by lia.
    reflexivity.
  - rewrite Ha1, W3.
    pose proof (pass_inv_ahead written w h pix0 ((y + 1) * w + x) pix (x + 1) (y + 1)
                  Hinv ltac:(lia) ltac:(lia) ltac:(lia)) as C1.
    replace ((y + 1) * w + (x + 1)) with ((y + 1) * w + x + 1) in C1 by lia.
    rewrite C1. reflexivity.
Qed.

Lemma write_rows (y : Z) (pix : list pixel16) :
  y mod 2 = 0 -> 0 <= y < h ->
  pass_inv written pix0 w h (y * w) pix ->
  exists pix',
    (pix1 ← for_lt w (Raw14.writeUpper xfactors rw wb data w y) 0 pix;
     let y' := y + 1 in
     pix2 ← for_lt w (Raw14.writeLower xfactors rw wb data w y') 0 pix1;
     Val (y', pix2)) = Val (y + 1, pix')
    /\ pass_inv written pix0 w h ((y + 1 + 1) * w) pix'.
Proof.
  intros Hye Hy Hinv.
  destruct (for_lt_invariant
              (fun x p => x mod 2 = 0 /\ 0 <= x <= w
                          /\ pass_inv written pix0 w h (y * w + x) p)
              w (Raw14.writeUpper xfactors rw wb data w y) 0 pix)
    as (x1 & pix1 & -> & Hx1 & Hx1e & Hx1r & Hinv1).
  { intros x p (Hxe & Hx & Hp) Hlt.
    destruct (writeUpper_step x y p) as (p' & E & Hp'); try assumption; try lia.
    exists (x + 1), p'. split; [exact E |]. split; [lia |].
    split; [zmod |]. split; [zmod | exact Hp']. }
  { split; [reflexivity |]. split; [lia |].
    replace (y * w + 0) with (y * w) by lia. exact Hinv. }
  rewrite bind_Val. cbv zeta.
  assert (x1 = w) by lia. subst x1.
  destruct (for_lt_invariant
              (fun x p => x mod 2 = 0 /\ 0 <= x <= w
                          /\ pass_inv written pix0 w h ((y + 1) * w + x) p)
              w (Raw14.writeLower xfactors rw wb data w (y + 1)) 0 pix1)
    as (x2 & pix2 & -> & Hx2 & Hx2e & Hx2r & Hinv2).
  { intros x p (Hxe & Hx & Hp) Hlt.
    destruct (writeLower_step x y p) as (p' & E & Hp'); try assumption; try lia.
    exists (x + 1), p'. split; [exact E |]. split; [lia |].
    split; [zmod |]. split; [zmod | exact Hp']. }
  { split; [reflexivity |]. split; [lia |].
    replace ((y + 1) * w + 0) with (y * w + w) by lia. exact Hinv1. }
  rewrite bind_Val.
  assert (x2 = w) by lia. subst x2.
  exists pix2. split; [reflexivity |].
  replace ((y + 1 + 1) * w) with ((y + 1) * w + w) by lia. exact Hinv2.
Qed.

Lemma write_even :
  exists pix',
    Raw14.write xfactors rw wb data (mkRGB14 pix0 w (image_Rect 0 0 w h))
    = Val (mkRGB14 pix' w (image_Rect 0 0 w h))
    /\ length pix' = length pix0
    /\ forall x y, 0 <= x < w -> 0 <= y < h ->
         cell pix' (y * w + x) = written x y.
Proof.
  unfold Raw14.write. simpl.
  rewrite !Z.max_r by lia.
  lazymatch goal with
  | |- context [for_lt h ?body 0 pix0] =>
      destruct (for_lt_invariant
                  (fun y p => y mod 2 = 0 /\ 0 <= y <= h
                              /\ pass_inv written pix0 w h (y * w) p)
                  h body 0 pix0) as (y1 & pix1 & -> & Hy1 & Hy1e & Hy1r & Hinv)
  end.
  { intros y p (Hye & Hy & Hp) Hlt.
    destruct (write_rows y p) as (p' & E & Hp'); try assumption; try lia.
    exists (y + 1), p'. split; [exact E |]. split; [lia |].
    split; [zmod |]. split; [zmod | exact Hp']. }
  { split; [reflexivity |]. split; [lia |].
    replace (0 * w) with 0 by lia. apply pass_inv_start; assumption. }
  rewrite bind_Val.
  assert (y1 = h) by lia. subst y1.
  exists pix1. split; [reflexivity |]. split; [exact (proj1 Hinv) |].
  intros x y Hx Hy.
  eapply pass_inv_end; eassumption.
Qed.

End Raw14Write.

Lemma NewRGB14_origin (w h : Z) :
  0 <= w -> 0 <= h ->
  NewRGB14 (image_Rect 0 0 w h)
  = Val (mkRGB14 (replicate (Z.to_nat (w * h)) zero_pixel) w (image_Rect 0 0 w h)).
Proof.
  intros Hw Hh. unfold NewRGB14, Dx, Dy, image_Rect. simpl.
  rewrite !Z.max_r, !Z.min_l by lia. rewrite !Z.sub_0_r.
  destruct (Z.ltb_spec (w * h) 0); [nia | reflexivity].
Qed.

Lemma cell_replicate (n : nat) (i : Z) :
  0 <= i < Z.of_nat n -> cell (replicate n zero_pixel) i = zero_pixel.
Proof.
  intros Hi. unfold cell. apply list_lookup_total_correct.
  apply lookup_replicate_2. lia.
Qed.

Lemma raw14_filled `{Platform} (xfactors : coefficients) (rw : RD.rawDetails)
    (wb : list float) (data : list Z) (w h : Z) (pix0 pix1 : list pixel16)
    (x y : Z) :
  0 <= w -> 0 <= h -> w mod 2 = 0 -> h mod 2 = 0 ->
  (forall x y, 0 <= x < w -> 0 <= y < h -> cell pix0 (y * w + x) = zero_pixel) ->
  (forall x y, 0 <= x < w -> 0 <= y < h ->
     cell pix1 (y * w + x) = raw14_written xfactors rw wb data pix0 w x y) ->
  0 <= x < w -> 0 <= y < h ->
  filled pix1 w x y = raw14_pixel xfactors rw wb data w x y.
Proof.
  intros Hw Hh Hwe Hhe Hzero Hcells Hx Hy.
  unfold filled, raw14_pixel. cbv zeta.
  set (xe := x - x mod 2). set (ye := y - y mod 2).
  assert (Hxe : xe mod 2 = 0) by (subst xe; zmod).
  assert (Hye : ye mod 2 = 0) by (subst ye; zmod).
  assert (Hxr : 0 <= xe /\ xe + 1 < w) by (subst xe; zmod).
  assert (Hyr : 0 <= ye /\ ye + 1 < h) by (subst ye; zmod).
  destruct (raw14_written_cases xfactors rw wb data w pix0 xe ye Hxe Hye)
    as (W0 & W1 & W2 & W3).
  pose proof (Hcells xe ye ltac:(lia) ltac:(lia)) as C0.
  pose proof (Hcells (xe + 1) ye ltac:(lia) ltac:(lia)) as C1.
  pose proof (Hcells xe (ye + 1) ltac:(lia) ltac:(lia)) as C2.
  pose proof (Hcells (xe + 1) (ye + 1) ltac:(lia) ltac:(lia)) as C3.
  pose proof (Hzero xe ye ltac:(lia) ltac:(lia)) as Z0.
  pose proof (Hzero (xe + 1) ye ltac:(lia) ltac:(lia)) as Z1.
  pose proof (Hzero xe (ye + 1) ltac:(lia) ltac:(lia)) as Z2.
  pose proof (Hzero (xe + 1) (ye + 1) ltac:(lia) ltac:(lia)) as Z3.
  replace (ye * w + (xe + 1)) with (ye * w + xe + 1) in * by lia.
  replace ((ye + 1) * w + (xe + 1)) with ((ye + 1) * w + xe + 1) in * by lia.
  rewrite W0 in C0. rewrite W1 in C1. rewrite W2 in C2. rewrite W3 in C3.
  assert (Hpad : pad (cell pix1 (y * w + x)) = 0).
  { rewrite (Hcells x y Hx Hy). unfold raw14_written. cbv zeta.
    rewrite (Hzero x y Hx Hy).
    destruct (y mod 2 =? 0), (x mod 2 =? 0); reflexivity. }
  rewrite Hpad, C0, C3.
  destruct (y mod 2 =? 0); [rewrite C1 | rewrite C2]; reflexivity.
Qed.

(** X15. On a record of even width and height and a payload of at least
    width * height 16-bit words, [readraw14] returns an image of that
    width and height in which the pixel at column x of row y has, of the
    2x2 tile of the cell, the corrected upper-left word as red, the
    corrected word of the other cell of its own row as green (black
    level and ratio 1 on the upper row, 2 on the lower one), the
    corrected lower-right word as blue, and 0 in the fourth field. *)
Theorem readraw14_of_even_raster `{Platform} `{Solver}
    (buf : list Byte.byte) (rw : RD.rawDetails) (w h : Z) :
  RD.width rw = w -> RD.height rw = h ->
  0 <= w -> 0 <= h -> w mod 2 = 0 -> h mod 2 = 0 ->
  w * h <= Z.of_nat (length (Raw14.words buf)) ->
  exists pix,
    Raw14.readraw14 buf rw = Val (mkRGB14 pix w (image_Rect 0 0 w h))
    /\ Z.of_nat (length pix) = w * h
    /\ forall x y, 0 <= x < w -> 0 <= y < h ->
         pixel_at pix w x y
         = raw14_pixel (gammacorrect (curve_points rw)) rw (whiteBalanceRGGB rw)
             (Raw14.words buf) w x y.
Proof.
  intros Ew Eh Hw Hh Hwe Hhe Hdata.
  unfold Raw14.readraw14. cbv zeta. rewrite Ew, Eh.
  rewrite (NewRGB14_origin w h Hw Hh), bind_Val.
  set (pix0 := replicate (Z.to_nat (w * h)) zero_pixel).
  assert (Hsize : Z.of_nat (length pix0) = w * h).
  { subst pix0. rewrite length_replicate. nia. }
  fold (curve_points rw).
  destruct (write_even (gammacorrect (curve_points rw)) rw (whiteBalanceRGGB rw)
              (Raw14.words buf) w h pix0 Hw Hh Hwe Hhe Hsize Hdata)
    as (pix1 & -> & Hlen1 & Hcells1).
  rewrite bind_Val, fill_same.
  destruct (fill_even w h pix1 Hw Hh Hwe Hhe ltac:(lia))
    as (pix2 & -> & Hlen2 & Hcells2).
  exists pix2. split; [reflexivity |]. split; [lia |].
  intros x y Hx Hy. unfold pixel_at. rewrite (Hcells2 x y Hx Hy).
  apply (raw14_filled _ _ _ _ w h pix0); try assumption.
  intros x' y' Hx' Hy'. subst pix0. apply cell_replicate. nia.
Qed.

(** ** Where [readraw14] stops *)

Lemma index_safe {A : Type} (l : list A) (i : Z) :
  index l i = Panic \/ exists a, index l i = Val a.
Proof.
  unfold index. destruct (i <? 0); [left; reflexivity |].
  destruct (l !! Z.to_nat i); [right; eexists |left]; reflexivity.
Qed.

Section Raw14Stops.
Context `{Platform}.
Variables (xfactors : coefficients) (rw : RD.rawDetails) (wb : list float).
Variable data : list Z.

Lemma writeUpper_safe (stride y x : Z) (pix : list pixel16) :
  Raw14.writeUpper xfactors rw wb data stride y x pix = Panic
  \/ exists pix', Raw14.writeUpper xfactors rw wb data stride y x pix = Val (x + 1, pix')
                  /\ length pix' = length pix.
Proof.
  unfold Raw14.writeUpper. cbv zeta.
  destruct (index_safe data (y * stride + x)) as [-> | [d ->]];
    [left; reflexivity |].
  rewrite bind_Val.
  match goal with
  | |- context [modify pix ?d ?f] =>
      destruct (modify_safe pix d f) as [-> | (pix1 & -> & L1)];
        [left; reflexivity |]
  end.
  rewrite bind_Val.
  destruct (index_safe data (y * stride + (x + 1))) as [-> | [d1 ->]];
    [left; reflexivity |].
  rewrite bind_Val.
  match goal with
  | |- context [modify pix1 ?d ?f] =>
      destruct (modify_safe pix1 d f) as [-> | (pix2 & -> & L2)];
        [left; reflexivity |]
  end.
  rewrite bind_Val. right. exists pix2. split; [reflexivity | congruence].
Qed.

Lemma writeLower_safe (stride y x : Z) (pix : list pixel16) :
  Raw14.writeLower xfactors rw wb data stride y x pix = Panic
  \/ exists pix', Raw14.writeLower xfactors rw wb data stride y x pix = Val (x + 1, pix')
                  /\ length pix' = length pix.
Proof.
  unfold Raw14.writeLower. cbv zeta.
  destruct (index_safe data (y * stride + x)) as [-> | [d ->]];
    [left; reflexivity |].
  rewrite bind_Val.
  match goal with
  | |- context [modify pix ?d ?f] =>
      destruct (modify_safe pix d f) as [-> | (pix1 & -> & L1)];
        [left; reflexivity |]
  end.
  rewrite bind_Val.
  destruct (index_safe data (y * stride + (x + 1))) as [-> | [d1 ->]];
    [left; reflexivity |].
  rewrite bind_Val.
  match goal with
  | |- context [modify pix1 ?d ?f] =>
      destruct (modify_safe pix1 d f) as [-> | (pix2 & -> & L2)];
        [left; reflexivity |]
  end.
  rewrite bind_Val. right. exists pix2. split; [reflexivity | congruence].
Qed.

Lemma writeUpper_short (stride y x : Z) (pix : list pixel16) :
  Z.of_nat (length data) <= y * stride + x + 1 ->
  Raw14.writeUpper xfactors rw wb data stride y x pix = Panic.
Proof.
  intros Hshort. unfold Raw14.writeUpper. cbv zeta.
  destruct (index_safe data (y * stride + x)) as [-> | [d ->]]; [reflexivity |].
  rewrite bind_Val.
  match goal with
  | |- context [modify pix ?d ?f] =>
      destruct (modify_safe pix d f) as [-> | (pix1 & -> & L1)]; [reflexivity |]
  end.
  rewrite bind_Val.
  rewrite (index_out_of_range data (y * stride + (x + 1))) by lia.
  reflexivity.
Qed.

Lemma writeLower_short (stride y x : Z) (pix : list pixel16) :
  Z.of_nat (length data) <= y * stride + x + 1 ->
  Raw14.writeLower xfactors rw wb data stride y x pix = Panic.
Proof.
  intros Hshort. unfold Raw14.writeLower. cbv zeta.
  destruct (index_safe data (y * stride + x)) as [-> | [d ->]]; [reflexivity |].
  rewrite bind_Val.
  match goal with
  | |- context [modify pix ?d ?f] =>
      destruct (modify_safe pix d f) as [-> | (pix1 & -> & L1)]; [reflexivity |]
  end.
  rewrite bind_Val.
  rewrite (index_out_of_range data (y * stride + (x + 1))) by lia.
  reflexivity.
Qed.

Lemma write_upper_loop_safe (w y : Z) (pix : list pixel16) :
  for_lt w (Raw14.writeUpper xfactors rw wb data w y) 0 pix = Panic
  \/ exists pix', for_lt w (Raw14.writeUpper xfactors rw wb data w y) 0 pix = Val pix'
                  /\ length pix' = length pix.
Proof.
  destruct (for_lt_safe (fun _ p => length p = length pix) w
              (Raw14.writeUpper xfactors rw wb data w y) 0 pix)
    as [E | (x' & pix' & E & _ & Hlen)].
  - intros x p Hp _.
    destruct (writeUpper_safe w y x p) as [E | (p' & E & Hlen)]; [left; exact E |].
    right. exists (x + 1), p'. split; [exact E |]. split; [lia | congruence].
  - reflexivity.
  - left; exact E.
  - right. exists pix'. split; assumption.
Qed.

Lemma write_lower_loop_safe (w y : Z) (pix : list pixel16) :
  for_lt w (Raw14.writeLower xfactors rw wb data w y) 0 pix = Panic
  \/ exists pix', for_lt w (Raw14.writeLower xfactors rw wb data w y) 0 pix = Val pix'
                  /\ length pix' = length pix.
Proof.
  destruct (for_lt_safe (fun _ p => length p = length pix) w
              (Raw14.writeLower xfactors rw wb data w y) 0 pix)
    as [E | (x' & pix' & E & _ & Hlen)].
  - intros x p Hp _.
    destruct (writeLower_safe w y x p) as [E | (p' & E & Hlen)]; [left; exact E |].
    right. exists (x + 1), p'. split; [exact E |]. split; [lia | congruence].
  - reflexivity.
  - left; exact E.
  - right. exists pix'. split; assumption.
Qed.

Lemma write_upper_loop_short (w y : Z) (pix : list pixel16) :
  0 <= y * w <= Z.of_nat (length data) ->
  Z.of_nat (length data) < y * w + w ->
  for_lt w (Raw14.writeUpper xfactors rw wb data w y) 0 pix = Panic.
Proof.
  intros Hlo Hhi.
  apply (for_lt_panics
           (fun x _ => 0 <= x /\ y * w + x <= Z.of_nat (length data))).
  - intros x p [Hx Hin]. split; [lia |].
    destruct (Z.le_gt_cases (Z.of_nat (length data)) (y * w + x + 1)) as [Hs | Hl].
    + left. apply writeUpper_short. exact Hs.
    + destruct (writeUpper_safe w y x p) as [E | (p' & E & _)]; [left; exact E |].
      right. exists (x + 1), p'. split; [exact E |]. lia.
  - lia.
Qed.

Lemma write_lower_loop_short (w y : Z) (pix : list pixel16) :
  0 <= y * w <= Z.of_nat (length data) ->
  Z.of_nat (length data) < y * w + w ->
  for_lt w (Raw14.writeLower xfactors rw wb data w y) 0 pix = Panic.
Proof.
  intros Hlo Hhi.
  apply (for_lt_panics
           (fun x _ => 0 <= x /\ y * w + x <= Z.of_nat (length data))).
  - intros x p [Hx Hin]. split; [lia |].
    destruct (Z.le_gt_cases (Z.of_nat (length data)) (y * w + x + 1)) as [Hs | Hl].
    + left. apply writeLower_short. exact Hs.
    + destruct (writeLower_safe w y x p) as [E | (p' & E & _)]; [left; exact E |].
      right. exists (x + 1), p'. split; [exact E |]. lia.
  - lia.
Qed.

Lemma write_safe (w h : Z) (pix0 : list pixel16) :
  0 <= w -> 0 <= h ->
  Raw14.write xfactors rw wb data (mkRGB14 pix0 w (image_Rect 0 0 w h)) = Panic
  \/ exists pix',
       Raw14.write xfactors rw wb data (mkRGB14 pix0 w (image_Rect 0 0 w h))
       = Val (mkRGB14 pix' w (image_Rect 0 0 w h))
       /\ length pix' = length pix0.
Proof.
  intros Hw Hh. unfold Raw14.write. simpl. rewrite !Z.max_r by lia.
  lazymatch goal with
  | |- context [for_lt h ?body 0 pix0] =>
      destruct (for_lt_safe (fun _ p => length p = length pix0) h body 0 pix0)
        as [E | (y' & pix' & E & _ & Hlen)]
  end.
  - intros y p Hp _.
    destruct (write_upper_loop_safe w y p) as [-> | (p1 & -> & L1)];
      [left; reflexivity |].
    rewrite bind_Val. cbv zeta.
    destruct (write_lower_loop_safe w (y + 1) p1) as [-> | (p2 & -> & L2)];
      [left; reflexivity |].
    rewrite bind_Val. right. exists (y + 1), p2.
    split; [reflexivity |]. split; [lia | congruence].
  - reflexivity.
  - left. rewrite E. reflexivity.
  - right. exists pix'. rewrite E, bind_Val. split; [reflexivity | exact Hlen].
Qed.

Lemma write_short (w h : Z) (pix0 : list pixel16) :
  0 < w -> 0 < h ->
  Z.of_nat (length data) < w * h ->
  Raw14.write xfactors rw wb data (mkRGB14 pix0 w (image_Rect 0 0 w h)) = Panic.
Proof.
  intros Hw Hh Hshort. unfold Raw14.write. simpl. rewrite !Z.max_r by lia.
  lazymatch goal with
  | |- context [for_lt h ?body 0 pix0] =>
      rewrite (for_lt_panics
                 (fun y _ => 0 <= y /\ y * w <= Z.of_nat (length data))
                 h body 0 pix0)
  end.
  - reflexivity.
  - intros y p [Hy Hin]. split; [nia |].
    destruct (Z.le_gt_cases (y * w + w) (Z.of_nat (length data))) as [Hrow | Hrow].
    + destruct (write_upper_loop_safe w y p) as [-> | (p1 & -> & L1)];
        [left; reflexivity |].
      rewrite bind_Val. cbv zeta.
      destruct (Z.le_gt_cases ((y + 1) * w + w) (Z.of_nat (length data)))
        as [Hrow1 | Hrow1].
      * destruct (write_lower_loop_safe w (y + 1) p1) as [-> | (p2 & -> & L2)];
          [left; reflexivity |].
        rewrite bind_Val. right. exists (y + 1), p2.
        split; [reflexivity |]. split; [lia |]. split; [lia | nia].
      * left. rewrite (write_lower_loop_short w (y + 1) p1) by nia. reflexivity.
    + left. rewrite (write_upper_loop_short w y p) by nia. reflexivity.
  - lia.
Qed.

End Raw14Stops.

(** X16. With a positive width and height, [readraw14] panics when the
    width or the height is odd, and when the payload has fewer than
    width * height 16-bit words: it returns no partial image. *)
Theorem readraw14_panics `{Platform} `{Solver}
    (buf : list Byte.byte) (rw : RD.rawDetails) (w h : Z) :
  RD.width rw = w -> RD.height rw = h ->
  0 < w -> 0 < h ->
  w mod 2 = 1 \/ h mod 2 = 1 \/ Z.of_nat (length (Raw14.words buf)) < w * h ->
  Raw14.readraw14 buf rw = Panic.
Proof.
  intros Ew Eh Hw Hh Hbad.
  unfold Raw14.readraw14. cbv zeta. rewrite Ew, Eh.
  rewrite (NewRGB14_origin w h) by lia. rewrite bind_Val.
  set (pix0 := replicate (Z.to_nat (w * h)) zero_pixel).
  assert (Hsize : Z.of_nat (length pix0) = w * h).
  { subst pix0. rewrite length_replicate. nia. }
  destruct (Z.le_gt_cases (w * h) (Z.of_nat (length (Raw14.words buf))))
    as [Hlong | Hshort].
  - match goal with
    | |- context [Raw14.write ?xf rw ?wb ?data _] =>
        destruct (write_safe xf rw wb data w h pix0) as [-> | (pix1 & -> & L1)];
          [lia | lia | reflexivity |]
    end.
    rewrite bind_Val, fill_same.
    apply fill_odd; lia.
  - match goal with
    | |- context [Raw14.write ?xf rw ?wb ?data _] =>
        rewrite (write_short xf rw wb data w h pix0 Hw Hh Hshort)
    end.
    reflexivity.
Qed.

(** ** The write pass and the whole of [readCRAW] *)

Section StorePairs.
Variables (set_a set_b : Z -> pixel16 -> pixel16).

Lemma store_with_full (base : Z) (first second : list Z) (i : Z)
    (pix : list pixel16) :
  0 <= i < Z.of_nat (length first) ->
  i < Z.of_nat (length second) ->
  0 <= base + i * 2 ->
  base + i * 2 + 1 < Z.of_nat (length pix) ->
  exists pix',
    store_with set_a set_b base first second i pix = Val (i, pix')
    /\ length pix' = length pix
    /\ cell pix' (base + i * 2)
       = set_a (uint16 (first !!! Z.to_nat i)) (cell pix (base + i * 2))
    /\ cell pix' (base + i * 2 + 1)
       = set_b (uint16 (second !!! Z.to_nat i)) (cell pix (base + i * 2 + 1))
    /\ (forall j, 0 <= j -> j <> base + i * 2 -> j <> base + i * 2 + 1 ->
        cell pix' j = cell pix j).
Proof.
  intros Hfirst Hsecond Hlo Hhi. unfold store_with.
  rewrite (index_total first i), (index_total second i) by lia. rewrite bind_Val.
  destruct (modify_in_range pix (base + i * 2) (set_a (uint16 (first !!! Z.to_nat i))))
    as (pix1 & -> & L1 & C1 & F1); [lia |].
  rewrite !bind_Val.
  destruct (modify_in_range pix1 (base + i * 2 + 1)
              (set_b (uint16 (second !!! Z.to_nat i))))
    as (pix2 & -> & L2 & C2 & F2); [lia |].
  rewrite bind_Val. exists pix2. split; [reflexivity |].
  split; [congruence |]. split; [| split].
  - rewrite F2 by lia. rewrite C1. reflexivity.
  - rewrite C2. rewrite F1 by lia. reflexivity.
  - intros j Hj Hne Hne1. rewrite F2 by lia. apply F1; lia.
Qed.

Lemma store_with_safe (base : Z) (first second : list Z) (i : Z)
    (pix : list pixel16) :
  store_with set_a set_b base first second i pix = Panic
  \/ exists pix', store_with set_a set_b base first second i pix = Val (i, pix')
                  /\ length pix' = length pix.
Proof.
  unfold store_with.
  destruct (index_safe first i) as [-> | [a ->]]; [left; reflexivity |].
  rewrite bind_Val.
  destruct (modify_safe pix (base + i * 2) (set_a (uint16 a)))
    as [-> | (pix1 & -> & L1)]; [left; reflexivity |].
  rewrite bind_Val.
  destruct (index_safe second i) as [-> | [b ->]]; [left; reflexivity |].
  rewrite bind_Val.
  destruct (modify_safe pix1 (base + i * 2 + 1) (set_b (uint16 b)))
    as [-> | (pix2 & -> & L2)]; [left; reflexivity |].
  rewrite bind_Val. right. exists pix2. split; [reflexivity | congruence].
Qed.

Lemma store_loop_safe (n base : Z) (first second : list Z) (pix : list pixel16) :
  for_lt n (store_with set_a set_b base first second) 0 pix = Panic
  \/ exists pix', for_lt n (store_with set_a set_b base first second) 0 pix = Val pix'
                  /\ length pix' = length pix.
Proof.
  destruct (for_lt_safe (fun _ p => length p = length pix) n
              (store_with set_a set_b base first second) 0 pix)
    as [E | (i' & pix' & E & _ & Hlen)].
  - intros i p Hp _.
    destruct (store_with_safe base first second i p) as [E | (p' & E & Hlen)];
      [left; exact E |].
    right. exists i, p'. split; [exact E |]. split; [lia | congruence].
  - reflexivity.
  - left; exact E.
  - right. exists pix'. split; assumption.
Qed.

Variables (written : Z -> Z -> pixel16) (w h : Z) (pix0 : list pixel16).
Hypothesis Hw : 0 <= w.
Hypothesis Hsize : Z.of_nat (length pix0) = w * h.

(** The store loop over one group of 32 cells of a row. *)
Lemma store_block (x y : Z) (first second : list Z) (pix : list pixel16) :
  0 <= x -> x + 32 <= w -> 0 <= y < h ->
  16 <= Z.of_nat (length first) ->
  16 <= Z.of_nat (length second) ->
  (forall i, 0 <= i < 16 ->
     written (x + 2 * i) y
     = set_a (uint16 (first !!! Z.to_nat i)) (cell pix0 (y * w + (x + 2 * i)))
     /\ written (x + 2 * i + 1) y
        = set_b (uint16 (second !!! Z.to_nat i)) (cell pix0 (y * w + (x + 2 * i + 1)))) ->
  pass_inv written pix0 w h (y * w + x) pix ->
  exists pix',
    for_lt 16 (store_with set_a set_b (y * w + x) first second) 0 pix = Val pix'
    /\ pass_inv written pix0 w h (y * w + x + 32) pix'.
Proof.
  intros Hx Hx32 Hy Hfirst Hsecond Hwritten Hinv.
  destruct (for_lt_invariant
              (fun i p => 0 <= i <= 16
                          /\ pass_inv written pix0 w h (y * w + (x + 2 * i)) p)
              16 (store_with set_a set_b (y * w + x) first second) 0 pix)
    as (i' & pix' & E & Hi' & Hr & Hp').
  - intros i p [Hi Hp] Hlt.
    pose proof Hp as [Hlen _].
    destruct (store_with_full (y * w + x) first second i p)
      as (p' & Ep & Hlen' & Ca & Cb & Frame); [lia | lia | nia | nia |].
    exists i, p'. split; [exact Ep |]. split; [lia |]. split; [lia |].
    replace (y * w + x + i * 2) with (y * w + (x + 2 * i)) in * by lia.
    destruct (Hwritten i ltac:(lia)) as [Wa Wb].
    replace (y * w + (x + 2 * (i + 1))) with (y * w + (x + 2 * i) + 2) by lia.
    apply (pass_inv_advance written w h pix0 Hw (y * w + (x + 2 * i)) p p'
             (x + 2 * i) y); try assumption; try lia.
    + rewrite Ca, Wa.
      rewrite (pass_inv_ahead written w h pix0 (y * w + (x + 2 * i)) p
                 (x + 2 * i) y Hp) by lia.
      reflexivity.
    + rewrite Cb, Wb.
      pose proof (pass_inv_ahead written w h pix0 (y * w + (x + 2 * i)) p
                    (x + 2 * i + 1) y Hp ltac:(lia) ltac:(lia) ltac:(lia)) as C1.
      replace (y * w + (x + 2 * i + 1)) with (y * w + (x + 2 * i) + 1) in * by lia.
      rewrite C1. reflexivity.
  - split; [lia |]. replace (y * w + (x + 2 * 0)) with (y * w + x) by lia.
    exact Hinv.
  - exists pix'. split; [exact E |].
    assert (i' = 16) by lia. subst i'.
    replace (y * w + x + 32) with (y * w + (x + 2 * 16)) by lia. exact Hp'.
Qed.

End StorePairs.

Lemma block_length (buf : list Byte.byte) (lo n : Z) :
  0 <= lo -> 0 <= n -> lo + n <= Z.of_nat (length buf) ->
  length (block buf lo n) = Z.to_nat n.
Proof.
  intros Hlo Hn Hhi. unfold block. rewrite length_take, length_drop. lia.
Qed.

Section CrawWrite.
Context `{Platform} `{Codec}.
Variables (xfactors : coefficients) (rw : RD.rawDetails) (wb : list float).
Variable buf : list Byte.byte.
Hypothesis Hpbs : pixelBlockSize = 16.
Hypothesis Hdec : forall s : list Byte.byte,
  length s = 16%nat -> 16 <= Z.of_nat (length (Decompress (readCrawBlock s))).

Lemma craw_value_of_block (w x y i : Z) :
  x mod 32 = 0 -> 0 <= i < 16 ->
  craw_value xfactors rw wb buf w (x + 2 * i) y
  = craw_sample xfactors rw wb 0
      (Decompress (readCrawBlock (block buf (y * w + x) 16)) !!! Z.to_nat i)
  /\ craw_value xfactors rw wb buf w (x + 2 * i + 1) y
     = craw_sample xfactors rw wb 1
         (Decompress (readCrawBlock (block buf (y * w + x + 16) 16)) !!! Z.to_nat i).
Proof.
  intros Hx Hi. unfold craw_value, craw_group. cbv zeta. rewrite Hpbs.
  assert (E0 : (x + 2 * i) mod 32 = 2 * i) by zmod.
  assert (E1 : (x + 2 * i + 1) mod 32 = 2 * i + 1) by zmod.
  assert (P0 : (x + 2 * i) mod 2 = 0) by zmod.
  assert (P1 : (x + 2 * i + 1) mod 2 = 1) by zmod.
  assert (D0 : 2 * i / 2 = i) by zmod.
  assert (D1 : (2 * i + 1) / 2 = i) by zmod.
  rewrite E0, E1, P0, P1, D0, D1. simpl.
  replace (x + 2 * i - 2 * i) with x by lia.
  replace (x + 2 * i + 1 - (2 * i + 1)) with x by lia.
  split; reflexivity.
Qed.

Variables (w h : Z) (pix0 : list pixel16).
Hypothesis Hw : 0 <= w.
Hypothesis Hh : 0 <= h.
Hypothesis Hw32 : w mod 32 = 0.
Hypothesis Hsize : Z.of_nat (length pix0) = w * h.
Hypothesis Hbuf : w * h <= Z.of_nat (length buf).

Local Abbreviation written := (craw_written xfactors rw wb buf pix0 w).

Lemma writeBlock_full (x y : Z) (pix : list pixel16) :
  x mod 32 = 0 -> 0 <= x < w -> 0 <= y < h ->
  pass_inv written pix0 w h (y * w + x) pix ->
  exists pix',
    CRAW.writeBlock xfactors rw wb buf w y x pix = Val (x, pix')
    /\ pass_inv written pix0 w h (y * w + (x + 32)) pix'.
Proof.
  intros Hx32 Hx Hy Hinv.
  assert (Hx1 : x + 32 <= w) by zmod.
  assert (Hrange : y * w + x + 32 <= w * h) by nia.
  set (base := y * w + x).
  set (a0 := Decompress (readCrawBlock (block buf base 16))).
  set (b0 := Decompress (readCrawBlock (block buf (base + 16) 16))).
  assert (Ha0 : 16 <= Z.of_nat (length a0)).
  { apply Hdec. rewrite block_length by (subst base; nia). reflexivity. }
  assert (Hb0 : 16 <= Z.of_nat (length b0)).
  { apply Hdec. rewrite block_length by (subst base; nia). reflexivity. }
  set (f0 := fun v => pixel (process xfactors (uint32 v)
                              (uint32 (elem (RD.blackLevel rw) 0)) (ratio wb 0))).
  set (f1 := fun v => pixel (process xfactors (uint32 v)
                              (uint32 (elem (RD.blackLevel rw) 1)) (ratio wb 1))).
  assert (Hvalues : forall i, 0 <= i < 16 ->
            craw_value xfactors rw wb buf w (x + 2 * i) y
            = uint16 (map f0 a0 !!! Z.to_nat i)
            /\ craw_value xfactors rw wb buf w (x + 2 * i + 1) y
               = uint16 (map f1 b0 !!! Z.to_nat i)).
  { intros i Hi.
    destruct (craw_value_of_block w x y i Hx32 Hi) as [-> ->].
    fold base a0 b0. unfold craw_sample.
    change (map f0 a0) with (f0 <$> a0). change (map f1 b0) with (f1 <$> b0).
    rewrite (list_lookup_total_fmap f0 a0 (Z.to_nat i)) by lia.
    rewrite (list_lookup_total_fmap f1 b0 (Z.to_nat i)) by lia.
    split; reflexivity. }
  assert (Hparity : forall i, 0 <= i < 16 ->
            (x + 2 * i) mod 2 = 0 /\ (x + 2 * i + 1) mod 2 = 1).
  { intros i Hi. split; zmod. }
  unfold CRAW.writeBlock. rewrite Hpbs. cbv zeta. fold base.
  rewrite (slice_in_range buf base (base + 16)) by (subst base; nia).
  rewrite (slice_in_range buf (base + 16) (base + 16 + 16)) by (subst base; nia).
  replace (base + 16 - base) with 16 by lia.
  replace (base + 16 + 16 - (base + 16)) with 16 by lia.
  fold (block buf base 16). fold (block buf (base + 16) 16).
  fold a0 b0. fold f0 f1.
  rewrite Z.rem_mod_nonneg by lia.
  replace (y * w + (x + 32)) with (y * w + x + 32) by lia.
  destruct (Z.eqb_spec (y mod 2) 0) as [Hye | Hyo].
  - rewrite !bind_Val.
    change (CRAW.storeRG base) with (store_with setR setG base).
    destruct (store_block setR setG written w h pix0 Hw Hsize x y
                (map f0 a0) (map f1 b0) pix)
      as (pix' & E & Hinv'); try assumption; try lia.
    + rewrite length_map. exact Ha0.
    + rewrite length_map. exact Hb0.
    + intros i Hi. destruct (Hvalues i Hi) as [Va Vb].
      destruct (Hparity i Hi) as [Pa Pb].
      unfold craw_written. cbv zeta. rewrite Hye, Pa, Pb, Va, Vb. simpl.
      split; reflexivity.
    + fold base in E. subst a0 b0. rewrite E, bind_Val.
      exists pix'. split; [reflexivity | exact Hinv'].
  - rewrite !bind_Val.
    change (CRAW.storeGB base) with (store_with setG setB base).
    assert (Hy1 : y mod 2 = 1) by zmod.
    destruct (store_block setG setB written w h pix0 Hw Hsize x y
                (map f0 a0) (map f1 b0) pix)
      as (pix' & E & Hinv'); try assumption; try lia.
    + rewrite length_map. exact Ha0.
    + rewrite length_map. exact Hb0.
    + intros i Hi. destruct (Hvalues i Hi) as [Va Vb].
      destruct (Hparity i Hi) as [Pa Pb].
      unfold craw_written. cbv zeta. rewrite Hy1, Pa, Pb, Va, Vb. simpl.
      split; reflexivity.
    + fold base in E. subst a0 b0. rewrite E, bind_Val.
      exists pix'. split; [reflexivity | exact Hinv'].
Qed.

Lemma write_row (y : Z) (pix : list pixel16) :
  0 <= y < h ->
  pass_inv written pix0 w h (y * w) pix ->
  exists pix',
    for_by 32 w (CRAW.writeBlock xfactors rw wb buf w y) 0 pix = Val pix'
    /\ pass_inv written pix0 w h ((y + 1) * w) pix'.
Proof.
  intros Hy Hinv. unfold for_by.
  destruct (for_fuel_invariant
              (fun x p => x mod 32 = 0 /\ 0 <= x <= w
                          /\ pass_inv written pix0 w h (y * w + x) p)
              w 32 (CRAW.writeBlock xfactors rw wb buf w y) ltac:(lia)
              ltac:(intros x p (Hx32 & Hx & Hp) Hlt;
                    destruct (writeBlock_full x y p Hx32 ltac:(lia) Hy Hp)
                      as (p' & E & Hp');
                    exists x, p'; split; [exact E |]; split; [lia |];
                    split; [zmod |]; split; [zmod | exact Hp'])
              (Z.to_nat (w - 0)) 0 pix)
    as (x' & pix' & E & Hx' & Hx32 & Hxr & Hp').
  - split; [reflexivity |]. split; [lia |].
    replace (y * w + 0) with (y * w) by lia. exact Hinv.
  - lia.
  - exists pix'. split; [exact E |].
    assert (x' = w) by lia. subst x'.
    replace ((y + 1) * w) with (y * w + w) by lia. exact Hp'.
Qed.

Lemma craw_write_whole :
  exists pix',
    CRAW.write xfactors rw wb buf (mkRGB14 pix0 w (image_Rect 0 0 w h))
    = Val (mkRGB14 pix' w (image_Rect 0 0 w h))
    /\ length pix' = length pix0
    /\ forall x y, 0 <= x < w -> 0 <= y < h ->
         cell pix' (y * w + x) = written x y.
Proof.
  unfold CRAW.write. simpl.
  rewrite !Z.max_r by lia.
  lazymatch goal with
  | |- context [for_lt h ?body 0 pix0] =>
      destruct (for_lt_invariant
                  (fun y p => 0 <= y <= h /\ pass_inv written pix0 w h (y * w) p)
                  h body 0 pix0) as (y1 & pix1 & -> & Hy1 & Hy1r & Hinv)
  end.
  { intros y p (Hy & Hp) Hlt.
    destruct (write_row y p) as (p' & -> & Hp'); try assumption; try lia.
    rewrite bind_Val.
    exists y, p'. split; [reflexivity |]. split; [lia |].
    split; [lia | exact Hp']. }
  { split; [lia |].
    replace (0 * w) with 0 by lia. apply pass_inv_start; assumption. }
  rewrite bind_Val.
  assert (y1 = h) by lia. subst y1.
  exists pix1. split; [reflexivity |]. split; [exact (proj1 Hinv) |].
  intros x y Hx Hy.
  eapply pass_inv_end; eassumption.
Qed.

End CrawWrite.

Lemma craw_filled `{Platform} `{Codec} (xfactors : coefficients)
    (rw : RD.rawDetails) (wb : list float) (buf : list Byte.byte)
    (w h : Z) (pix0 pix1 : list pixel16) (x y : Z) :
  0 <= w -> 0 <= h -> w mod 2 = 0 -> h mod 2 = 0 ->
  (forall x y, 0 <= x < w -> 0 <= y < h -> cell pix0 (y * w + x) = zero_pixel) ->
  (forall x y, 0 <= x < w -> 0 <= y < h ->
     cell pix1 (y * w + x) = craw_written xfactors rw wb buf pix0 w x y) ->
  0 <= x < w -> 0 <= y < h ->
  filled pix1 w x y = craw_pixel xfactors rw wb buf w x y.
Proof.
  intros Hw Hh Hwe Hhe Hzero Hcells Hx Hy.
  unfold filled, craw_pixel. cbv zeta.
  set (xe := x - x mod 2). set (ye := y - y mod 2).
  assert (Hxe : xe mod 2 = 0) by (subst xe; zmod).
  assert (Hye : ye mod 2 = 0) by (subst ye; zmod).
  assert (Hxo : (xe + 1) mod 2 = 1) by (subst xe; zmod).
  assert (Hyo : (ye + 1) mod 2 = 1) by (subst ye; zmod).
  assert (Hxr : 0 <= xe /\ xe + 1 < w) by (subst xe; zmod).
  assert (Hyr : 0 <= ye /\ ye + 1 < h) by (subst ye; zmod).
  pose proof (Hcells xe ye ltac:(lia) ltac:(lia)) as C0.
  pose proof (Hcells (xe + 1) ye ltac:(lia) ltac:(lia)) as C1.
  pose proof (Hcells xe (ye + 1) ltac:(lia) ltac:(lia)) as C2.
  pose proof (Hcells (xe + 1) (ye + 1) ltac:(lia) ltac:(lia)) as C3.
  unfold craw_written in C0, C1, C2, C3. cbv zeta in C0, C1, C2, C3.
  rewrite Hxe, Hye in C0. rewrite Hxo, Hye in C1.
  rewrite Hxe, Hyo in C2. rewrite Hxo, Hyo in C3.
  simpl in C0, C1, C2, C3.
  replace (ye * w + (xe + 1)) with (ye * w + xe + 1) in * by lia.
  replace ((ye + 1) * w + (xe + 1)) with ((ye + 1) * w + xe + 1) in * by lia.
  assert (Hpad : pad (cell pix1 (y * w + x)) = 0).
  { rewrite (Hcells x y Hx Hy). unfold craw_written. cbv zeta.
    rewrite (Hzero x y Hx Hy).
    destruct (y mod 2 =? 0), (x mod 2 =? 0); reflexivity. }
  rewrite Hpad, C0, C3.
  destruct (y mod 2 =? 0); [rewrite C1 | rewrite C2]; reflexivity.
Qed.

(** X17. With blocks of 16 bytes that decompress to at least 16 samples,
    a width that is a multiple of 32, an even height and a payload of at
    least width * height bytes, [readCRAW] returns an image of that
    width and height: of each group of 32 cells of a row the even
    columns hold the samples of the block of bytes at the flat index of
    the group and the odd columns those of the block after it, and the
    pixel at column x of row y takes red, green and blue from the cells
    of its 2x2 tile as the fill has it, with 0 in the fourth field. *)
Theorem readCRAW_of_whole_blocks `{Platform} `{Codec} `{Solver}
    (buf : list Byte.byte) (rw : RD.rawDetails) (w h : Z) :
  pixelBlockSize = 16 ->
  (forall s : list Byte.byte,
     length s = 16%nat -> 16 <= Z.of_nat (length (Decompress (readCrawBlock s)))) ->
  RD.width rw = w -> RD.height rw = h ->
  0 <= w -> 0 <= h -> w mod 32 = 0 -> h mod 2 = 0 ->
  w * h <= Z.of_nat (length buf) ->
  exists pix,
    CRAW.readCRAW buf rw = Val (mkRGB14 pix w (image_Rect 0 0 w h))
    /\ Z.of_nat (length pix) = w * h
    /\ forall x y, 0 <= x < w -> 0 <= y < h ->
         pixel_at pix w x y
         = craw_pixel (gammacorrect (curve_points rw)) rw (whiteBalanceRGGB rw)
             buf w x y.
Proof.
  intros Hpbs Hdec Ew Eh Hw Hh Hw32 Hhe Hbuf.
  assert (Hwe : w mod 2 = 0) by zmod.
  unfold CRAW.readCRAW. cbv zeta. rewrite Ew, Eh.
  rewrite (NewRGB14_origin w h Hw Hh), bind_Val.
  set (pix0 := replicate (Z.to_nat (w * h)) zero_pixel).
  assert (Hsize : Z.of_nat (length pix0) = w * h).
  { subst pix0. rewrite length_replicate. nia. }
  fold (curve_points rw).
  destruct (craw_write_whole (gammacorrect (curve_points rw)) rw
              (whiteBalanceRGGB rw) buf Hpbs Hdec w h pix0 Hw Hh Hw32 Hsize Hbuf)
    as (pix1 & -> & Hlen1 & Hcells1).
  rewrite bind_Val.
  destruct (fill_even w h pix1 Hw Hh Hwe Hhe ltac:(lia))
    as (pix2 & -> & Hlen2 & Hcells2).
  exists pix2. split; [reflexivity |]. split; [lia |].
  intros x y Hx Hy. unfold pixel_at. rewrite (Hcells2 x y Hx Hy).
  apply (craw_filled _ _ _ _ w h pix0); try assumption.
  intros x' y' Hx' Hy'. subst pix0. apply cell_replicate. nia.
Qed.

(** ** Where [readCRAW] stops *)

Lemma slice_safe {A : Type} (l : list A) (lo hi : Z) :
  slice l lo hi = Panic \/ exists s, slice l lo hi = Val s.
Proof.
  unfold slice.
  destruct ((0 <=? lo) && (lo <=? hi) && (hi <=? Z.of_nat (length l)));
    [right; eexists |left]; reflexivity.
Qed.

Section StoreStops.
Variables (set_a set_b : Z -> pixel16 -> pixel16).

Lemma store_with_overrun (base : Z) (first second : list Z) (i : Z)
    (pix : list pixel16) :
  Z.of_nat (length pix) <= base + i * 2 + 1 ->
  store_with set_a set_b base first second i pix = Panic.
Proof.
  intros Hover. unfold store_with.
  destruct (index_safe first i) as [-> | [a ->]]; [reflexivity |].
  rewrite bind_Val.
  destruct (modify_safe pix (base + i * 2) (set_a (uint16 a)))
    as [-> | (pix1 & -> & L1)]; [reflexivity |].
  rewrite bind_Val.
  destruct (index_safe second i) as [-> | [b ->]]; [reflexivity |].
  rewrite bind_Val.
  rewrite modify_out_of_range by lia. reflexivity.
Qed.

Lemma store_loop_overrun (base : Z) (first second : list Z) (pix : list pixel16) :
  0 <= base <= Z.of_nat (length pix) ->
  Z.of_nat (length pix) < base + 32 ->
  for_lt 16 (store_with set_a set_b base first second) 0 pix = Panic.
Proof.
  intros Hbase Hover.
  apply (for_lt_panics
           (fun i p => 0 <= i /\ base + 2 * i <= Z.of_nat (length pix)
                       /\ length p = length pix)).
  - intros i p (Hi & Hin & Hlen). split; [lia |].
    destruct (Z.le_gt_cases (Z.of_nat (length pix)) (base + i * 2 + 1)) as [Hs | Hl].
    + left. apply store_with_overrun. lia.
    + destruct (store_with_safe set_a set_b base first second i p)
        as [E | (p' & E & Hlen')]; [left; exact E |].
      right. exists i, p'. split; [exact E |]. split; [lia |].
      split; [lia |]. split; [lia | congruence].
  - split; [lia |]. split; [lia | reflexivity].
Qed.

End StoreStops.

Section CrawStops.
Context `{Platform} `{Codec}.
Variables (xfactors : coefficients) (rw : RD.rawDetails) (wb : list float).
Variable buf : list Byte.byte.

Lemma writeBlock_safe (stride y x : Z) (pix : list pixel16) :
  CRAW.writeBlock xfactors rw wb buf stride y x pix = Panic
  \/ exists pix', CRAW.writeBlock xfactors rw wb buf stride y x pix = Val (x, pix')
                  /\ length pix' = length pix.
Proof.
  unfold CRAW.writeBlock. cbv zeta.
  destruct (Z.rem y 2 =? 0).
  - destruct (slice_safe buf (y * stride + x) (y * stride + x + pixelBlockSize))
      as [-> | [s1 ->]]; [left; reflexivity |].
    rewrite bind_Val.
    destruct (slice_safe buf (y * stride + x + pixelBlockSize)
                (y * stride + x + pixelBlockSize + pixelBlockSize))
      as [-> | [s2 ->]]; [left; reflexivity |].
    rewrite bind_Val.
    change (CRAW.storeRG (y * stride + x))
      with (store_with setR setG (y * stride + x)).
    match goal with
    | |- context [for_lt ?n (store_with ?sa ?sb ?b ?f ?s) 0 pix] =>
        destruct (store_loop_safe sa sb n b f s pix) as [-> | (pix' & -> & Hlen)]
    end; [left; reflexivity |].
    rewrite bind_Val. right. exists pix'. split; [reflexivity | exact Hlen].
  - destruct (slice_safe buf (y * stride + x) (y * stride + x + pixelBlockSize))
      as [-> | [s1 ->]]; [left; reflexivity |].
    rewrite bind_Val.
    destruct (slice_safe buf (y * stride + x + pixelBlockSize)
                (y * stride + x + pixelBlockSize + pixelBlockSize))
      as [-> | [s2 ->]]; [left; reflexivity |].
    rewrite bind_Val.
    change (CRAW.storeGB (y * stride + x))
      with (store_with setG setB (y * stride + x)).
    match goal with
    | |- context [for_lt ?n (store_with ?sa ?sb ?b ?f ?s) 0 pix] =>
        destruct (store_loop_safe sa sb n b f s pix) as [-> | (pix' & -> & Hlen)]
    end; [left; reflexivity |].
    rewrite bind_Val. right. exists pix'. split; [reflexivity | exact Hlen].
Qed.

Lemma craw_row_safe (w y : Z) (pix : list pixel16) :
  for_by 32 w (CRAW.writeBlock xfactors rw wb buf w y) 0 pix = Panic
  \/ exists pix', for_by 32 w (CRAW.writeBlock xfactors rw wb buf w y) 0 pix = Val pix'
                  /\ length pix' = length pix.
Proof.
  unfold for_by.
  destruct (for_fuel_safe (fun x p => 0 <= x /\ length p = length pix) w 32
              (CRAW.writeBlock xfactors rw wb buf w y) ltac:(lia)
              ltac:(intros x p [Hx Hp] _;
                    destruct (writeBlock_safe w y x p) as [E | (p' & E & Hlen)];
                    [left; exact E |];
                    right; exists x, p'; split; [exact E |]; split; [lia |];
                    split; [lia | congruence])
              (Z.to_nat (w - 0)) 0 pix)
    as [E | (x' & pix' & E & _ & _ & Hlen)].
  - split; [lia | reflexivity].
  - lia.
  - left; exact E.
  - right. exists pix'. split; assumption.
Qed.

Lemma craw_write_safe (w h : Z) (pix0 : list pixel16) :
  0 <= w -> 0 <= h ->
  CRAW.write xfactors rw wb buf (mkRGB14 pix0 w (image_Rect 0 0 w h)) = Panic
  \/ exists pix',
       CRAW.write xfactors rw wb buf (mkRGB14 pix0 w (image_Rect 0 0 w h))
       = Val (mkRGB14 pix' w (image_Rect 0 0 w h))
       /\ length pix' = length pix0.
Proof.
  intros Hw Hh. unfold CRAW.write. simpl. rewrite !Z.max_r by lia.
  lazymatch goal with
  | |- context [for_lt h ?body 0 pix0] =>
      destruct (for_lt_safe (fun _ p => length p = length pix0) h body 0 pix0)
        as [E | (y' & pix' & E & _ & Hlen)]
  end.
  - intros y p Hp _.
    destruct (craw_row_safe w y p) as [-> | (p1 & -> & L1)];
      [left; reflexivity |].
    rewrite bind_Val. right. exists y, p1.
    split; [reflexivity |]. split; [lia | congruence].
  - reflexivity.
  - left. rewrite E. reflexivity.
  - right. exists pix'. rewrite E, bind_Val. split; [reflexivity | exact Hlen].
Qed.

Hypothesis Hpbs : pixelBlockSize = 16.

(** A block whose 32 cells reach past the end of the raster. *)
Lemma writeBlock_overrun (stride y x : Z) (pix : list pixel16) :
  0 <= y * stride + x <= Z.of_nat (length pix) ->
  Z.of_nat (length pix) < y * stride + x + 32 ->
  CRAW.writeBlock xfactors rw wb buf stride y x pix = Panic.
Proof.
  intros Hbase Hpix. unfold CRAW.writeBlock. rewrite Hpbs. cbv zeta.
  set (base := y * stride + x) in *.
  destruct (Z.rem y 2 =? 0).
  - destruct (slice_safe buf base (base + 16)) as [-> | [s1 ->]]; [reflexivity |].
    rewrite bind_Val.
    destruct (slice_safe buf (base + 16) (base + 16 + 16)) as [-> | [s2 ->]];
      [reflexivity |].
    rewrite bind_Val.
    change (CRAW.storeRG base) with (store_with setR setG base).
    rewrite store_loop_overrun by lia. reflexivity.
  - destruct (slice_safe buf base (base + 16)) as [-> | [s1 ->]]; [reflexivity |].
    rewrite bind_Val.
    destruct (slice_safe buf (base + 16) (base + 16 + 16)) as [-> | [s2 ->]];
      [reflexivity |].
    rewrite bind_Val.
    change (CRAW.storeGB base) with (store_with setG setB base).
    rewrite store_loop_overrun by lia. reflexivity.
Qed.

(** The last row of a raster whose last group of 32 cells reaches past
    the raster. *)
Lemma craw_last_row_overrun (w h : Z) (pix : list pixel16) :
  0 < w -> 0 < h ->
  Z.of_nat (length pix) = w * h ->
  w mod 32 <> 0 ->
  for_by 32 w (CRAW.writeBlock xfactors rw wb buf w (h - 1)) 0 pix = Panic.
Proof.
  intros Hw Hh Hsize Hw32. unfold for_by.
  set (x0 := (w - 1) - (w - 1) mod 32).
  assert (Hx0 : 0 <= x0 < w /\ w <= x0 + 32 /\ x0 mod 32 = 0) by (subst x0; zmod).
  apply (for_fuel_panics
           (fun x p => 0 <= x <= x0 /\ x mod 32 = 0 /\ length p = length pix)
           w 32 (CRAW.writeBlock xfactors rw wb buf w (h - 1)) ltac:(lia)).
  - intros x p (Hx & Hx32 & Hlen). split; [lia |].
    destruct (Z.eq_dec x x0) as [-> | Hne].
    + left. apply writeBlock_overrun.
      * rewrite Hlen. nia.
      * rewrite Hlen. assert (w < x0 + 32) by zmod. nia.
    + destruct (writeBlock_safe w (h - 1) x p) as [E | (p' & E & Hlen')];
        [left; exact E |].
      right. exists x, p'. split; [exact E |]. split; [lia |].
      split; [zmod |]. split; [zmod | congruence].
  - split; [lia |]. split; [reflexivity | reflexivity].
  - lia.
Qed.

Lemma craw_write_overrun (w h : Z) (pix0 : list pixel16) :
  0 < w -> 0 < h ->
  Z.of_nat (length pix0) = w * h ->
  w mod 32 <> 0 ->
  CRAW.write xfactors rw wb buf (mkRGB14 pix0 w (image_Rect 0 0 w h)) = Panic.
Proof.
  intros Hw Hh Hsize Hw32. unfold CRAW.write. simpl. rewrite !Z.max_r by lia.
  lazymatch goal with
  | |- context [for_lt h ?body 0 pix0] =>
      rewrite (for_lt_panics
                 (fun y p => 0 <= y < h /\ length p = length pix0)
                 h body 0 pix0)
  end.
  - reflexivity.
  - intros y p [Hy Hlen]. split; [lia |].
    destruct (Z.eq_dec y (h - 1)) as [-> | Hne].
    + left. rewrite (craw_last_row_overrun w h p Hw Hh) by (try assumption; lia).
      reflexivity.
    + destruct (craw_row_safe w y p) as [-> | (p1 & -> & L1)];
        [left; reflexivity |].
      rewrite bind_Val. right. exists y, p1.
      split; [reflexivity |]. split; [lia |]. split; [lia | congruence].
  - split; [lia | reflexivity].
Qed.

End CrawStops.

(** X18. With a width and a height that are positive and 16-bit,
    [readCRAW] panics when the width or the height is odd, whatever the
    codec is; with blocks of 16 bytes it also panics when the width is no
    multiple of 32, the last group of the last row reaching past the
    raster. *)
Theorem readCRAW_panics `{Platform} `{Codec} `{Solver}
    (buf : list Byte.byte) (rw : RD.rawDetails) (w h : Z) :
  RD.width rw = w -> RD.height rw = h ->
  0 < w < 2 ^ 16 -> 0 < h < 2 ^ 16 ->
  (w mod 2 = 1 \/ h mod 2 = 1 -> CRAW.readCRAW buf rw = Panic)
  /\ (pixelBlockSize = 16 -> w mod 32 <> 0 -> CRAW.readCRAW buf rw = Panic).
Proof.
  intros Ew Eh [Hw _] [Hh _].
  unfold CRAW.readCRAW. cbv zeta. rewrite Ew, Eh.
  rewrite (NewRGB14_origin w h) by lia. rewrite bind_Val.
  set (pix0 := replicate (Z.to_nat (w * h)) zero_pixel).
  assert (Hsize : Z.of_nat (length pix0) = w * h).
  { subst pix0. rewrite length_replicate. nia. }
  split.
  - intros Hodd.
    match goal with
    | |- context [CRAW.write ?xf rw ?wb buf _] =>
        destruct (craw_write_safe xf rw wb buf w h pix0) as [-> | (pix1 & -> & L1)];
          [lia | lia | reflexivity |]
    end.
    rewrite bind_Val. apply fill_odd; lia.
  - intros Hpbs Hw32.
    match goal with
    | |- context [CRAW.write ?xf rw ?wb buf _] =>
        rewrite (craw_write_overrun xf rw wb buf Hpbs w h pix0 Hw Hh Hsize Hw32)
    end.
    reflexivity.
Qed.

(** ** The system of the curve fit *)

Lemma powers_spec (n : nat) : forall (p a : float),
  length (powers n p a) = n
  /\ ((0 < n)%nat -> powers n p a !! 0%nat = Some p)
  /\ forall j, (S j < n)%nat ->
       exists q, powers n p a !! j = Some q
                 /\ powers n p a !! S j = Some (q * a)%float.
Proof.
  induction n as [| n IH]; intros p a.
  - split; [reflexivity |]. split; intros; lia.
  - destruct (IH (p * a)%float a) as (Hlen & Hhead & Hnext). simpl.
    split; [rewrite Hlen; reflexivity |]. split; [reflexivity |].
    intros j Hj. destruct j as [| j].
    + exists p. split; [reflexivity |]. simpl. apply Hhead. lia.
    + destruct (Hnext j ltac:(lia)) as (q & Hq & Hq').
      exists q. split; assumption.
Qed.

(** X19. Row i of the matrix of [vandermonde] has degree + 1 entries:
    1, then each entry the one before it times a[i]. For the curve fit
    this is the matrix of the powers 0 to 5 of 0, 1, ..., 5, the same for
    every curve, with the right-hand side 0, the four points of the
    curve and 0x3fff. *)
Theorem vandermonde_rows_are_powers :
  (forall (a : list float) (degree : Z) (i : nat) (ai : float),
      0 <= degree -> a !! i = Some ai ->
      length (vandermonde a degree) = length a
      /\ exists row,
           vandermonde a degree !! i = Some row
           /\ length row = Z.to_nat (degree + 1)
           /\ row !! 0%nat = Some 1%float
           /\ forall j, Z.of_nat (S j) <= degree ->
                exists q, row !! j = Some q /\ row !! S j = Some (q * ai)%float)
  /\ (forall (solver : Solver) (curve : list Z) (i : nat),
        @gammacorrect solver curve i
        = @SolveQR solver powers_0_to_5
            [0%float; float64_of_int (elem curve 0); float64_of_int (elem curve 1);
             float64_of_int (elem curve 2); float64_of_int (elem curve 3);
             0x3fff%float] !!! i).
Proof.
  split.
  - intros a degree i ai Hdeg Hai. unfold vandermonde.
    split; [apply length_map |].
    exists (powers (Z.to_nat (degree + 1)) 1%float ai).
    change (map ?f a) with (f <$> a).
    rewrite list_lookup_fmap, Hai.
    destruct (powers_spec (Z.to_nat (degree + 1)) 1%float ai)
      as (Hlen & Hhead & Hnext).
    split; [reflexivity |]. split; [exact Hlen |].
    split; [apply Hhead; lia |].
    intros j Hj. apply Hnext. lia.
  - intros solver curve i. unfold gammacorrect. cbv zeta.
    assert (E : vandermonde [0; 1; 2; 3; 4; 5]%float 5 = powers_0_to_5)
      by (vm_compute; reflexivity).
    rewrite E. reflexivity.
Qed.

(** ** The further properties on the examples *)

Lemma cfaPattern_bytes_of_offset_witness :
  exists b0 b1 b2 b3,
    @sensorTag tiff_tags table_reader (mkMeta [] []) 0
      (mkEntry 0x828e 0x02010100) RD.zero
    = Val (RD.with_cfaPattern [b0; b1; b2; b3] RD.zero)
    /\ 0 <= b0 < 256 /\ 0 <= b1 < 256 /\ 0 <= b2 < 256 /\ 0 <= b3 < 256
    /\ b0 + 256 * b1 + 65536 * b2 + 16777216 * b3 = 0x02010100.
Proof.
  exact (@cfaPattern_bytes_of_offset tiff_tags table_reader (mkMeta [] []) 0
           (mkEntry 0x828e 0x02010100) RD.zero
           ltac:(apply (bool_decide_unpack _); vm_compute; reflexivity)
           eq_refl ltac:(simpl; lia) eq_refl).
Defined.

Lemma last_entry_of_a_tag_is_kept_witness :
  RD.width (RD.with_width 4464 (RD.with_height 4000 (RD.with_width 6000 RD.zero)))
  = from_option uint16 0
      (last_tagged 0x0100
         [mkEntry 0x0100 6000; mkEntry 0x0101 4000; mkEntry 0x0100 70000]).
Proof.
  exact (proj1 (@last_entry_of_a_tag_is_kept tiff_tags table_reader (mkMeta [] [])
                  [mkEntry 0x0100 6000; mkEntry 0x0101 4000; mkEntry 0x0100 70000]
                  0 RD.zero
                  (RD.with_width 4464 (RD.with_height 4000 (RD.with_width 6000 RD.zero)))
                  ltac:(apply (bool_decide_unpack _); vm_compute; reflexivity)
                  eq_refl)).
Defined.

Lemma curve_entry_sets_four_points_witness :
  exists g,
    @sensorTag tiff_tags table_reader
      (mkMeta [mkEntry 0x7010 0] [mkValue (Some [0x1f4; 0x3e8]) None]) 0
      (mkEntry 0x7010 0) RD.zero
    = Val (RD.with_gammaCurve g RD.zero)
    /\ length g = 5%nat
    /\ (forall k, (k < 4)%nat ->
          g !! k = if (k <? 2)%nat then [0x1f4; 0x3e8] !! k
                   else [0; 0; 0; 0; 0] !! k)
    /\ g !! 4%nat = Some 0x3fff.
Proof.
  exact (@curve_entry_sets_four_points tiff_tags table_reader
           (mkMeta [mkEntry 0x7010 0] [mkValue (Some [0x1f4; 0x3e8]) None]) 0
           (mkEntry 0x7010 0) RD.zero [0x1f4; 0x3e8]
           ltac:(apply (bool_decide_unpack _); vm_compute; reflexivity)
           eq_refl eq_refl eq_refl).
Defined.

Lemma nil_typed_value_panics_witness :
  @subIFD tiff_tags table_reader (mkEntry 0x014a 100) RD.zero
    (File false
       [(8, mkMeta [mkEntry 0x014a 100] [mkValue None None]);
        (100, mkMeta [mkEntry 0x0100 6000; mkEntry 0x7310 0]
                     [mkValue None None; mkValue None None])]
       [] 8)
  = Stop Panics.
Proof.
  exact (proj1 (@nil_typed_value_panics tiff_tags table_reader
                  (mkEntry 0x014a 100) RD.zero
                  (File false
                     [(8, mkMeta [mkEntry 0x014a 100] [mkValue None None]);
                      (100, mkMeta [mkEntry 0x0100 6000; mkEntry 0x7310 0]
                                   [mkValue None None; mkValue None None])]
                     [] 8)
                  (File false
                     [(8, mkMeta [mkEntry 0x014a 100] [mkValue None None]);
                      (100, mkMeta [mkEntry 0x0100 6000; mkEntry 0x7310 0]
                                   [mkValue None None; mkValue None None])]
                     [] 100)
                  (mkMeta [mkEntry 0x0100 6000; mkEntry 0x7310 0]
                          [mkValue None None; mkValue None None])
                  1%nat (mkEntry 0x7310 0)
                  ltac:(apply (bool_decide_unpack _); vm_compute; reflexivity)
                  eq_refl eq_refl
                  (or_introl (conj (or_intror eq_refl) eq_refl)))).
Defined.

Lemma extracted_record_is_well_shaped_witness : well_shaped wide_sensor_record.
Proof.
  exact (@extracted_record_is_well_shaped tiff_tags table_reader
           file_with_wide_sensor wide_sensor_record None
           (File false
              [(8, mkMeta [mkEntry 0x014a 100] [mkValue None None]);
               (100, mkMeta [mkEntry 0x0100 6000; mkEntry 0x0101 4000;
                             mkEntry 0x0100 70000; mkEntry 0x7010 0;
                             mkEntry 0x828e 0x02010100]
                            [mkValue None None; mkValue None None; mkValue None None;
                             mkValue (Some [0x1f4; 0x3e8]) None; mkValue None None])]
              [] 100)
           eq_refl).
Defined.

Lemma readraw14_of_even_raster_witness :
  exists pix,
    @Raw14.readraw14 amd64 line_solver tile_bytes tile_record
    = Val (mkRGB14 pix 2 (image_Rect 0 0 2 2))
    /\ pixel_at pix 2 1 1
       = @raw14_pixel amd64 (@gammacorrect line_solver (curve_points tile_record))
           tile_record (whiteBalanceRGGB tile_record)
           (@Raw14.words amd64 tile_bytes) 2 1 1.
Proof.
  destruct (@readraw14_of_even_raster amd64 line_solver tile_bytes tile_record 2 2
              eq_refl eq_refl ltac:(lia) ltac:(lia) eq_refl eq_refl
              ltac:(simpl; lia))
    as (pix & E & _ & Hpix).
  exists pix. split; [exact E |]. apply Hpix; lia.
Defined.

Lemma readraw14_panics_witness :
  @Raw14.readraw14 amd64 line_solver short_tile_bytes tile_record = Panic.
Proof.
  apply (@readraw14_panics amd64 line_solver short_tile_bytes tile_record 2 2);
    [reflexivity | reflexivity | lia | lia |].
  right. right. vm_compute. reflexivity.
Defined.

Lemma readCRAW_of_whole_blocks_witness :
  exists pix,
    @CRAW.readCRAW amd64 byte_codec line_solver ramp_bytes strip_record
    = Val (mkRGB14 pix 32 (image_Rect 0 0 32 2))
    /\ pixel_at pix 32 1 1
       = @craw_pixel amd64 byte_codec
           (@gammacorrect line_solver (curve_points strip_record))
           strip_record (whiteBalanceRGGB strip_record) ramp_bytes 32 1 1.
Proof.
  destruct (@readCRAW_of_whole_blocks amd64 byte_codec line_solver ramp_bytes
              strip_record 32 2 eq_refl
              ltac:(intros s Hs; cbn; rewrite length_map, Hs; lia)
              eq_refl eq_refl ltac:(lia) ltac:(lia) eq_refl eq_refl
              ltac:(simpl; lia))
    as (pix & E & _ & Hpix).
  exists pix. split; [exact E |]. apply Hpix; lia.
Defined.

Lemma readCRAW_panics_witness :
  @CRAW.readCRAW amd64 byte_codec line_solver ramp_bytes half_strip_record = Panic.
Proof.
  apply (proj2 (@readCRAW_panics amd64 byte_codec line_solver ramp_bytes
                  half_strip_record 16 2 eq_refl eq_refl ltac:(lia) ltac:(lia)));
    [reflexivity |].
  vm_compute. discriminate.
Defined.
